(** * LRU cache engine (cache.js): shallow embedding and verified properties

    The JavaScript class [LRUCache] keeps a plain object [this.cache] as an
    index from keys to list nodes, and a doubly linked list of [Node] objects
    bounded by two sentinels, [this.head] and [this.tail].  Nodes are shared
    mutable objects: the index and the neighbouring nodes hold references to
    the same node.  The embedding therefore keeps an explicit store of nodes
    addressed by allocation order, and every method is a computation over
    that store and the fields of [this], in a state-and-exception monad. *)

From Stdlib Require Import ZArith Lia.
From stdpp Require Import base option list strings gmap fin_maps sorting.

Local Open Scope Z_scope.
Local Open Scope string_scope.

(** ** JavaScript values *)

(** Nodes are addressed by their rank of allocation. *)
Abbreviation addr := nat (only parsing).

(** The values the engine manipulates.  [VNode a] is a reference to the
    [Node] object allocated at [a]; [VBuiltin p] is the object found under
    the property [p] of [Object.prototype] (a function such as
    [Object.prototype.toString], or [Object.prototype] itself for
    [__proto__]); [VObject i] is an application object, opaque to the cache
    and compared by identity. Numbers are the integer-valued ones. *)
Inductive val : Type :=
| VUndefined
| VNull
| VBool (b : bool)
| VNum (n : Z)
| VStr (s : string)
| VNode (a : addr)
| VBuiltin (p : string)
| VObject (i : nat).

#[global] Instance val_eq_dec : EqDecision val.
Proof. solve_decision. Defined.

(** [x === y] on the values above. *)
Definition strict_eq (x y : val) : bool := bool_decide (x = y).

(** The conversion of a value used as a property name ([ToPropertyKey]). *)
Definition digit_string (d : nat) : string :=
  String (Ascii.ascii_of_nat (48 + d)) EmptyString.

Fixpoint decimal_aux (fuel n : nat) (acc : string) : string :=
  match fuel with
  | O => acc
  | S fuel' =>
      let acc' := digit_string (n mod 10) +:+ acc in
      match (n / 10)%nat with
      | O => acc'
      | S m => decimal_aux fuel' (S m) acc'
      end
  end.

Definition decimal (n : nat) : string := decimal_aux (S n) n "".

Definition ToPropertyKey (v : val) : string :=
  match v with
  | VUndefined => "undefined"
  | VNull => "null"
  | VBool true => "true"
  | VBool false => "false"
  | VNum n => if (n <? 0)%Z then "-" +:+ decimal (Z.to_nat (- n)) else decimal (Z.to_nat n)
  | VStr s => s
  | VNode _ => "[object Object]"
  | VBuiltin _ => "[object Object]"
  | VObject _ => "[object Object]"
  end.

(** The property names every object literal [{}] inherits from
    [Object.prototype]: for these, [key in {}] is true although the object
    has no own property. *)
Definition Object_prototype_keys : list string :=
  [ "constructor"; "__defineGetter__"; "__defineSetter__"; "hasOwnProperty";
    "__lookupGetter__"; "__lookupSetter__"; "isPrototypeOf";
    "propertyIsEnumerable"; "toString"; "valueOf"; "__proto__";
    "toLocaleString" ].

Definition inherited (key : string) : bool :=
  bool_decide (key ∈ Object_prototype_keys).

(** ** Nodes, the cache object and the store *)

(** class Node: [key], [value], [prev], [next]. *)
Record Node : Type := mkNode {
  key : val;
  value : val;
  prev : val;
  next : val
}.

Inductive field : Type := Fkey | Fvalue | Fprev | Fnext.

#[global] Instance field_eq_dec : EqDecision field.
Proof. solve_decision. Defined.

Definition field_get (f : field) (n : Node) : val :=
  match f with
  | Fkey => key n
  | Fvalue => value n
  | Fprev => prev n
  | Fnext => next n
  end.

Definition field_set (f : field) (v : val) (n : Node) : Node :=
  match f with
  | Fkey => mkNode v (value n) (prev n) (next n)
  | Fvalue => mkNode (key n) v (prev n) (next n)
  | Fprev => mkNode (key n) (value n) v (next n)
  | Fnext => mkNode (key n) (value n) (prev n) v
  end.

Module LRUCache.

(** The fields of an [LRUCache] instance.  [cache] is the object literal
    used as the index: its own properties. *)
Record t : Type := mk {
  capacity : Z;
  cache : gmap string val;
  size : Z;
  head : val;
  tail : val
}.

(** The store of [Node] objects, by address, and the instance. *)
Record state : Type := mkState {
  heap : list Node;
  this : t
}.

(** ** Outcomes and the monad of methods *)

Inductive error : Type := TypeError.

(** A call returns, throws, or never returns. *)
Inductive result (A : Type) : Type :=
| Ok (a : A)
| Throw (e : error)
| Diverges.
Arguments Ok {A} a.
Arguments Throw {A} e.
Arguments Diverges {A}.

Definition M (A : Type) : Type := state → result (A * state).

Definition ret {A} (a : A) : M A := λ s, Ok (a, s).
Definition bind {A B} (c : M A) (k : A → M B) : M B :=
  λ s, match c s with
       | Ok (a, s') => k a s'
       | Throw e => Throw e
       | Diverges => Diverges
       end.

Notation "'let*' x ':=' c 'in' k" := (bind c (λ x, k))
  (at level 10, x binder, c at level 100, k at level 200).
Notation "c ;;; k" := (bind c (λ _, k))
  (at level 100, k at level 200, right associativity).

Definition get_this : M t := λ s, Ok (this s, s).
Definition set_this (f : t → t) : M unit :=
  λ s, Ok (tt, mkState (heap s) (f (this s))).

(** ** Property access *)

(** [o.f]: reading a property of [undefined] or [null] throws; a node has
    the four fields; the primitives and the built-in objects have none of
    them, and the application objects, which the engine stores as
    payloads and never looks into, are taken to have none either.  No call
    makes a reference to a node that the store does not hold; reading
    through one is treated like reading through [undefined]. *)
Definition get_prop (o : val) (f : field) : M val :=
  λ s, match o with
       | VUndefined | VNull => Throw TypeError
       | VNode a =>
           match heap s !! a with
           | Some n => Ok (field_get f n, s)
           | None => Throw TypeError
           end
       | _ => Ok (VUndefined, s)
       end.

(** [o.f = v].  Assigning to a property of [undefined] or [null] throws,
    and so does, in the strict mode of a class body, assigning to a
    property of a primitive.  An assignment on a built-in or application
    object succeeds and changes that object, which is no part of the
    cache: the engine only makes one in [put] on an inherited key, just
    before the call throws. *)
Definition set_prop (o : val) (f : field) (v : val) : M unit :=
  λ s, match o with
       | VNode a =>
           match heap s !! a with
           | Some n => Ok (tt, mkState (<[a := field_set f v n]> (heap s)) (this s))
           | None => Throw TypeError
           end
       | VBuiltin _ | VObject _ => Ok (tt, s)
       | _ => Throw TypeError
       end.

(** [new Node(key, value)] *)
Definition new_Node (k v : val) : M val :=
  λ s, Ok (VNode (length (heap s)),
           mkState (heap s ++ [mkNode k v VNull VNull]) (this s)).

(** [key in this.cache]: an own property or an inherited one. *)
Definition cache_in (k : string) : M bool :=
  λ s, Ok (bool_decide (is_Some (cache (this s) !! k)) || inherited k, s).

(** [this.cache[key]] *)
Definition cache_get (k : string) : M val :=
  λ s, Ok (match cache (this s) !! k with
           | Some v => v
           | None => if inherited k then VBuiltin k else VUndefined
           end, s).

(** [this.cache[key] = v], on a key that is not inherited (see [put]). *)
Definition cache_set (k : string) (v : val) : M unit :=
  set_this (λ c, mk (capacity c) (<[k := v]> (cache c)) (size c) (head c) (tail c)).

(** [delete this.cache[key]] *)
Definition cache_delete (k : string) : M unit :=
  set_this (λ c, mk (capacity c) (base.delete k (cache c)) (size c) (head c) (tail c)).

Definition set_cache (m : gmap string val) : M unit :=
  set_this (λ c, mk (capacity c) m (size c) (head c) (tail c)).

Definition set_size (n : Z) : M unit :=
  set_this (λ c, mk (capacity c) (cache c) n (head c) (tail c)).

(** [this.size--] and [this.size++] *)
Definition size_decr : M unit := let* c := get_this in set_size (size c - 1).
Definition size_incr : M unit := let* c := get_this in set_size (size c + 1).

(** ** The methods *)

(** [this.head = v] and [this.tail = v] *)
Definition set_head (v : val) : M unit :=
  set_this (λ c, mk (capacity c) (cache c) (size c) v (tail c)).
Definition set_tail (v : val) : M unit :=
  set_this (λ c, mk (capacity c) (cache c) (size c) (head c) v).

(** constructor(capacity), run on an empty store: [capacity], an empty
    [cache] and [size] 0, then the two sentinels, linked to each other.
    No check is made on [capacity]. *)
Definition constructor (capacity : Z) : result state :=
  match
    (let* h := new_Node (VStr "head") VNull in
     set_head h ;;;
     let* t := new_Node (VStr "tail") VNull in
     set_tail t ;;;
     let* c := get_this in
     set_prop (head c) Fnext (tail c) ;;;
     let* c := get_this in
     set_prop (tail c) Fprev (head c))
      (mkState [] (mk capacity ∅ 0 VUndefined VUndefined))
  with
  | Ok (_, s) => Ok s
  | Throw e => Throw e
  | Diverges => Diverges
  end.

Definition removeNode (node : val) : M unit :=
  let* prev := get_prop node Fprev in
  let* next := get_prop node Fnext in
  set_prop prev Fnext next ;;;
  set_prop next Fprev prev.

Definition addToFront (node : val) : M unit :=
  let* c := get_this in
  let* n := get_prop (head c) Fnext in
  set_prop node Fnext n ;;;
  set_prop node Fprev (head c) ;;;
  let* n' := get_prop (head c) Fnext in
  set_prop n' Fprev node ;;;
  set_prop (head c) Fnext node.

Definition moveToFront (node : val) : M unit :=
  removeNode node ;;;
  addToFront node.

Definition removeLRU : M val :=
  let* c := get_this in
  let* lruNode := get_prop (tail c) Fprev in
  if strict_eq lruNode (head c) then ret VNull
  else
    removeNode lruNode ;;;
    get_prop lruNode Fkey.

Definition get (key : string) : M val :=
  let* present := cache_in key in
  if negb present then ret VUndefined
  else
    let* node := cache_get key in
    moveToFront node ;;;
    get_prop node Fvalue.

Definition put (key : string) (value : val) : M unit :=
  let* present := cache_in key in
  if present then
    let* node := cache_get key in
    set_prop node Fvalue value ;;;
    moveToFront node
  else
    (let* c := get_this in
     if bool_decide (size c = capacity c) then
       let* lruKey := removeLRU in
       cache_delete (ToPropertyKey lruKey) ;;;
       size_decr
     else ret tt) ;;;
    let* newNode := new_Node (VStr key) value in
    addToFront newNode ;;;
    cache_set key newNode ;;;
    size_incr.

Definition delete (key : string) : M bool :=
  let* present := cache_in key in
  if negb present then ret false
  else
    let* node := cache_get key in
    removeNode node ;;;
    cache_delete key ;;;
    size_decr ;;;
    ret true.

Definition clear : M unit :=
  set_cache ∅ ;;;
  set_size 0 ;;;
  let* c := get_this in
  set_prop (head c) Fnext (tail c) ;;;
  let* c := get_this in
  set_prop (tail c) Fprev (head c).

(** The loop of getContents.  Each iteration reads a node of the store, so
    a walk that has not met [this.tail] after more iterations than there
    are nodes is back on a node it has already left and never ends: the
    loop is run for one more iteration than the store has nodes. *)
Fixpoint getContents_loop (fuel : nat) (current : val)
    (contents : list (val * val)) : M (list (val * val)) :=
  let* c := get_this in
  if negb (strict_eq current (tail c)) then
    match fuel with
    | O => λ _, Diverges
    | S fuel' =>
        let* k := get_prop current Fkey in
        let* v := get_prop current Fvalue in
        let* n := get_prop current Fnext in
        getContents_loop fuel' n (contents ++ [(k, v)])
    end
  else ret contents.

Definition getContents : M (list (val * val)) :=
  let* c := get_this in
  let* current := get_prop (head c) Fnext in
  λ s, getContents_loop (S (length (heap s))) current [] s.

Definition has (key : string) : M bool := cache_in key.

(** ** Sequences of calls *)

(** A call of one of the public methods, and what it returns. *)
Inductive op : Type :=
| Get (key : string)
| Put (key : string) (value : val)
| Delete (key : string)
| Has (key : string)
| GetContents
| Clear.

Inductive output : Type :=
| OValue (v : val)
| OBool (b : bool)
| OUnit
| OContents (l : list (val * val)).

Definition call (o : op) : M output :=
  match o with
  | Get k => let* v := get k in ret (OValue v)
  | Put k v => put k v ;;; ret OUnit
  | Delete k => let* b := delete k in ret (OBool b)
  | Has k => let* b := has k in ret (OBool b)
  | GetContents => let* l := getContents in ret (OContents l)
  | Clear => clear ;;; ret OUnit
  end.

(** The calls of a script, one after the other; an exception that no one
    catches ends the script. *)
Fixpoint run (ops : list op) : M (list output) :=
  match ops with
  | [] => ret []
  | o :: ops' =>
      let* r := call o in
      let* rs := run ops' in
      ret (r :: rs)
  end.

(** [new LRUCache(capacity)] followed by the calls [ops]. *)
Definition session (capacity : Z) (ops : list op) : result (list output * state) :=
  match constructor capacity with
  | Ok s => run ops s
  | Throw e => Throw e
  | Diverges => Diverges
  end.

End LRUCache.

Import LRUCache.

Local Close Scope Z_scope.
Local Close Scope string_scope.

(** What a script printed, when it ran to its end, and what a call
    returned, when it returned. *)
Definition outputs {A} (r : result (list output * A)) : option (list output) :=
  match r with
  | Ok (outs, _) => Some outs
  | _ => None
  end.

Definition returned {A} (r : result (A * state)) : option A :=
  match r with
  | Ok (a, _) => Some a
  | _ => None
  end.

(** The calls putting the entries [kvs] one after the other. *)
Definition puts (kvs : list (string * val)) : list op :=
  (λ e, Put e.1 e.2) <$> kvs.

(** The calls that meet a key inherited from [Object.prototype] on their
    way to unlinking a node. *)
Definition op_throws (o : op) : bool :=
  match o with
  | Get k | Put k _ | Delete k => inherited k
  | _ => false
  end.

(** The calls on a key that is no property of [Object.prototype]. *)
Definition op_own (o : op) : bool :=
  match o with
  | Get k | Put k _ | Delete k | Has k => negb (inherited k)
  | _ => true
  end.

(** The two halves of the second part of [put]: the eviction when the cache
    is at capacity, and the insertion. *)
Definition evict_block : M unit :=
  let* c := get_this in
  if bool_decide (size c = capacity c) then
    let* lruKey := removeLRU in
    cache_delete (ToPropertyKey lruKey) ;;;
    size_decr
  else ret tt.

Definition insert_block (k : string) (v : val) : M unit :=
  let* newNode := new_Node (VStr k) v in
  addToFront newNode ;;;
  cache_set k newNode ;;;
  size_incr.

(** * The cache as the specification describes it *)

(** The engine of the specification (its sections 3 and 4.1), on the
    sequence of entries from the most recently used to the least recently
    used, with [size] the number of entries. *)
Module Spec.

Abbreviation cache := (list (string * val)) (only parsing).

Fixpoint lookup (k : string) (c : cache) : option val :=
  match c with
  | [] => None
  | (k', v) :: c' => if decide (k' = k) then Some v else lookup k c'
  end.

Definition remove (k : string) (c : cache) : cache :=
  filter (λ e, e.1 ≠ k) c.

(** get: "not found" without any change when the key is absent; otherwise
    the entry is moved to the most recently used position and its value
    returned. *)
Definition get (k : string) (c : cache) : option val * cache :=
  match lookup k c with
  | Some v => (Some v, (k, v) :: remove k c)
  | None => (None, c)
  end.

(** put: on a key of the cache, the value is replaced and the entry
    promoted; on a new key, the least recently used entry is evicted first
    when size equals capacity, then the new entry is linked in front. *)
Definition put (capacity : Z) (k : string) (v : val) (c : cache) : cache :=
  match lookup k c with
  | Some _ => (k, v) :: remove k c
  | None =>
      (k, v) :: (if bool_decide (Z.of_nat (length c) = capacity)
                 then removelast c else c)
  end.

(** delete: false without any change when the key is absent; otherwise
    the entry is removed and the answer is true. *)
Definition delete (k : string) (c : cache) : bool * cache :=
  match lookup k c with
  | Some _ => (true, remove k c)
  | None => (false, c)
  end.

Definition has (k : string) (c : cache) : bool :=
  bool_decide (is_Some (lookup k c)).

Definition clear : cache := [].

Definition getContents (c : cache) : list (string * val) := c.

Inductive output : Type :=
| Found (v : val)
| NotFound
| Answer (b : bool)
| Done
| Snapshot (l : list (string * val)).

Definition step (capacity : Z) (o : op) (c : cache) : output * cache :=
  match o with
  | Get k =>
      match get k c with
      | (Some v, c') => (Found v, c')
      | (None, c') => (NotFound, c')
      end
  | Put k v => (Done, put capacity k v c)
  | Delete k => let '(b, c') := delete k c in (Answer b, c')
  | Has k => (Answer (has k c), c)
  | GetContents => (Snapshot (getContents c), c)
  | Clear => (Done, clear)
  end.

Fixpoint run (capacity : Z) (ops : list op) (c : cache) : list output * cache :=
  match ops with
  | [] => ([], c)
  | o :: ops' =>
      let '(r, c') := step capacity o c in
      let '(rs, c'') := run capacity ops' c' in
      (r :: rs, c'')
  end.

End Spec.

(** The JavaScript values of the results of the specification: an entry is
    the object with the fields [key] and [value], and "not found" is what
    the engine returns for it, [undefined]. *)
Definition js_entries (c : Spec.cache) : list (val * val) :=
  (λ e, (VStr e.1, e.2)) <$> c.

Definition js_output (r : Spec.output) : output :=
  match r with
  | Spec.Found v => OValue v
  | Spec.NotFound => OValue VUndefined
  | Spec.Answer b => OBool b
  | Spec.Done => OUnit
  | Spec.Snapshot l => OContents (js_entries l)
  end.

(** ** Recency, from the calls themselves *)

(** A call touches the key it gets or puts. *)
Definition touches (k : string) (o : op) : bool :=
  match o with
  | Get k' | Put k' _ => bool_decide (k' = k)
  | _ => false
  end.

(** The number of calls made after the last get or put on [k], read from
    the calls taken latest first; none when [k] was never touched. *)
Fixpoint since (k : string) (latest_first : list op) : option nat :=
  match latest_first with
  | [] => None
  | o :: older => if touches k o then Some 0 else S <$> since k older
  end.

Definition age (ops : list op) (k : string) : option nat :=
  since k (reverse ops).

(** [k] was touched after [k'] was. *)
Definition more_recent (ops : list op) (k k' : string) : Prop :=
  ∃ a a', age ops k = Some a ∧ age ops k' = Some a' ∧ a < a'.

(** The entries are listed from the most recently touched to the least
    recently touched. *)
Definition by_recency (ops : list op) (c : list (string * val)) : Prop :=
  Forall (λ e, is_Some (age ops e.1)) c ∧
  StronglySorted (λ e e', more_recent ops e.1 e'.1) c.

(** * The representation of the entries in the store *)

(** The field [f] of the node at [a], when there is one. *)
Definition fld (h : list Node) (a : addr) (f : field) : option val :=
  field_get f <$> h !! a.

(** The store after the assignment of [v] to the field [f] of node [a]. *)
Definition upd (h : list Node) (a : addr) (f : field) (v : val) : list Node :=
  match h !! a with
  | Some n => <[a := field_set f v n]> h
  | None => h
  end.

(** [y] follows [x]: the two nodes point to each other. *)
Definition link (h : list Node) (x y : addr) : Prop :=
  fld h x Fnext = Some (VNode y) ∧ fld h y Fprev = Some (VNode x).

(** Every node of the path is linked to the one after it. *)
Fixpoint links (h : list Node) (p : list addr) : Prop :=
  match p with
  | [] => True
  | x :: p' =>
      match p' with
      | [] => True
      | y :: _ => link h x y
      end ∧ links h p'
  end.

(** The store after [removeNode] on a node between [x] and [y]. *)
Definition unlinked (h : list Node) (x y : addr) : list Node :=
  upd (upd h x Fnext (VNode y)) y Fprev (VNode x).

(** The store after [addToFront] of [a] between the head [p] and [y]. *)
Definition linked (h : list Node) (p a y : addr) : list Node :=
  upd (upd (upd (upd h a Fnext (VNode y)) a Fprev (VNode p)) y Fprev (VNode a))
      p Fnext (VNode a).

(** The sentinels are the first two nodes of the store: the constructor
    allocates the head, then the tail.  The path from the head to the tail
    through the nodes [l]. *)
Definition path (l : list addr) : list addr := 0 :: l ++ [1].

(** Nothing but [prev] and [next] fields differ between two stores. *)
Definition same_data (h h' : list Node) : Prop :=
  length h' = length h ∧
  ∀ b f, f ≠ Fnext → f ≠ Fprev → fld h' b f = fld h b f.

(** A live entry: the address of its node, its key and its payload. *)
Record entry : Type := Entry {
  e_addr : addr;
  e_key : string;
  e_value : val
}.

Definition addrs (L : list entry) : list addr := e_addr <$> L.
Definition keys (L : list entry) : list string := e_key <$> L.

(** What getContents is to return for the entries [L]. *)
Definition contents (L : list entry) : list (val * val) :=
  (λ e, (VStr (e_key e), e_value e)) <$> L.

(** The entries of the specification held by a state of the engine. *)
Definition abs (L : list entry) : Spec.cache := (λ e, (e_key e, e_value e)) <$> L.

(** The state [s] holds the entries [L], most recently used first: the
    sentinels are nodes 0 and 1, the nodes of [L] are linked between them in
    that order, and the index maps exactly the keys of [L] to their nodes. *)
Record Inv (s : state) (L : list entry) : Prop := {
  inv_head : head (this s) = VNode 0;
  inv_tail : tail (this s) = VNode 1;
  inv_nodup : NoDup (path (addrs L));
  inv_links : links (heap s) (path (addrs L));
  inv_nodes : ∀ e, e ∈ L →
    fld (heap s) (e_addr e) Fkey = Some (VStr (e_key e)) ∧
    fld (heap s) (e_addr e) Fvalue = Some (e_value e);
  inv_index : ∀ k x,
    cache (this s) !! k = Some x ↔ ∃ e, e ∈ L ∧ e_key e = k ∧ x = VNode (e_addr e);
  inv_own : ∀ e, e ∈ L → inherited (e_key e) = false
}.

(** The counter [size] is the number of entries, within the capacity. *)
Definition SizeInv (s : state) (L : list entry) : Prop :=
  (1 ≤ capacity (this s))%Z ∧
  size (this s) = Z.of_nat (length L) ∧
  (Z.of_nat (length L) ≤ capacity (this s))%Z.

(** The state built by the constructor. *)
Definition fresh (capacity : Z) : state :=
  mkState
    [ mkNode (VStr "head") VNull VNull (VNode 1);
      mkNode (VStr "tail") VNull (VNode 0) VNull ]
    (mk capacity ∅ 0 (VNode 0) (VNode 1)).

(** The state after the removal of the key [k] from the index, on the
    store [h']. *)
Definition dropped (k : string) (h' : list Node) (c : LRUCache.t) : state :=
  mkState h' (mk (capacity c) (base.delete k (cache c)) (size c - 1)%Z (head c) (tail c)).

(** The state after [clear]. *)
Definition cleared (s : state) : state :=
  mkState (unlinked (heap s) 0 1)
          (mk (capacity (this s)) ∅ 0 (head (this s)) (tail (this s))).

(** One call of the engine against one step of the specification: the call
    throws on an inherited key, or takes a state that holds the entries [L]
    to one that holds the entries of the specification's next state, with
    the same result for a key of its own. *)
Definition simulates (s : state) (L : list entry) (o : op) : Prop :=
  if op_throws o then call o s = Throw TypeError
  else ∃ out s' L',
    call o s = Ok (out, s') ∧ Inv s' L' ∧
    capacity (this s') = capacity (this s) ∧
    (SizeInv s L →
       SizeInv s' L' ∧
       abs L' = (Spec.step (capacity (this s)) o (abs L)).2 ∧
       (op_own o = true →
          out = js_output (Spec.step (capacity (this s)) o (abs L)).1)).

(** * The engine on its sequence of entries, for every capacity *)

(** What the calls do to the counter [size] and to the sequence of entries,
    most recently used first, and what they return.  The counter is the one
    the code keeps: [put] compares it, not the number of entries, with the
    capacity, and an eviction lowers it even when there is no entry to
    evict. *)
Module Model.

Definition put (capacity : Z) (k : string) (v : val)
    (m : Z * list (string * val)) : Z * list (string * val) :=
  match Spec.lookup k m.2 with
  | Some _ => (m.1, (k, v) :: Spec.remove k m.2)
  | None =>
      if bool_decide (m.1 = capacity)
      then ((m.1 - 1 + 1)%Z, (k, v) :: removelast m.2)
      else ((m.1 + 1)%Z, (k, v) :: m.2)
  end.

Definition step (capacity : Z) (o : op) (m : Z * list (string * val))
    : output * (Z * list (string * val)) :=
  match o with
  | Get k =>
      match Spec.lookup k m.2 with
      | Some v => (OValue v, (m.1, (k, v) :: Spec.remove k m.2))
      | None => (OValue VUndefined, m)
      end
  | Put k v => (OUnit, put capacity k v m)
  | Delete k =>
      match Spec.lookup k m.2 with
      | Some _ => (OBool true, ((m.1 - 1)%Z, Spec.remove k m.2))
      | None => (OBool false, m)
      end
  | Has k => (OBool (bool_decide (is_Some (Spec.lookup k m.2)) || inherited k), m)
  | GetContents => (OContents (js_entries m.2), m)
  | Clear => (OUnit, (0%Z, []))
  end.

Fixpoint run (capacity : Z) (ops : list op) (m : Z * list (string * val))
    : list output * (Z * list (string * val)) :=
  match ops with
  | [] => ([], m)
  | o :: ops' =>
      let r := step capacity o m in
      let rs := run capacity ops' r.2 in
      (r.1 :: rs.1, rs.2)
  end.

End Model.

(** The counter and the entries of a state that holds [L]. *)
Definition model (s : state) (L : list entry) : Z * list (string * val) :=
  (size (this s), abs L).

(** * The callers of the cache *)

(** [if (x)]: the conversion of a value to a boolean. *)
Definition truthy (x : val) : bool :=
  match x with
  | VUndefined | VNull => false
  | VBool b => b
  | VNum n => negb (n =? 0)%Z
  | VStr s => negb (bool_decide (s = ""))
  | VNode _ | VBuiltin _ | VObject _ => true
  end.

(** The calls that store a payload store a truthy one. *)
Definition stores_truthy (o : op) : Prop :=
  match o with
  | Put _ v => truthy v = true
  | _ => True
  end.

(** [array.forEach(callback)]. *)
Fixpoint forEach {A} (callback : A → M unit) (array : list A) : M unit :=
  match array with
  | [] => ret tt
  | item :: rest => callback item ;;; forEach callback rest
  end.

(** routes/wordRoute.js, on the shared cache of utils/cacheManager.js.  The
    handlers are asynchronous: each is cut at the points where it waits for
    the database, and every piece runs to its end before another one
    starts.  What the database answered is an argument of the piece that
    follows, and the result of a piece is the status of its response.  An
    exception of the cache leaves the piece for the [catch] of the
    handler. *)
Module wordRoute.

(** [new LRUCache(100)] of utils/cacheManager.js. *)
Definition wordCache : result state := constructor 100.

(** [x.startsWith(searchString)]: a method of strings only. *)
Definition startsWith (x : val) (searchString : string) : M bool :=
  match x with
  | VStr s => ret (String.prefix searchString s)
  | _ => λ _, Throw TypeError
  end.

(** The callback of [forEach] in [clearPaginationCache]. *)
Definition clear_item (item : val * val) : M unit :=
  let* listed := startsWith item.1 "list_" in
  if listed then delete (ToPropertyKey item.1) ;;; ret tt
  else ret tt.

Definition clearPaginationCache : M unit :=
  let* cacheContents := getContents in
  forEach clear_item cacheContents.

(** The key of a page of the listing:
    [`list_${page}_${limit}_${JSON.stringify(filter)}`], from the texts of
    its three parts. *)
Definition cacheKey (page limit filter : string) : string :=
  "list_" +:+ page +:+ "_" +:+ limit +:+ "_" +:+ filter.

(** router.get('/:term') and router.get('/'), before the database is asked:
    the payload the handler answers with, when it answers from the cache. *)
Definition cached (key : string) : M (option val) :=
  let* cachedWord := get key in
  ret (if truthy cachedWord then Some cachedWord else None).

(** router.get('/:term'), once the database has answered [word]. *)
Definition get_term_fetched (term : string) (word : val) : M nat :=
  if negb (truthy word) then ret 404
  else put term word ;;; ret 200.

(** router.get('/'), once the database has answered: [result] is the
    object the handler has built. *)
Definition get_list_fetched (page limit filter : string) (result : nat) : M nat :=
  put (cacheKey page limit filter) (VObject result) ;;; ret 200.

(** router.post('/') and router.post('/bulk'), once the new terms are
    saved. *)
Definition post_saved : M nat :=
  clearPaginationCache ;;; ret 201.

(** router.put('/:term'), once the database has answered [updatedWord]. *)
Definition put_term (term : string) (updatedWord : val) : M nat :=
  if negb (truthy updatedWord) then ret 404
  else
    let* present := has term in
    (if present then put term updatedWord else ret tt) ;;;
    clearPaginationCache ;;;
    ret 200.

(** router.delete('/:term'), once the database has answered
    [deletedWord]. *)
Definition delete_term (term : string) (deletedWord : val) : M nat :=
  if negb (truthy deletedWord) then ret 404
  else
    delete term ;;;
    clearPaginationCache ;;;
    ret 200.

End wordRoute.

(** routes/cacheRoute.js: the handlers that show and empty the cache. *)
Module cacheRoute.

(** router.get('/'): [cacheSize] and [cache] of the response. *)
Definition get_all : M (nat * list (val * val)) :=
  let* cacheContents := getContents in
  ret (length cacheContents, cacheContents).

(** router.get('/:term'). *)
Definition get_term (term : string) : M nat :=
  let* cachedWord := get term in
  if negb (truthy cachedWord) then ret 404 else ret 200.

(** router.delete('/'). *)
Definition delete_all : M nat :=
  clear ;;; ret 200.

End cacheRoute.

(** The pieces of handlers that touch the cache, and the server as the
    pieces it runs, in the order it runs them, on the cache of
    utils/cacheManager.js. *)
Inductive request : Type :=
| GetTerm (term : string)
| GetTermFetched (term : string) (word : val)
| GetList (page limit filter : string)
| GetListFetched (page limit filter : string) (result : nat)
| PostSaved
| PutTerm (term : string) (updatedWord : val)
| DeleteTerm (term : string) (deletedWord : val)
| CacheGetAll
| CacheGetTerm (term : string)
| CacheDeleteAll.

Definition serve (r : request) : M unit :=
  match r with
  | GetTerm term => wordRoute.cached term ;;; ret tt
  | GetTermFetched term word => wordRoute.get_term_fetched term word ;;; ret tt
  | GetList page limit filter =>
      wordRoute.cached (wordRoute.cacheKey page limit filter) ;;; ret tt
  | GetListFetched page limit filter result =>
      wordRoute.get_list_fetched page limit filter result ;;; ret tt
  | PostSaved => wordRoute.post_saved ;;; ret tt
  | PutTerm term updatedWord => wordRoute.put_term term updatedWord ;;; ret tt
  | DeleteTerm term deletedWord => wordRoute.delete_term term deletedWord ;;; ret tt
  | CacheGetAll => cacheRoute.get_all ;;; ret tt
  | CacheGetTerm term => cacheRoute.get_term term ;;; ret tt
  | CacheDeleteAll => cacheRoute.delete_all ;;; ret tt
  end.

Definition server (requests : list request) : result (unit * state) :=
  match wordRoute.wordCache with
  | Ok s => forEach serve requests s
  | Throw e => Throw e
  | Diverges => Diverges
  end.

(** The pieces whose term is no property name of [Object.prototype]. *)
Definition request_own (r : request) : bool :=
  match r with
  | GetTerm term | GetTermFetched term _ | PutTerm term _ | DeleteTerm term _
  | CacheGetTerm term => negb (inherited term)
  | _ => true
  end.

(** A computation that does to the cache what some calls of its methods
    do, all of them storing truthy payloads. *)
Definition scripted {A} (c : M A) : Prop :=
  ∀ s a s', c s = Ok (a, s') →
    ∃ ops outs, run ops s = Ok (outs, s') ∧ Forall stores_truthy ops.

(** The keys of the pages of the listing, as [clearPaginationCache]
    recognises them. *)
Definition pagination (key : val) : bool :=
  match key with
  | VStr k => String.prefix "list_" k
  | _ => false
  end.

(** The entries of a snapshot that are no pages of the listing. *)
Definition kept (c : list (val * val)) : list (val * val) :=
  filter (λ item, pagination item.1 = false) c.

(** * Proof support *)

(** Membership in a list written with [::] and [++]. *)
Ltac elems :=
  repeat match goal with H : _ ∈ _ |- _ => revert H end;
  repeat first [ rewrite elem_of_cons | rewrite elem_of_app
               | rewrite list_elem_of_singleton | rewrite elem_of_nil ];
  try tauto; try (intuition congruence).

(** The premise of [H], settled by computation on a concrete state. *)
Ltac by_computation H :=
  match type of H with
  | ?A → _ =>
      let Hn := fresh in
      assert A as Hn by (vm_compute; reflexivity); specialize (H Hn); clear Hn
  end.

(** The side condition of the lemma on fields left alone by an update:
    another node or another field. *)
Ltac upd_side := first [ right; discriminate | left; congruence ].

Lemma elem_of_mid {A} (l1 l2 : list A) (x y : A) :
  x ∈ l1 ++ y :: l2 ↔ x ∈ l1 ∨ x = y ∨ x ∈ l2.
Proof. by rewrite elem_of_app, elem_of_cons. Qed.

(** * Reasoning about the store *)

Section Store.

Implicit Types (h : list Node) (a b x y : addr) (f g : field) (v : val).

Lemma field_get_set f g v n :
  field_get g (field_set f v n) = if decide (f = g) then v else field_get g n.
Proof. destruct f, g, n; reflexivity. Qed.

Lemma fld_upd h a f v b g :
  is_Some (h !! a) →
  fld (upd h a f v) b g = if decide (a = b ∧ f = g) then Some v else fld h b g.
Proof.
  intros [n Hn]. unfold fld, upd. rewrite Hn.
  destruct (decide (a = b)) as [<-|Hab].
  - rewrite list_lookup_insert_eq by (eapply lookup_lt_Some; eassumption).
    simpl. rewrite field_get_set, Hn. simpl.
    destruct (decide (f = g)) as [Hfg|Hfg].
    + rewrite decide_True; done.
    + rewrite decide_False; [done | tauto].
  - rewrite list_lookup_insert_ne by assumption.
    rewrite decide_False; [done | tauto].
Qed.

Lemma fld_upd_other h a f v b g :
  (a ≠ b ∨ f ≠ g) → fld (upd h a f v) b g = fld h b g.
Proof.
  intros Hne. destruct (h !! a) as [n|] eqn:Hn.
  - rewrite fld_upd by eauto. rewrite decide_False; [done | tauto].
  - unfold upd. by rewrite Hn.
Qed.

Lemma fld_upd_same h a f v :
  is_Some (h !! a) → fld (upd h a f v) a f = Some v.
Proof. intros H. rewrite fld_upd by assumption. rewrite decide_True; done. Qed.

Lemma length_upd h a f v : length (upd h a f v) = length h.
Proof. unfold upd. destruct (h !! a); [apply length_insert | reflexivity]. Qed.

Lemma alloc_upd h a f v b : is_Some (upd h a f v !! b) ↔ is_Some (h !! b).
Proof. rewrite !lookup_lt_is_Some, length_upd. reflexivity. Qed.

Lemma fld_is_Some h a f : is_Some (fld h a f) ↔ is_Some (h !! a).
Proof. unfold fld. rewrite fmap_is_Some. reflexivity. Qed.

Lemma fld_alloc h a f v : fld h a f = Some v → is_Some (h !! a).
Proof. intros H. apply (fld_is_Some h a f). eauto. Qed.

Lemma fld_app_l h n a f : a < length h → fld (h ++ [n]) a f = fld h a f.
Proof. intros H. unfold fld. by rewrite lookup_app_l. Qed.

Lemma fld_app_new h n f : fld (h ++ [n]) (length h) f = Some (field_get f n).
Proof.
  unfold fld. rewrite lookup_app_r by reflexivity.
  by rewrite Nat.sub_diag.
Qed.

(** ** Execution of the primitives *)

Lemma bind_Ok {A B} (c : M A) (k : A → M B) s (u : A) s' :
  c s = Ok (u, s') → bind c k s = k u s'.
Proof. intros H. unfold bind. by rewrite H. Qed.

Lemma bind_Throw {A B} (c : M A) (k : A → M B) s e :
  c s = Throw e → bind c k s = Throw e.
Proof. intros H. unfold bind. by rewrite H. Qed.

Lemma bind_inv {A B} (c : M A) (k : A → M B) s r :
  bind c k s = Ok r → ∃ (u : A) s', c s = Ok (u, s') ∧ k u s' = Ok r.
Proof.
  unfold bind. destruct (c s) as [[u s']| |]; [eauto | discriminate..].
Qed.

Lemma get_prop_node a f s v :
  fld (heap s) a f = Some v → get_prop (VNode a) f s = Ok (v, s).
Proof.
  unfold fld, get_prop. destruct (heap s !! a); simpl; congruence.
Qed.

Lemma set_prop_node a f v s :
  is_Some (heap s !! a) →
  set_prop (VNode a) f v s = Ok (tt, mkState (upd (heap s) a f v) (this s)).
Proof.
  intros [n Hn]. unfold set_prop, upd. by rewrite Hn.
Qed.

(** ** Linked paths *)

Lemma links_cons2 h x y p : links h (x :: y :: p) ↔ link h x y ∧ links h (y :: p).
Proof. reflexivity. Qed.

Lemma links_app h p x q :
  links h (p ++ x :: q) ↔ links h (p ++ [x]) ∧ links h (x :: q).
Proof.
  induction p as [|z p IH]; simpl.
  - tauto.
  - destruct p as [|z' p]; simpl in *; tauto.
Qed.

Lemma links_alloc h p a :
  links h p → (2 ≤ length p)%nat → a ∈ p → is_Some (h !! a).
Proof.
  induction p as [|x p IH]; simpl; [lia|].
  intros [Hx Hp] Hlen Ha. destruct p as [|y p]; [simpl in Hlen; lia|].
  destruct Hx as [Hn Hp']. apply elem_of_cons in Ha as [->|Ha].
  - eapply fld_alloc; eassumption.
  - destruct p as [|z p].
    + apply list_elem_of_singleton in Ha as ->. eapply fld_alloc; eassumption.
    + apply IH; [assumption | simpl; lia | assumption].
Qed.

(** A path stays linked when the store changes elsewhere: [next] is read
    on all nodes but the last, [prev] on all but the first. *)
Lemma links_frame h h' p :
  (∀ z, z ∈ p → fld h' z Fnext = fld h z Fnext) →
  (∀ z, z ∈ p → fld h' z Fprev = fld h z Fprev) →
  links h p → links h' p.
Proof.
  induction p as [|x p IH]; simpl; [done|].
  intros Hn Hp [Hx Hl]. split.
  - destruct p as [|y p]; [done|]. destruct Hx as [H1 H2]. split.
    + rewrite Hn by elems. assumption.
    + rewrite Hp by elems. assumption.
  - apply IH; [| |assumption]; intros; [apply Hn|apply Hp]; elems.
Qed.

Lemma links_frame_init h h' p x :
  (∀ z, z ∈ p → fld h' z Fnext = fld h z Fnext) →
  (∀ z, z ∈ p ++ [x] → fld h' z Fprev = fld h z Fprev) →
  links h (p ++ [x]) → links h' (p ++ [x]).
Proof.
  induction p as [|z p IH]; simpl; [done|].
  intros Hn Hp [Hx Hl]. split.
  - assert (∃ y q, p ++ [x] = y :: q) as (y & q & Hq).
    { destruct p; simpl; eauto. }
    rewrite Hq in *. destruct Hx as [H1 H2]. split.
    + rewrite Hn by elems. assumption.
    + rewrite Hp by elems. assumption.
  - apply IH; [| |assumption]; intros; [apply Hn|apply Hp]; elems.
Qed.

Lemma links_frame_tail h h' y p :
  (∀ z, z ∈ y :: p → fld h' z Fnext = fld h z Fnext) →
  (∀ z, z ∈ p → fld h' z Fprev = fld h z Fprev) →
  links h (y :: p) → links h' (y :: p).
Proof.
  intros Hn Hp. simpl. intros [Hy Hl]. split.
  - destruct p as [|z p]; [done|]. destruct Hy as [H1 H2]. split.
    + rewrite Hn by elems. assumption.
    + rewrite Hp by elems. assumption.
  - revert Hl. apply links_frame; intros; [apply Hn|apply Hp]; elems.
Qed.

(** ** Unlinking and linking a node *)

Lemma removeNode_ok s x a y :
  link (heap s) x a → link (heap s) a y →
  removeNode (VNode a) s = Ok (tt, mkState (unlinked (heap s) x y) (this s)).
Proof.
  intros [Hxn Hap] [Han Hyp]. unfold removeNode.
  erewrite bind_Ok by (apply get_prop_node; eassumption).
  erewrite bind_Ok by (apply get_prop_node; eassumption).
  erewrite bind_Ok by (apply set_prop_node; eapply fld_alloc; eassumption).
  rewrite set_prop_node; [reflexivity|]. simpl.
  apply alloc_upd. eapply fld_alloc; eassumption.
Qed.

Lemma fld_unlinked_data h x y b f :
  f ≠ Fnext → f ≠ Fprev → fld (unlinked h x y) b f = fld h b f.
Proof.
  intros H1 H2. unfold unlinked. rewrite !fld_upd_other by auto. reflexivity.
Qed.

Lemma fld_unlinked_other h x y b f :
  b ≠ x → b ≠ y → fld (unlinked h x y) b f = fld h b f.
Proof.
  intros H1 H2. unfold unlinked. rewrite !fld_upd_other by auto. reflexivity.
Qed.

Lemma length_unlinked h x y : length (unlinked h x y) = length h.
Proof. unfold unlinked. by rewrite !length_upd. Qed.

Lemma links_unlinked h A x a y B :
  NoDup (A ++ x :: a :: y :: B) →
  links h (A ++ x :: a :: y :: B) →
  links (unlinked h x y) (A ++ x :: y :: B).
Proof.
  intros Hnd Hl.
  apply links_app in Hl as [HA Hl].
  apply links_cons2 in Hl as [Hxa Hl]. apply links_cons2 in Hl as [Hay HB].
  apply NoDup_app in Hnd as (HndA & Hdisj & Hnd).
  apply NoDup_cons in Hnd as [Hx Hnd]. apply NoDup_cons in Hnd as [Ha Hnd].
  apply NoDup_cons in Hnd as [Hy Hnd].
  assert (x ≠ y) as Hxy by (intros ->; apply Hx; elems).
  assert (is_Some (h !! x)) as Hax by (destruct Hxa; eapply fld_alloc; eassumption).
  assert (is_Some (h !! y)) as Hay' by (destruct Hay; eapply fld_alloc; eassumption).
  apply links_app. split; [|apply links_cons2; split].
  - revert HA. apply links_frame_init; intros z Hz; unfold unlinked.
    + assert (z ≠ x) by (intros ->; apply (Hdisj x Hz); elems).
      rewrite !fld_upd_other by upd_side. reflexivity.
    + assert (z ≠ y).
      { intros ->. apply elem_of_app in Hz as [Hz|Hz].
        - apply (Hdisj y Hz). elems.
        - apply list_elem_of_singleton in Hz. congruence. }
      rewrite !fld_upd_other by upd_side. reflexivity.
  - split; unfold unlinked.
    + rewrite fld_upd_other by upd_side. by apply fld_upd_same.
    + apply fld_upd_same. by apply alloc_upd.
  - revert HB. apply links_frame_tail; intros z Hz; unfold unlinked.
    + assert (z ≠ x) by (intros ->; apply Hx; elems).
      rewrite !fld_upd_other by upd_side. reflexivity.
    + assert (z ≠ y) by (intros ->; by apply Hy).
      rewrite !fld_upd_other by upd_side. reflexivity.
Qed.

Lemma addToFront_ok s p a y :
  head (this s) = VNode p →
  fld (heap s) p Fnext = Some (VNode y) →
  is_Some (heap s !! a) → is_Some (heap s !! y) → a ≠ p →
  addToFront (VNode a) s = Ok (tt, mkState (linked (heap s) p a y) (this s)).
Proof.
  intros Hhd Hpn Ha Hy Hap. unfold addToFront.
  erewrite bind_Ok by reflexivity. rewrite Hhd.
  erewrite bind_Ok by (apply get_prop_node; eassumption).
  erewrite bind_Ok by (by apply set_prop_node).
  erewrite bind_Ok by (apply set_prop_node; simpl; by apply alloc_upd).
  erewrite bind_Ok.
  2:{ apply get_prop_node. simpl. rewrite !fld_upd_other by auto. eassumption. }
  erewrite bind_Ok by (apply set_prop_node; simpl; by rewrite !alloc_upd).
  rewrite set_prop_node; [reflexivity|]. simpl.
  rewrite !alloc_upd. eapply fld_alloc; eassumption.
Qed.

Lemma fld_linked_data h p a y b f :
  f ≠ Fnext → f ≠ Fprev → fld (linked h p a y) b f = fld h b f.
Proof.
  intros H1 H2. unfold linked. rewrite !fld_upd_other by auto. reflexivity.
Qed.

Lemma length_linked h p a y : length (linked h p a y) = length h.
Proof. unfold linked. by rewrite !length_upd. Qed.

Lemma links_linked h p a y B :
  NoDup (p :: y :: B) → a ∉ p :: y :: B →
  is_Some (h !! a) →
  links h (p :: y :: B) →
  links (linked h p a y) (p :: a :: y :: B).
Proof.
  intros Hnd Ha Hal Hl.
  apply links_cons2 in Hl as [Hpy HB].
  apply NoDup_cons in Hnd as [Hp Hnd]. apply NoDup_cons in Hnd as [Hy Hnd].
  assert (a ≠ p ∧ a ≠ y ∧ a ∉ B) as (Hap & Hay & HaB).
  { revert Ha. elems. }
  assert (p ≠ y) as Hpy' by (intros ->; apply Hp; elems).
  assert (is_Some (h !! p)) as Halp by (destruct Hpy; eapply fld_alloc; eassumption).
  assert (is_Some (h !! y)) as Haly by (destruct Hpy; eapply fld_alloc; eassumption).
  apply links_cons2; split; [|apply links_cons2; split].
  - split; unfold linked.
    + apply fld_upd_same. by rewrite !alloc_upd.
    + rewrite !(fld_upd_other _ _ _ _ a Fprev) by upd_side.
      rewrite fld_upd_same; [done|]. by rewrite alloc_upd.
  - split; unfold linked.
    + rewrite !(fld_upd_other _ _ _ _ a Fnext) by upd_side.
      by rewrite fld_upd_same.
    + rewrite (fld_upd_other _ p) by upd_side.
      apply fld_upd_same. by rewrite !alloc_upd.
  - revert HB. apply links_frame_tail; intros z Hz; unfold linked.
    + assert (z ≠ a) by (intros ->; revert Ha; elems).
      assert (z ≠ p) by (intros ->; apply Hp; elems).
      rewrite !fld_upd_other by upd_side. reflexivity.
    + assert (z ≠ a) by (intros ->; revert Ha; elems).
      assert (z ≠ y) by (intros ->; by apply Hy).
      rewrite !fld_upd_other by upd_side. reflexivity.
Qed.

(** ** The list between the sentinels *)

Lemma same_data_refl h : same_data h h.
Proof. by split. Qed.

Lemma same_data_trans h1 h2 h3 :
  same_data h1 h2 → same_data h2 h3 → same_data h1 h3.
Proof.
  intros [L1 D1] [L2 D2]. split; [congruence|].
  intros b f Hn Hp. rewrite D2, D1 by assumption. reflexivity.
Qed.

Lemma same_data_alloc h h' a : same_data h h' → is_Some (h' !! a) ↔ is_Some (h !! a).
Proof. intros [HL _]. rewrite !lookup_lt_is_Some, HL. reflexivity. Qed.

Lemma same_data_unlinked h x y : same_data h (unlinked h x y).
Proof.
  split; [apply length_unlinked|]. intros. by apply fld_unlinked_data.
Qed.

Lemma same_data_linked h p a y : same_data h (linked h p a y).
Proof.
  split; [apply length_linked|]. intros. by apply fld_linked_data.
Qed.

Lemma snoc_form {A} (z : A) (l : list A) : ∃ l' (u : A), z :: l = l' ++ [u].
Proof.
  revert z. induction l as [|w l IH]; intros z.
  - by exists [], z.
  - destruct (IH w) as (l' & u & ->). by exists (z :: l'), u.
Qed.

Lemma cons_form {A} (l : list A) (z : A) : ∃ (u : A) l', l ++ [z] = u :: l'.
Proof. destruct l; simpl; eauto. Qed.

Lemma NoDup_mid {A} (l1 l2 : list A) (u : A) :
  NoDup (l1 ++ u :: l2) → NoDup (l1 ++ l2) ∧ u ∉ l1 ++ l2.
Proof.
  rewrite !NoDup_app, NoDup_cons. intros (H1 & Hd & Hu & H2).
  split; [split; [assumption | split; [|assumption]]|].
  - intros z Hz Hz'. apply (Hd z Hz). by right.
  - intros [Hz|Hz]%elem_of_app; [|contradiction].
    apply (Hd u Hz). by left.
Qed.

Lemma path_mid l1 a l2 : path (l1 ++ a :: l2) = (0 :: l1) ++ a :: (l2 ++ [1]).
Proof. unfold path. by rewrite <- app_assoc, <- !app_comm_cons. Qed.

Lemma path_app l1 l2 : path (l1 ++ l2) = (0 :: l1) ++ (l2 ++ [1]).
Proof. unfold path. by rewrite <- app_assoc, <- !app_comm_cons. Qed.

Lemma NoDup_path_mid l1 a l2 :
  NoDup (path (l1 ++ a :: l2)) → NoDup (path (l1 ++ l2)) ∧ a ∉ path (l1 ++ l2).
Proof. rewrite path_mid, path_app. apply NoDup_mid. Qed.

Lemma NoDup_path_front l1 a l2 :
  NoDup (path (l1 ++ a :: l2)) → NoDup (path (a :: l1 ++ l2)).
Proof.
  unfold path. intros H.
  eapply NoDup_Permutation_proper; [|exact H].
  constructor. apply Permutation_app_tail. apply Permutation_middle.
Qed.

Lemma removeNode_path s l1 a l2 :
  NoDup (path (l1 ++ a :: l2)) →
  links (heap s) (path (l1 ++ a :: l2)) →
  ∃ h', removeNode (VNode a) s = Ok (tt, mkState h' (this s)) ∧
        links h' (path (l1 ++ l2)) ∧ same_data (heap s) h'.
Proof.
  unfold path. intros Hnd Hl.
  destruct (snoc_form 0 l1) as (A & x & HA).
  destruct (cons_form l2 1) as (y & B & HB).
  assert (0 :: (l1 ++ a :: l2) ++ [1] = A ++ x :: a :: y :: B) as Heq.
  { rewrite <- app_assoc, <- app_comm_cons. rewrite HB.
    change (0 :: l1 ++ a :: y :: B) with ((0 :: l1) ++ a :: y :: B).
    rewrite HA, <- app_assoc. reflexivity. }
  assert (0 :: (l1 ++ l2) ++ [1] = A ++ x :: y :: B) as Heq'.
  { rewrite <- app_assoc, HB.
    change (0 :: l1 ++ y :: B) with ((0 :: l1) ++ y :: B).
    rewrite HA, <- app_assoc. reflexivity. }
  rewrite Heq in Hnd, Hl. rewrite Heq'.
  pose proof Hl as Hl0.
  apply links_app in Hl0 as [_ Hl0].
  apply links_cons2 in Hl0 as [Hxa Hl0]. apply links_cons2 in Hl0 as [Hay _].
  exists (unlinked (heap s) x y). split; [|split].
  - by apply removeNode_ok.
  - by apply links_unlinked with a.
  - apply same_data_unlinked.
Qed.

Lemma addToFront_path s l a :
  head (this s) = VNode 0 →
  NoDup (path l) → links (heap s) (path l) →
  a ∉ path l → is_Some (heap s !! a) →
  ∃ h', addToFront (VNode a) s = Ok (tt, mkState h' (this s)) ∧
        links h' (path (a :: l)) ∧ same_data (heap s) h'.
Proof.
  unfold path. intros Hhd Hnd Hl Ha Hal.
  destruct (cons_form l 1) as (y & B & HB). simpl. rewrite HB in *.
  pose proof Hl as Hl0. apply links_cons2 in Hl0 as [[Hpn Hyp] _].
  exists (linked (heap s) 0 a y). split; [|split].
  - apply addToFront_ok; try assumption.
    + eapply fld_alloc; eassumption.
    + intros ->. apply Ha. elems.
  - by apply links_linked.
  - apply same_data_linked.
Qed.

Lemma moveToFront_path s l1 a l2 :
  head (this s) = VNode 0 →
  NoDup (path (l1 ++ a :: l2)) →
  links (heap s) (path (l1 ++ a :: l2)) →
  ∃ h', moveToFront (VNode a) s = Ok (tt, mkState h' (this s)) ∧
        links h' (path (a :: l1 ++ l2)) ∧ same_data (heap s) h'.
Proof.
  intros Hhd Hnd Hl.
  destruct (removeNode_path s l1 a l2 Hnd Hl) as (h1 & Hrm & Hl1 & Hd1).
  destruct (NoDup_path_mid _ _ _ Hnd) as [Hnd1 Ha].
  destruct (addToFront_path (mkState h1 (this s)) (l1 ++ l2) a) as (h2 & Hadd & Hl2 & Hd2);
    try assumption.
  { simpl. apply (same_data_alloc _ _ a Hd1).
    eapply links_alloc; [exact Hl| |].
    - unfold path. simpl. rewrite !length_app. simpl. lia.
    - unfold path. elems. }
  exists h2. split; [|split].
  - unfold moveToFront. erewrite bind_Ok by eassumption. exact Hadd.
  - exact Hl2.
  - eapply same_data_trans; eassumption.
Qed.

End Store.

(** * The representation invariant *)

Section Invariant.

Implicit Types (s : state) (L : list entry) (e : entry) (k : string) (v : val).

Lemma addrs_app L1 L2 : addrs (L1 ++ L2) = addrs L1 ++ addrs L2.
Proof. apply fmap_app. Qed.

Lemma addrs_cons e L : addrs (e :: L) = e_addr e :: addrs L.
Proof. reflexivity. Qed.

Lemma addrs_elem e L : e ∈ L → e_addr e ∈ addrs L.
Proof. apply list_elem_of_fmap_2. Qed.

Lemma NoDup_fmap_eq {A B} (f : A → B) (l : list A) (u w : A) :
  NoDup (f <$> l) → u ∈ l → w ∈ l → f u = f w → u = w.
Proof.
  induction l as [|z l IH].
  { intros _ Hu. by apply elem_of_nil in Hu. }
  rewrite fmap_cons, NoDup_cons. intros [Hz Hnd] Hu Hw Heq.
  apply elem_of_cons in Hu as [->|Hu]; apply elem_of_cons in Hw as [->|Hw].
  - reflexivity.
  - exfalso. apply Hz. rewrite Heq. by apply list_elem_of_fmap_2.
  - exfalso. apply Hz. rewrite <- Heq. by apply list_elem_of_fmap_2.
  - by apply IH.
Qed.

Lemma NoDup_path_addrs l : NoDup (path l) → NoDup l ∧ (0 ∉ l) ∧ (1 ∉ l).
Proof.
  unfold path. rewrite NoDup_cons, NoDup_app.
  intros (H0 & Hnd & Hd & _). split; [assumption|]. split.
  - intros H. apply H0. elems.
  - intros H. apply (Hd 1 H). elems.
Qed.

Lemma inv_lookup s L e :
  Inv s L → e ∈ L → cache (this s) !! e_key e = Some (VNode (e_addr e)).
Proof. intros HI He. apply (inv_index _ _ HI). eauto. Qed.

Lemma inv_addr_inj s L e e' :
  Inv s L → e ∈ L → e' ∈ L → e_addr e = e_addr e' → e = e'.
Proof.
  intros HI. apply NoDup_fmap_eq.
  by destruct (NoDup_path_addrs _ (inv_nodup _ _ HI)).
Qed.

Lemma inv_key_inj s L e e' :
  Inv s L → e ∈ L → e' ∈ L → e_key e = e_key e' → e = e'.
Proof.
  intros HI He He' Hk. eapply inv_addr_inj; try eassumption.
  pose proof (inv_lookup _ _ _ HI He) as H1.
  pose proof (inv_lookup _ _ _ HI He') as H2.
  rewrite Hk in H1. congruence.
Qed.

Lemma inv_NoDup_keys s L : Inv s L → NoDup (keys L).
Proof.
  intros HI. pose proof (λ e e', inv_key_inj s L e e' HI) as Hinj.
  assert (NoDup L) as Hnd.
  { eapply NoDup_fmap_1. apply (NoDup_path_addrs _ (inv_nodup _ _ HI)). }
  clear HI. unfold keys. induction Hnd as [|e L He Hnd IH]; [constructor|].
  rewrite fmap_cons. apply NoDup_cons. split.
  - intros (e' & Hk & He')%list_elem_of_fmap.
    apply He. rewrite (Hinj e e'); [assumption| | |assumption]; elems.
  - apply IH. intros e1 e2 H1 H2. apply Hinj; elems.
Qed.

Lemma inv_miss s L k : Inv s L → k ∉ keys L → cache (this s) !! k = None.
Proof.
  intros HI Hk. destruct (cache (this s) !! k) as [x|] eqn:Hx; [|reflexivity].
  apply (inv_index _ _ HI) in Hx as (e & He & <- & _).
  exfalso. apply Hk. by apply list_elem_of_fmap_2.
Qed.

Lemma inv_sentinels s L : Inv s L → is_Some (heap s !! 0) ∧ is_Some (heap s !! 1).
Proof.
  intros HI. split; (eapply links_alloc; [apply (inv_links _ _ HI)| |]);
    unfold path; simpl; rewrite ?length_app; simpl; try lia; elems.
Qed.

Lemma inv_alloc s L a : Inv s L → a ∈ path (addrs L) → a < length (heap s).
Proof.
  intros HI Ha. apply lookup_lt_is_Some.
  eapply links_alloc; [apply (inv_links _ _ HI)| |assumption].
  unfold path. simpl. rewrite length_app. simpl. lia.
Qed.

Lemma inv_fresh s L : Inv s L → length (heap s) ∉ path (addrs L).
Proof. intros HI H. apply (inv_alloc _ _ _ HI) in H. lia. Qed.

(** The invariant only depends on the store through the links and the
    keys and payloads of the nodes. *)
Lemma Inv_relink s L h' L' :
  Inv s L → same_data (heap s) h' →
  (∀ e, e ∈ L' ↔ e ∈ L) →
  NoDup (path (addrs L')) → links h' (path (addrs L')) →
  Inv (mkState h' (this s)) L'.
Proof.
  intros HI [_ Hd] Hel Hnd Hl. split; simpl.
  - apply (inv_head _ _ HI).
  - apply (inv_tail _ _ HI).
  - assumption.
  - assumption.
  - intros e He. rewrite !Hd by discriminate. apply (inv_nodes _ _ HI). by apply Hel.
  - intros k x. rewrite (inv_index _ _ HI). by setoid_rewrite Hel.
  - intros e He. apply (inv_own _ _ HI). by apply Hel.
Qed.

Lemma cache_in_hit s L e : Inv s L → e ∈ L → cache_in (e_key e) s = Ok (true, s).
Proof.
  intros HI He. unfold cache_in. rewrite (inv_lookup _ _ _ HI He).
  rewrite bool_decide_true by eauto. reflexivity.
Qed.

Lemma cache_get_hit s L e :
  Inv s L → e ∈ L → cache_get (e_key e) s = Ok (VNode (e_addr e), s).
Proof.
  intros HI He. unfold cache_get. by rewrite (inv_lookup _ _ _ HI He).
Qed.

Lemma cache_in_miss s L k :
  Inv s L → k ∉ keys L → cache_in k s = Ok (inherited k, s).
Proof.
  intros HI Hk. unfold cache_in. rewrite (inv_miss _ _ _ HI Hk).
  rewrite bool_decide_false by (by intros [? ?]). reflexivity.
Qed.

Lemma moveToFront_Inv s L1 e L2 :
  Inv s (L1 ++ e :: L2) →
  ∃ h', moveToFront (VNode (e_addr e)) s = Ok (tt, mkState h' (this s)) ∧
        same_data (heap s) h' ∧
        Inv (mkState h' (this s)) (e :: L1 ++ L2).
Proof.
  intros HI.
  pose proof (inv_nodup _ _ HI) as Hnd. pose proof (inv_links _ _ HI) as Hl.
  rewrite addrs_app, addrs_cons in Hnd, Hl.
  destruct (moveToFront_path s _ _ _ (inv_head _ _ HI) Hnd Hl) as (h' & Hmv & Hl' & Hd).
  exists h'. split; [assumption|]. split; [assumption|].
  apply Inv_relink with (L1 ++ e :: L2); try assumption.
  - intros e'. elems.
  - rewrite addrs_cons, addrs_app.
    by apply NoDup_path_front.
  - by rewrite addrs_cons, addrs_app.
Qed.

(** ** get *)

Lemma get_hit s L1 e L2 :
  Inv s (L1 ++ e :: L2) →
  ∃ s', get (e_key e) s = Ok (e_value e, s') ∧
        this s' = this s ∧ same_data (heap s) (heap s') ∧
        Inv s' (e :: L1 ++ L2).
Proof.
  intros HI. assert (e ∈ L1 ++ e :: L2) as He by elems.
  destruct (moveToFront_Inv _ _ _ _ HI) as (h' & Hmv & Hd & HI').
  exists (mkState h' (this s)).
  split; [|split; [reflexivity | split; assumption]].
  unfold get.
  erewrite bind_Ok by (eapply cache_in_hit; eassumption). simpl.
  erewrite bind_Ok by (eapply cache_get_hit; eassumption).
  erewrite bind_Ok by eassumption.
  apply get_prop_node. simpl.
  apply (inv_nodes _ _ HI'). elems.
Qed.

Lemma get_miss s k : has k s = Ok (false, s) → get k s = Ok (VUndefined, s).
Proof.
  unfold has, get. intros H. erewrite bind_Ok by eassumption. reflexivity.
Qed.

(** ** put on a key of the cache *)

Lemma Inv_set_value s L1 e L2 v :
  Inv s (L1 ++ e :: L2) →
  Inv (mkState (upd (heap s) (e_addr e) Fvalue v) (this s))
      (L1 ++ Entry (e_addr e) (e_key e) v :: L2).
Proof.
  intros HI.
  assert (∀ e', e' ∈ L1 ++ L2 → e' ∈ L1 ++ e :: L2 ∧ e_addr e' ≠ e_addr e) as Hoth.
  { intros e' He'. split; [revert He'; elems|].
    pose proof (inv_nodup _ _ HI) as Hnd.
    rewrite addrs_app, addrs_cons in Hnd.
    apply NoDup_path_mid in Hnd as [_ Hnd]. intros Heq. apply Hnd.
    rewrite <- Heq, <- addrs_app. unfold path.
    right. apply elem_of_app. left. by apply addrs_elem. }
  split; cbn [heap this].
  - apply (inv_head _ _ HI).
  - apply (inv_tail _ _ HI).
  - pose proof (inv_nodup _ _ HI) as H. by rewrite addrs_app, addrs_cons in *.
  - pose proof (inv_links _ _ HI) as H. rewrite addrs_app, addrs_cons in *.
    revert H. apply links_frame; intros; apply fld_upd_other; upd_side.
  - intros e' [He'|[->|He']]%elem_of_mid.
    + destruct (Hoth e') as [Hin Hne]; [elems|].
      rewrite !fld_upd_other by upd_side. by apply (inv_nodes _ _ HI).
    + simpl. split.
      * rewrite fld_upd_other by upd_side. apply (inv_nodes _ _ HI). elems.
      * apply fld_upd_same. eapply fld_alloc. apply (inv_nodes _ _ HI e). elems.
    + destruct (Hoth e') as [Hin Hne]; [elems|].
      rewrite !fld_upd_other by upd_side. by apply (inv_nodes _ _ HI).
  - intros k x. rewrite (inv_index _ _ HI). split.
    + intros (e' & [He'|[->|He']]%elem_of_mid & Hk & Hx).
      * exists e'. split; [elems | done].
      * exists (Entry (e_addr e) (e_key e) v). split; [elems | done].
      * exists e'. split; [elems | done].
    + intros (e' & [He'|[->|He']]%elem_of_mid & Hk & Hx).
      * exists e'. split; [elems | done].
      * exists e. split; [elems | done].
      * exists e'. split; [elems | done].
  - intros e' [He'|[->|He']]%elem_of_mid.
    + apply (inv_own _ _ HI). elems.
    + simpl. apply (inv_own _ _ HI). elems.
    + apply (inv_own _ _ HI). elems.
Qed.

Lemma put_hit s L1 e L2 v :
  Inv s (L1 ++ e :: L2) →
  ∃ s', put (e_key e) v s = Ok (tt, s') ∧
        this s' = this s ∧
        Inv s' (Entry (e_addr e) (e_key e) v :: L1 ++ L2).
Proof.
  intros HI. assert (e ∈ L1 ++ e :: L2) as He by elems.
  pose proof (Inv_set_value _ _ _ _ v HI) as HI1.
  destruct (moveToFront_Inv _ _ _ _ HI1) as (h' & Hmv & Hd & HI').
  exists (mkState h' (this s)).
  split; [|split; [reflexivity | assumption]].
  unfold put.
  erewrite bind_Ok by (eapply cache_in_hit; eassumption). simpl.
  erewrite bind_Ok by (eapply cache_get_hit; eassumption).
  erewrite bind_Ok.
  2:{ apply set_prop_node. eapply fld_alloc. apply (inv_nodes _ _ HI e He). }
  exact Hmv.
Qed.

(** ** put on a new key *)

Lemma put_miss s k v :
  has k s = Ok (false, s) →
  put k v s = bind evict_block (λ _, insert_block k v) s.
Proof.
  unfold has, put. intros H. erewrite bind_Ok by eassumption. reflexivity.
Qed.

Lemma NoDup_path_cons l a : NoDup (path l) → a ∉ path l → NoDup (path (a :: l)).
Proof.
  unfold path. rewrite <- app_comm_cons, !NoDup_cons.
  intros [H0 Hnd] Ha. split; [|split].
  - revert H0 Ha. elems.
  - revert Ha. elems.
  - assumption.
Qed.

Lemma insert_Inv s L k v :
  Inv s L → k ∉ keys L → inherited k = false →
  ∃ s', insert_block k v s = Ok (tt, s') ∧
        Inv s' (Entry (length (heap s)) k v :: L) ∧
        capacity (this s') = capacity (this s) ∧
        size (this s') = (size (this s) + 1)%Z ∧
        cache (this s') = <[k := VNode (length (heap s))]> (cache (this s)).
Proof.
  intros HI Hk Hown. set (a := length (heap s)).
  set (n := mkNode (VStr k) v VNull VNull).
  set (s1 := mkState (heap s ++ [n]) (this s)).
  assert (∀ z f, z ∈ path (addrs L) → fld (heap s1) z f = fld (heap s) z f) as Hold.
  { intros z f Hz. apply fld_app_l. by eapply inv_alloc. }
  assert (links (heap s1) (path (addrs L))) as Hl1.
  { eapply links_frame; [| |apply (inv_links _ _ HI)]; intros; by apply Hold. }
  destruct (addToFront_path s1 (addrs L) a) as (h2 & Hadd & Hl2 & Hd2).
  - apply (inv_head _ _ HI).
  - apply (inv_nodup _ _ HI).
  - assumption.
  - by apply inv_fresh.
  - apply lookup_lt_is_Some. simpl. rewrite length_app. simpl. unfold a. lia.
  - eexists. split; [|split; [|split; [|split]]].
    + unfold insert_block.
      erewrite bind_Ok by reflexivity.
      erewrite bind_Ok by exact Hadd.
      reflexivity.
    + destruct Hd2 as [_ Hd2]. unfold s1 in *.
      split; cbn [heap this capacity cache size head tail] in *.
      * apply (inv_head _ _ HI).
      * apply (inv_tail _ _ HI).
      * rewrite addrs_cons. apply NoDup_path_cons; [apply (inv_nodup _ _ HI)|].
        by apply inv_fresh.
      * by rewrite addrs_cons.
      * intros e [->|He]%elem_of_cons; cbn [e_addr e_key e_value].
        -- rewrite !Hd2 by discriminate. unfold a.
           rewrite !fld_app_new. done.
        -- rewrite !Hd2 by discriminate.
           rewrite !Hold by (right; apply elem_of_app; left; by apply addrs_elem).
           by apply (inv_nodes _ _ HI).
      * intros k' x. destruct (decide (k = k')) as [<-|Hne].
        -- rewrite lookup_insert_eq. split.
           ++ intros [= <-]. eexists. split; [by left|]. done.
           ++ intros (e & [->|He]%elem_of_cons & Hek & ->); [done|].
              exfalso. apply Hk. rewrite <- Hek. by apply list_elem_of_fmap_2.
        -- rewrite lookup_insert_ne by assumption. rewrite (inv_index _ _ HI). split.
           ++ intros (e & He & Hek & ->). exists e. split; [by right | done].
           ++ intros (e & [->|He]%elem_of_cons & Hek & ->); [done|].
              exists e. done.
      * intros e [->|He]%elem_of_cons; [done|]. by apply (inv_own _ _ HI).
    + reflexivity.
    + reflexivity.
    + reflexivity.
Qed.

Lemma evict_none s :
  size (this s) ≠ capacity (this s) → evict_block s = Ok (tt, s).
Proof.
  intros H. unfold evict_block. erewrite bind_Ok by reflexivity.
  by rewrite bool_decide_false.
Qed.

Lemma Inv_remove s L1 e L2 h' :
  Inv s (L1 ++ e :: L2) → same_data (heap s) h' →
  links h' (path (addrs (L1 ++ L2))) →
  Inv (dropped (e_key e) h' (this s)) (L1 ++ L2).
Proof.
  intros HI [_ Hd] Hl.
  pose proof (inv_nodup _ _ HI) as Hnd. rewrite addrs_app, addrs_cons in Hnd.
  apply NoDup_path_mid in Hnd as [Hnd Hne]. rewrite <- addrs_app in Hnd, Hne.
  assert (∀ e', e' ∈ L1 ++ L2 → e' ∈ L1 ++ e :: L2 ∧ e_key e' ≠ e_key e) as Hoth.
  { intros e' He'. assert (e' ∈ L1 ++ e :: L2) as Hin by (revert He'; elems).
    split; [assumption|]. intros Heq.
    assert (e' = e) as -> by (eapply inv_key_inj; try eassumption; elems).
    apply Hne. right. apply elem_of_app. left. by apply addrs_elem. }
  split; cbn [dropped heap this capacity cache size head tail].
  - apply (inv_head _ _ HI).
  - apply (inv_tail _ _ HI).
  - assumption.
  - assumption.
  - intros e' He'. rewrite !Hd by discriminate.
    apply (inv_nodes _ _ HI). by apply Hoth.
  - intros k x. rewrite lookup_delete_Some, (inv_index _ _ HI). split.
    + intros (Hk & e' & [He'|[->|He']]%elem_of_mid & Hek & ->).
      * exists e'. split; [elems | done].
      * done.
      * exists e'. split; [elems | done].
    + intros (e' & He' & Hek & ->). destruct (Hoth e' He') as [Hin Hk].
      split; [congruence|]. exists e'. done.
  - intros e' He'. apply (inv_own _ _ HI). by apply Hoth.
Qed.

Lemma links_last h l a : links h (path (l ++ [a])) → link h a 1.
Proof.
  unfold path. rewrite <- app_assoc. intros H.
  change (links h ((0 :: l) ++ a :: [1])) in H.
  apply links_app in H as [_ H]. by apply links_cons2 in H as [H _].
Qed.

Lemma evict_last s L e :
  Inv s (L ++ [e]) → size (this s) = capacity (this s) →
  ∃ h', evict_block s = Ok (tt, dropped (e_key e) h' (this s)) ∧
        same_data (heap s) h' ∧
        Inv (dropped (e_key e) h' (this s)) L.
Proof.
  intros HI Hsz. assert (e ∈ L ++ [e]) as He by elems.
  pose proof (inv_nodup _ _ HI) as Hnd. pose proof (inv_links _ _ HI) as Hl.
  rewrite addrs_app in Hnd, Hl. cbn [addrs fmap list_fmap] in Hnd, Hl.
  destruct (removeNode_path s _ _ _ Hnd Hl) as (h' & Hrm & Hl' & Hd).
  rewrite app_nil_r in Hl'.
  exists h'. split; [|split; [assumption|]].
  - unfold evict_block. erewrite bind_Ok by reflexivity.
    rewrite bool_decide_true by assumption.
    erewrite bind_Ok; cycle 1.
    { unfold removeLRU. erewrite bind_Ok by reflexivity. cbv beta.
      rewrite (inv_tail _ _ HI), (inv_head _ _ HI).
      destruct (links_last _ _ _ Hl) as [_ Hprev].
      erewrite bind_Ok by (apply get_prop_node; eassumption).
      assert (strict_eq (VNode (e_addr e)) (VNode 0) = false) as ->.
      { apply bool_decide_false. intros [= H0].
        apply NoDup_path_addrs in Hnd as (_ & Hnd & _). apply Hnd.
        rewrite H0. elems. }
      erewrite bind_Ok by eassumption.
      apply get_prop_node. cbn [heap].
      destruct Hd as [_ Hd]. rewrite Hd by discriminate.
      by apply (inv_nodes _ _ HI). }
    reflexivity.
  - rewrite <- (app_nil_r L). apply Inv_remove; [assumption..|].
    by rewrite app_nil_r.
Qed.

Lemma evict_empty s :
  Inv s [] → size (this s) = capacity (this s) →
  evict_block s = Ok (tt, dropped "null" (heap s) (this s)) ∧
  Inv (dropped "null" (heap s) (this s)) [].
Proof.
  intros HI Hsz. split.
  - unfold evict_block. erewrite bind_Ok by reflexivity.
    rewrite bool_decide_true by assumption.
    destruct (inv_links _ _ HI) as [[_ Hprev] _].
    erewrite bind_Ok; cycle 1.
    { unfold removeLRU. erewrite bind_Ok by reflexivity. cbv beta.
      rewrite (inv_tail _ _ HI), (inv_head _ _ HI).
      erewrite bind_Ok by (apply get_prop_node; eassumption).
      reflexivity. }
    reflexivity.
  - split; cbn [dropped heap this capacity cache size head tail].
    + apply (inv_head _ _ HI).
    + apply (inv_tail _ _ HI).
    + apply (inv_nodup _ _ HI).
    + apply (inv_links _ _ HI).
    + intros e He. by apply elem_of_nil in He.
    + intros k x. rewrite lookup_delete_Some, (inv_index _ _ HI). split.
      * intros [_ H]. exact H.
      * intros (e & He & _). by apply elem_of_nil in He.
    + intros e He. by apply elem_of_nil in He.
Qed.

(** ** delete *)

Lemma delete_hit s L1 e L2 :
  Inv s (L1 ++ e :: L2) →
  ∃ h', delete (e_key e) s = Ok (true, dropped (e_key e) h' (this s)) ∧
        same_data (heap s) h' ∧
        Inv (dropped (e_key e) h' (this s)) (L1 ++ L2).
Proof.
  intros HI. assert (e ∈ L1 ++ e :: L2) as He by elems.
  pose proof (inv_nodup _ _ HI) as Hnd. pose proof (inv_links _ _ HI) as Hl.
  rewrite addrs_app, addrs_cons in Hnd, Hl.
  destruct (removeNode_path s _ _ _ Hnd Hl) as (h' & Hrm & Hl' & Hd).
  exists h'. split; [|split; [assumption|]].
  - unfold delete.
    erewrite bind_Ok by (eapply cache_in_hit; eassumption). simpl.
    erewrite bind_Ok by (eapply cache_get_hit; eassumption).
    erewrite bind_Ok by eassumption.
    reflexivity.
  - apply Inv_remove; [assumption..|]. by rewrite addrs_app.
Qed.

Lemma delete_miss s k : has k s = Ok (false, s) → delete k s = Ok (false, s).
Proof.
  unfold has, delete. intros H. erewrite bind_Ok by eassumption. reflexivity.
Qed.

(** ** clear *)

Lemma clear_Inv s L : Inv s L → clear s = Ok (tt, cleared s) ∧ Inv (cleared s) [].
Proof.
  intros HI. destruct (inv_sentinels _ _ HI) as [H0 H1]. split.
  - unfold clear.
    do 3 (erewrite bind_Ok by reflexivity).
    cbn [heap this capacity cache size head tail].
    rewrite (inv_head _ _ HI), (inv_tail _ _ HI).
    erewrite bind_Ok by (by apply set_prop_node).
    erewrite bind_Ok by reflexivity.
    cbn [heap this capacity cache size head tail].
    rewrite set_prop_node by (by apply alloc_upd).
    unfold cleared. by rewrite (inv_head _ _ HI), (inv_tail _ _ HI).
  - split; cbn [cleared heap this capacity cache size head tail].
    + apply (inv_head _ _ HI).
    + apply (inv_tail _ _ HI).
    + unfold path. simpl. apply NoDup_cons. split; [elems|apply NoDup_singleton].
    + unfold path, unlinked. simpl. split; [|done]. split.
      * rewrite fld_upd_other by upd_side. by apply fld_upd_same.
      * apply fld_upd_same. by apply alloc_upd.
    + intros e He. by apply elem_of_nil in He.
    + intros k x. rewrite lookup_empty. split; [done|].
      intros (e & He & _). by apply elem_of_nil in He.
    + intros e He. by apply elem_of_nil in He.
Qed.

(** ** getContents *)

Lemma getContents_loop_unfold fuel current acc :
  getContents_loop fuel current acc =
  (let* c := get_this in
   if negb (strict_eq current (tail c)) then
     match fuel with
     | O => λ _, Diverges
     | S fuel' =>
         let* x := get_prop current Fkey in
         let* y := get_prop current Fvalue in
         let* n := get_prop current Fnext in
         getContents_loop fuel' n (acc ++ [(x, y)])
     end
   else ret acc).
Proof. destruct fuel; reflexivity. Qed.

(** More iterations allowed change nothing once the walk has returned or
    thrown. *)
Lemma getContents_loop_fuel fuel n current acc s r :
  getContents_loop fuel current acc s = r → r ≠ Diverges →
  getContents_loop (fuel + n) current acc s = r.
Proof.
  revert current acc s. induction fuel as [|fuel IH]; intros current acc s.
  - rewrite (getContents_loop_unfold 0), (getContents_loop_unfold (0 + n)).
    unfold bind, get_this. destruct (negb (strict_eq current (tail (this s)))).
    + intros <- H. by destruct H.
    + done.
  - cbn [Nat.add getContents_loop]. unfold bind, get_this.
    destruct (negb (strict_eq current (tail (this s)))); [|done].
    destruct (get_prop current Fkey s) as [[x s1]| |]; [|done..].
    destruct (get_prop current Fvalue s1) as [[y s2]| |]; [|done..].
    destruct (get_prop current Fnext s2) as [[z s3]| |]; [|done..].
    apply IH.
Qed.

Lemma links_hd h a l d :
  links h (a :: l) → l ≠ [] → fld h a Fnext = Some (VNode (hd d l)).
Proof. destruct l as [|b l]; [done|]. by intros [[H _] _] _. Qed.

Lemma links_tl h a l : links h (a :: l) → links h l.
Proof. by intros [_ H]. Qed.

Lemma getContents_loop_spec s L acc fuel :
  tail (this s) = VNode 1 →
  links (heap s) (addrs L ++ [1]) → 1 ∉ addrs L →
  (∀ e, e ∈ L →
     fld (heap s) (e_addr e) Fkey = Some (VStr (e_key e)) ∧
     fld (heap s) (e_addr e) Fvalue = Some (e_value e)) →
  length L ≤ fuel →
  getContents_loop fuel (VNode (hd 1 (addrs L ++ [1]))) acc s
  = Ok (acc ++ contents L, s).
Proof.
  intros Htl. revert acc fuel.
  induction L as [|e L IH]; intros acc fuel Hl H1 Hn Hfuel;
    rewrite getContents_loop_unfold; erewrite bind_Ok by reflexivity;
    rewrite Htl.
  - cbn [addrs fmap list_fmap app hd]. unfold strict_eq.
    rewrite bool_decide_true by reflexivity.
    cbn [negb contents fmap list_fmap]. by rewrite app_nil_r.
  - rewrite addrs_cons in *. rewrite <- app_comm_cons in *.
    cbn [hd]. unfold strict_eq.
    rewrite bool_decide_false.
    2:{ intros [= H]. apply H1. rewrite H. by left. }
    cbn [negb]. destruct fuel as [|fuel]; [simpl in Hfuel; lia|].
    destruct (Hn e) as [Hk Hv]; [by left|].
    erewrite bind_Ok by (apply get_prop_node; eassumption).
    erewrite bind_Ok by (apply get_prop_node; eassumption).
    erewrite bind_Ok.
    2:{ apply get_prop_node. apply (links_hd _ _ _ 1 Hl). by destruct (addrs L). }
    rewrite IH.
    + by rewrite <- app_assoc.
    + by apply links_tl in Hl.
    + intros H. apply H1. by right.
    + intros e' He'. apply Hn. by right.
    + simpl in Hfuel. lia.
Qed.

Lemma NoDup_bounded_length (l : list nat) n :
  NoDup l → (∀ x, x ∈ l → x < n) → length l ≤ n.
Proof.
  intros Hnd Hb. rewrite <- (length_seq n 0).
  apply submseteq_length, NoDup_submseteq; [assumption|].
  intros x Hx. apply elem_of_seq. specialize (Hb x Hx). lia.
Qed.

Lemma getContents_Inv s L : Inv s L → getContents s = Ok (contents L, s).
Proof.
  intros HI. unfold getContents.
  erewrite bind_Ok by reflexivity. rewrite (inv_head _ _ HI).
  pose proof (inv_links _ _ HI) as Hl. unfold path in Hl.
  erewrite bind_Ok.
  2:{ apply get_prop_node. apply (links_hd _ _ _ 1 Hl). by destruct (addrs L). }
  apply (getContents_loop_spec s L []).
  - apply (inv_tail _ _ HI).
  - by apply links_tl in Hl.
  - apply (NoDup_path_addrs _ (inv_nodup _ _ HI)).
  - apply (inv_nodes _ _ HI).
  - transitivity (length (heap s)); [|lia].
    rewrite <- (length_fmap e_addr). apply NoDup_bounded_length.
    + apply (NoDup_path_addrs _ (inv_nodup _ _ HI)).
    + intros x Hx. apply (inv_alloc _ _ _ HI). unfold path.
      right. apply elem_of_app. by left.
Qed.

(** ** has, and the keys inherited from the prototype *)

Lemma has_Inv s L k :
  Inv s L → has k s = Ok (bool_decide (k ∈ keys L) || inherited k, s).
Proof.
  intros HI. unfold has, cache_in. do 3 f_equal.
  apply bool_decide_ext. split.
  - intros [x Hx]. apply (inv_index _ _ HI) in Hx as (e & He & <- & _).
    by apply list_elem_of_fmap_2.
  - intros (e & -> & He)%list_elem_of_fmap. rewrite (inv_lookup _ _ _ HI He). eauto.
Qed.

Lemma inherited_not_key s L k : Inv s L → inherited k = true → k ∉ keys L.
Proof.
  intros HI Hk (e & -> & He)%list_elem_of_fmap.
  rewrite (inv_own _ _ HI e He) in Hk. discriminate.
Qed.

(** On a key that is not in the index but is inherited, [key in this.cache]
    holds and [this.cache[key]] is no node: unlinking it throws. *)
Lemma removeNode_builtin k s : removeNode (VBuiltin k) s = Throw TypeError.
Proof. reflexivity. Qed.

Lemma cache_in_inherited s k : inherited k = true → cache_in k s = Ok (true, s).
Proof. intros Hk. unfold cache_in. by rewrite Hk, orb_true_r. Qed.

Lemma cache_get_inherited s k :
  cache (this s) !! k = None → inherited k = true →
  cache_get k s = Ok (VBuiltin k, s).
Proof. intros Hc Hk. unfold cache_get. by rewrite Hc, Hk. Qed.

Lemma get_inherited s k :
  cache (this s) !! k = None → inherited k = true → get k s = Throw TypeError.
Proof.
  intros Hc Hk. unfold get.
  erewrite bind_Ok by (by apply cache_in_inherited).
  cbn [negb]. erewrite bind_Ok by (by apply cache_get_inherited).
  reflexivity.
Qed.

Lemma put_inherited s k v :
  cache (this s) !! k = None → inherited k = true → put k v s = Throw TypeError.
Proof.
  intros Hc Hk. unfold put.
  erewrite bind_Ok by (by apply cache_in_inherited).
  cbv beta iota. erewrite bind_Ok by (by apply cache_get_inherited).
  reflexivity.
Qed.

Lemma delete_inherited s k :
  cache (this s) !! k = None → inherited k = true → delete k s = Throw TypeError.
Proof.
  intros Hc Hk. unfold delete.
  erewrite bind_Ok by (by apply cache_in_inherited).
  cbn [negb]. erewrite bind_Ok by (by apply cache_get_inherited).
  reflexivity.
Qed.

End Invariant.

(** * The engine against the specification *)

Section Abstraction.

Implicit Types (L : list entry) (e : entry) (k : string) (v : val).

Lemma js_entries_abs L : js_entries (abs L) = contents L.
Proof.
  unfold js_entries, abs, contents. rewrite <- list_fmap_compose. reflexivity.
Qed.

Lemma length_abs L : length (abs L) = length L.
Proof. apply length_fmap. Qed.

Lemma abs_app L1 L2 : abs (L1 ++ L2) = abs L1 ++ abs L2.
Proof. apply fmap_app. Qed.

Lemma lookup_abs_none k L : k ∉ keys L → Spec.lookup k (abs L) = None.
Proof.
  induction L as [|e L IH]; [done|]. unfold keys. rewrite fmap_cons.
  intros [Hne Hk]%not_elem_of_cons. simpl.
  rewrite decide_False by congruence. by apply IH.
Qed.

Lemma lookup_abs_mid k L1 e L2 :
  k ∉ keys L1 → e_key e = k → Spec.lookup k (abs (L1 ++ e :: L2)) = Some (e_value e).
Proof.
  intros Hk <-. induction L1 as [|e' L1 IH]; simpl.
  - by rewrite decide_True.
  - unfold keys in Hk. rewrite fmap_cons in Hk.
    apply not_elem_of_cons in Hk as [Hne Hk].
    rewrite decide_False by congruence. by apply IH.
Qed.

Lemma remove_abs_none k L : k ∉ keys L → Spec.remove k (abs L) = abs L.
Proof.
  induction L as [|e L IH]; [done|]. unfold keys. rewrite fmap_cons.
  intros [Hne Hk]%not_elem_of_cons. unfold Spec.remove, abs.
  rewrite fmap_cons, filter_cons_True by (simpl; congruence).
  f_equal. by apply IH.
Qed.

Lemma remove_abs_mid k L1 e L2 :
  k ∉ keys L1 → k ∉ keys L2 → e_key e = k →
  Spec.remove k (abs (L1 ++ e :: L2)) = abs (L1 ++ L2).
Proof.
  intros H1 H2 Hk. rewrite !abs_app. unfold Spec.remove.
  rewrite filter_app. change (abs (e :: L2)) with ((e_key e, e_value e) :: abs L2).
  rewrite filter_cons_False by (simpl; intros H; by apply H).
  f_equal; by apply remove_abs_none.
Qed.

Lemma removelast_abs L e : removelast (abs (L ++ [e])) = abs L.
Proof. rewrite abs_app. simpl. apply removelast_last. Qed.

Lemma keys_split L k :
  NoDup (keys L) → k ∈ keys L →
  ∃ L1 e L2, L = L1 ++ e :: L2 ∧ e_key e = k ∧ (k ∉ keys L1) ∧ (k ∉ keys L2).
Proof.
  intros Hnd (e & -> & He)%list_elem_of_fmap.
  apply list_elem_of_split in He as (L1 & L2 & ->).
  exists L1, e, L2. split; [reflexivity|]. split; [reflexivity|].
  unfold keys in *. rewrite fmap_app, fmap_cons in Hnd.
  apply NoDup_app in Hnd as (_ & Hd & Hnd). apply NoDup_cons in Hnd as [H2 _].
  split; [|assumption]. intros H1. apply (Hd _ H1). by left.
Qed.

Lemma lookup_abs_is_Some k L : is_Some (Spec.lookup k (abs L)) ↔ k ∈ keys L.
Proof.
  induction L as [|e L IH].
  - simpl. split; [by intros [? ?] | by intros ?%elem_of_nil].
  - change (abs (e :: L)) with ((e_key e, e_value e) :: abs L).
    change (keys (e :: L)) with (e_key e :: keys L).
    cbn [Spec.lookup]. rewrite elem_of_cons.
    destruct (decide (e_key e = k)) as [->|Hne].
    + split; [by left | eauto].
    + rewrite IH. split; [by right | intros [?|?]; congruence].
Qed.

(** ** One call against one step *)

Lemma sim_get s L k : Inv s L → simulates s L (Get k).
Proof.
  intros HI. unfold simulates, op_throws, op_own.
  destruct (inherited k) eqn:Hk.
  { unfold call. apply bind_Throw. apply get_inherited; [|assumption].
    eapply inv_miss; [eassumption|]. by eapply inherited_not_key. }
  destruct (decide (k ∈ keys L)) as [Hin|Hout].
  - destruct (keys_split L k (inv_NoDup_keys _ _ HI) Hin)
      as (L1 & e & L2 & -> & <- & H1 & H2).
    destruct (get_hit _ _ _ _ HI) as (s' & Hget & Hthis & Hd & HI').
    exists (OValue (e_value e)), s', (e :: L1 ++ L2).
    split; [|split; [assumption | split; [by rewrite Hthis|]]].
    { unfold call. erewrite bind_Ok by eassumption. reflexivity. }
    intros (Hcap & Hsz & Hle). unfold SizeInv. rewrite Hthis.
    cbn [Spec.step]. unfold Spec.get.
    rewrite lookup_abs_mid, remove_abs_mid by done.
    cbn [fst snd js_output]. split; [|split; [reflexivity | done]].
    rewrite length_app in *. simpl in *. rewrite length_app. repeat split; lia.
  - assert (has k s = Ok (false, s)) as Hhas.
    { rewrite (has_Inv _ _ _ HI), Hk. by rewrite bool_decide_false. }
    exists (OValue VUndefined), s, L.
    split; [|split; [assumption | split; [reflexivity|]]].
    { unfold call. erewrite bind_Ok by (by apply get_miss). reflexivity. }
    intros Hsz. cbn [Spec.step]. unfold Spec.get.
    rewrite lookup_abs_none by assumption. done.
Qed.

Lemma sim_has s L k : Inv s L → simulates s L (Has k).
Proof.
  intros HI. unfold simulates, op_throws, op_own.
  exists (OBool (bool_decide (k ∈ keys L) || inherited k)), s, L.
  split; [|split; [assumption | split; [reflexivity|]]].
  { unfold call. erewrite bind_Ok by (by eapply has_Inv). reflexivity. }
  intros Hsz. split; [assumption|]. split; [reflexivity|].
  intros ->%negb_true_iff. cbn [Spec.step fst js_output]. rewrite orb_false_r.
  unfold Spec.has. f_equal. apply bool_decide_ext. symmetry.
  apply lookup_abs_is_Some.
Qed.

Lemma sim_getContents s L : Inv s L → simulates s L GetContents.
Proof.
  intros HI. unfold simulates, op_throws, op_own.
  exists (OContents (contents L)), s, L.
  split; [|split; [assumption | split; [reflexivity|]]].
  { unfold call. erewrite bind_Ok by (by eapply getContents_Inv). reflexivity. }
  intros Hsz. split; [assumption|]. split; [reflexivity|].
  intros _. cbn [Spec.step fst js_output]. unfold Spec.getContents.
  by rewrite js_entries_abs.
Qed.

Lemma sim_clear s L : Inv s L → simulates s L Clear.
Proof.
  intros HI. unfold simulates, op_throws, op_own.
  destruct (clear_Inv _ _ HI) as [Hcl HI'].
  exists OUnit, (cleared s), [].
  split; [|split; [assumption | split; [reflexivity|]]].
  { unfold call. erewrite bind_Ok by eassumption. reflexivity. }
  intros (Hcap & Hsz & Hle). split; [|done].
  unfold SizeInv, cleared. simpl. lia.
Qed.

Lemma sim_delete s L k : Inv s L → simulates s L (Delete k).
Proof.
  intros HI. unfold simulates, op_throws, op_own.
  destruct (inherited k) eqn:Hk.
  { unfold call. apply bind_Throw. apply delete_inherited; [|assumption].
    eapply inv_miss; [eassumption|]. by eapply inherited_not_key. }
  destruct (decide (k ∈ keys L)) as [Hin|Hout].
  - destruct (keys_split L k (inv_NoDup_keys _ _ HI) Hin)
      as (L1 & e & L2 & -> & <- & H1 & H2).
    destruct (delete_hit _ _ _ _ HI) as (h' & Hdel & Hd & HI').
    exists (OBool true), (dropped (e_key e) h' (this s)), (L1 ++ L2).
    split; [|split; [assumption | split; [reflexivity|]]].
    { unfold call. erewrite bind_Ok by eassumption. reflexivity. }
    intros (Hcap & Hsz & Hle). unfold SizeInv.
    cbn [Spec.step dropped this capacity size]. unfold Spec.delete.
    rewrite lookup_abs_mid, remove_abs_mid by done.
    cbn [fst snd js_output]. split; [|split; [reflexivity | done]].
    rewrite length_app in *. simpl in *. repeat split; lia.
  - assert (has k s = Ok (false, s)) as Hhas.
    { rewrite (has_Inv _ _ _ HI), Hk. by rewrite bool_decide_false. }
    exists (OBool false), s, L.
    split; [|split; [assumption | split; [reflexivity|]]].
    { unfold call. erewrite bind_Ok by (by apply delete_miss). reflexivity. }
    intros Hsz. cbn [Spec.step]. unfold Spec.delete.
    rewrite lookup_abs_none by assumption. done.
Qed.

Lemma sim_put s L k v : Inv s L → simulates s L (Put k v).
Proof.
  intros HI. unfold simulates, op_throws, op_own.
  destruct (inherited k) eqn:Hk.
  { unfold call. apply bind_Throw. apply put_inherited; [|assumption].
    eapply inv_miss; [eassumption|]. by eapply inherited_not_key. }
  destruct (decide (k ∈ keys L)) as [Hin|Hout].
  - destruct (keys_split L k (inv_NoDup_keys _ _ HI) Hin)
      as (L1 & e & L2 & -> & <- & H1 & H2).
    destruct (put_hit _ _ _ _ v HI) as (s' & Hput & Hthis & HI').
    exists OUnit, s', (Entry (e_addr e) (e_key e) v :: L1 ++ L2).
    split; [|split; [assumption | split; [by rewrite Hthis|]]].
    { unfold call. erewrite bind_Ok by eassumption. reflexivity. }
    intros (Hcap & Hsz & Hle). unfold SizeInv. rewrite Hthis.
    cbn [Spec.step]. unfold Spec.put.
    rewrite (lookup_abs_mid (e_key e) L1 e L2), remove_abs_mid by done.
    cbn [fst snd js_output]. split; [|split; [reflexivity | done]].
    rewrite length_app in *. simpl in *. rewrite length_app. repeat split; lia.
  - assert (has k s = Ok (false, s)) as Hhas.
    { rewrite (has_Inv _ _ _ HI), Hk. by rewrite bool_decide_false. }
    assert (∀ s1 L1, Inv s1 L1 → k ∉ keys L1 →
              evict_block s = Ok (tt, s1) →
              ∃ s', call (Put k v) s = Ok (OUnit, s') ∧
                    Inv s' (Entry (length (heap s1)) k v :: L1) ∧
                    capacity (this s') = capacity (this s1) ∧
                    size (this s') = (size (this s1) + 1)%Z) as Hins.
    { intros s1 L1 HI1 Hk1 Hev.
      destruct (insert_Inv s1 L1 k v HI1 Hk1 Hk) as (s' & Hin & HI' & Hc & Hs & _).
      exists s'. split; [|done].
      unfold call. erewrite bind_Ok; [reflexivity|].
      rewrite put_miss by assumption. erewrite bind_Ok by eassumption.
      exact Hin. }
    cbn [Spec.step]. unfold Spec.put. rewrite lookup_abs_none by assumption.
    rewrite length_abs. cbn [fst snd js_output].
    destruct (decide (size (this s) = capacity (this s))) as [Heq|Hne].
    + destruct L as [|e0 L0 _] using rev_ind.
      * destruct (evict_empty _ HI Heq) as [Hev HI1].
        destruct (Hins _ _ HI1 Hout Hev) as (s' & Hcall & HI' & Hc & Hs).
        exists OUnit, s', [Entry (length (heap s)) k v].
        split; [assumption|]. split; [assumption|]. split; [assumption|].
        intros (Hcap & Hsz & Hle). simpl in Hsz. lia.
      * destruct (evict_last _ _ _ HI Heq) as (h' & Hev & Hd & HI1).
        assert (k ∉ keys L0) as Hout0.
        { intros H. apply Hout. unfold keys in *. rewrite fmap_app.
          apply elem_of_app. by left. }
        destruct (Hins _ _ HI1 Hout0 Hev) as (s' & Hcall & HI' & Hc & Hs).
        eexists OUnit, s', _.
        split; [eassumption|]. split; [eassumption|]. split; [assumption|].
        intros (Hcap & Hsz & Hle). unfold SizeInv.
        rewrite Hc, Hs. cbn [dropped this capacity size].
        rewrite length_app in *. simpl in *.
        rewrite bool_decide_true by lia.
        rewrite removelast_abs.
        split; [repeat split; lia|]. split; [reflexivity | done].
    + pose proof (evict_none _ Hne) as Hev.
      destruct (Hins _ _ HI Hout Hev) as (s' & Hcall & HI' & Hc & Hs).
      eexists OUnit, s', _.
      split; [eassumption|]. split; [eassumption|]. split; [assumption|].
      intros (Hcap & Hsz & Hle). unfold SizeInv.
      rewrite Hc, Hs. simpl.
      rewrite bool_decide_false by lia.
      split; [repeat split; lia|]. split; [reflexivity | done].
Qed.

(** Every call either throws on an inherited key or takes a state that
    holds the entries [L] to one that holds the entries of the
    specification's next state. *)
Lemma call_simulates s L o : Inv s L → simulates s L o.
Proof.
  destruct o; auto using sim_get, sim_put, sim_delete, sim_has,
    sim_getContents, sim_clear.
Qed.

End Abstraction.

(** * Sequences of calls *)

Section Sessions.

Implicit Types (s : state) (L : list entry) (k : string) (v : val).

Lemma run_cons_Ok o ops s outs s' :
  run (o :: ops) s = Ok (outs, s') →
  ∃ out s1 outs', call o s = Ok (out, s1) ∧ run ops s1 = Ok (outs', s') ∧
                  outs = out :: outs'.
Proof.
  cbn [run]. intros (out & s1 & Hcall & H)%bind_inv.
  apply bind_inv in H as (outs' & s2 & Hrun & H).
  injection H as <- <-. eauto 10.
Qed.

Lemma run_simulates ops s L outs s' :
  Inv s L → run ops s = Ok (outs, s') →
  ∃ L', Inv s' L' ∧ capacity (this s') = capacity (this s) ∧
        (SizeInv s L →
           SizeInv s' L' ∧
           abs L' = (Spec.run (capacity (this s)) ops (abs L)).2 ∧
           (Forall (λ o, op_own o = true) ops →
              outs = js_output <$> (Spec.run (capacity (this s)) ops (abs L)).1)).
Proof.
  revert s L outs. induction ops as [|o ops IH]; intros s L outs HI Hrun.
  - injection Hrun as <- <-. exists L. done.
  - apply run_cons_Ok in Hrun as (out & s1 & outs' & Hcall & Hrun & ->).
    pose proof (call_simulates s L o HI) as Hsim. unfold simulates in Hsim.
    destruct (op_throws o); [congruence|].
    destruct Hsim as (out' & s1' & L1 & Hcall' & HI1 & Hcap1 & Hsz1).
    rewrite Hcall in Hcall'. injection Hcall' as <- <-.
    destruct (IH _ _ _ HI1 Hrun) as (L' & HI' & Hcap' & Hsz').
    exists L'. split; [assumption|]. split; [congruence|].
    intros Hsz. destruct (Hsz1 Hsz) as (Hsz1' & Habs1 & Hout1).
    destruct (Hsz' Hsz1') as (Hsz'' & Habs' & Hout').
    rewrite Hcap1 in Habs', Hout'. rewrite Habs1 in Habs', Hout'.
    cbn [Spec.run].
    destruct (Spec.step (capacity (this s)) o (abs L)) as [r c1].
    cbn [fst snd] in *.
    destruct (Spec.run (capacity (this s)) ops c1) as [rs c2].
    cbn [fst snd] in *. split; [assumption|]. split; [assumption|].
    intros [Ho Hops]%Forall_cons. rewrite fmap_cons.
    f_equal; [by apply Hout1 | by apply Hout'].
Qed.

Lemma run_returns ops s L :
  Inv s L → Forall (λ o, op_throws o = false) ops →
  ∃ outs s', run ops s = Ok (outs, s').
Proof.
  revert s L. induction ops as [|o ops IH]; intros s L HI Hops.
  - by exists [], s.
  - apply Forall_cons in Hops as [Ho Hops].
    pose proof (call_simulates s L o HI) as Hsim. unfold simulates in Hsim.
    rewrite Ho in Hsim. destruct Hsim as (out & s1 & L1 & Hcall & HI1 & _).
    destruct (IH _ _ HI1 Hops) as (outs & s' & Hrun).
    exists (out :: outs), s'. cbn [run].
    erewrite bind_Ok by eassumption. erewrite bind_Ok by eassumption.
    reflexivity.
Qed.

Lemma run_app_Ok ops1 ops2 s outs s' :
  run (ops1 ++ ops2) s = Ok (outs, s') →
  ∃ outs1 s1 outs2, run ops1 s = Ok (outs1, s1) ∧ run ops2 s1 = Ok (outs2, s') ∧
                    outs = outs1 ++ outs2.
Proof.
  revert s outs. induction ops1 as [|o ops1 IH]; intros s outs Hrun.
  - exists [], s, outs. done.
  - rewrite <- app_comm_cons in Hrun.
    apply run_cons_Ok in Hrun as (out & s1 & outs' & Hcall & Hrun & ->).
    apply IH in Hrun as (outs1 & s2 & outs2 & H1 & H2 & ->).
    exists (out :: outs1), s2, outs2. split; [|done].
    cbn [run]. erewrite bind_Ok by eassumption. erewrite bind_Ok by eassumption.
    reflexivity.
Qed.

Lemma constructor_fresh cap : constructor cap = Ok (fresh cap).
Proof. reflexivity. Qed.

Lemma session_run cap ops : session cap ops = run ops (fresh cap).
Proof. reflexivity. Qed.

Lemma fresh_Inv cap : Inv (fresh cap) [].
Proof.
  split; try done.
  - unfold path. simpl. apply NoDup_cons. split; [elems | apply NoDup_singleton].
  - intros e He. by apply elem_of_nil in He.
  - intros k x. split; [done|]. intros (e & He & _). by apply elem_of_nil in He.
  - intros e He. by apply elem_of_nil in He.
Qed.

Lemma fresh_SizeInv cap : (1 ≤ cap)%Z → SizeInv (fresh cap) [].
Proof. intros H. unfold SizeInv. simpl. lia. Qed.

(** Every state a script can reach holds some list of entries. *)
Lemma session_Inv cap ops outs s :
  session cap ops = Ok (outs, s) →
  ∃ L, Inv s L ∧ capacity (this s) = cap.
Proof.
  rewrite session_run. intros Hrun.
  destruct (run_simulates _ _ _ _ _ (fresh_Inv cap) Hrun) as (L & HI & Hc & _).
  exists L. done.
Qed.

Lemma session_simulates cap ops outs s :
  (1 ≤ cap)%Z → session cap ops = Ok (outs, s) →
  ∃ L, Inv s L ∧ SizeInv s L ∧ capacity (this s) = cap ∧
       abs L = (Spec.run cap ops []).2 ∧
       (Forall (λ o, op_own o = true) ops →
          outs = js_output <$> (Spec.run cap ops []).1).
Proof.
  rewrite session_run. intros Hcap Hrun.
  destruct (run_simulates _ _ _ _ _ (fresh_Inv cap) Hrun) as (L & HI & Hc & Hsz).
  destruct (Hsz (fresh_SizeInv _ Hcap)) as (Hsz' & Habs & Hout).
  exists L. done.
Qed.

Lemma session_returns cap ops :
  Forall (λ o, op_throws o = false) ops →
  ∃ outs s, session cap ops = Ok (outs, s).
Proof. rewrite session_run. apply run_returns with []. apply fresh_Inv. Qed.

End Sessions.

(** * What the states of the engine satisfy *)

Section Observations.

Implicit Types (s : state) (L : list entry) (k : string) (v : val).

(** The number of keys of the index is the number of entries. *)
Lemma index_size s L : Inv s L → base.size (cache (this s)) = length L.
Proof.
  intros HI. rewrite <- (size_dom (D := gset string)).
  assert (dom (cache (this s)) = list_to_set (keys L)) as ->.
  { apply set_eq. intros k. rewrite elem_of_dom, elem_of_list_to_set. split.
    - intros [x Hx]. apply (inv_index _ _ HI) in Hx as (e & He & <- & _).
      by apply list_elem_of_fmap_2.
    - intros (e & -> & He)%list_elem_of_fmap.
      rewrite (inv_lookup _ _ _ HI He). eauto. }
  rewrite size_list_to_set by (by eapply inv_NoDup_keys).
  apply length_fmap.
Qed.

Lemma getContents_inv s L c s' :
  Inv s L → getContents s = Ok (c, s') → c = contents L ∧ s' = s.
Proof.
  intros HI. rewrite (getContents_Inv _ _ HI). by intros [= <- <-].
Qed.

Lemma contents_split L c1 k v c2 :
  contents L = c1 ++ (VStr k, v) :: c2 →
  ∃ L1 e L2, L = L1 ++ e :: L2 ∧ contents L1 = c1 ∧ contents L2 = c2 ∧
             e_key e = k ∧ e_value e = v.
Proof.
  unfold contents.
  intros (L1 & L' & -> & H & ->)%fmap_app_inv.
  symmetry in H. apply fmap_cons_inv in H as (e & L2 & [= -> ->] & -> & ->).
  exists L1, e, L2. done.
Qed.

Lemma contents_snoc L c x :
  contents L = c ++ [x] → ∃ L0 e, L = L0 ++ [e] ∧ contents L0 = c.
Proof.
  unfold contents.
  intros (L1 & L' & -> & H & ->)%fmap_app_inv.
  symmetry in H. apply fmap_cons_inv in H as (e & L2 & _ & HL2 & ->).
  symmetry in HL2. apply fmap_nil_inv in HL2 as ->.
  exists L1, e. done.
Qed.

Lemma has_false s L k :
  Inv s L → has k s = Ok (false, s) → (k ∉ keys L) ∧ inherited k = false.
Proof.
  intros HI. rewrite (has_Inv _ _ _ HI). intros [= H].
  apply orb_false_iff in H as [H1 H2]. split; [|assumption].
  by apply bool_decide_eq_false in H1.
Qed.

Lemma has_own s L e : Inv s L → e ∈ L → has (e_key e) s = Ok (true, s).
Proof.
  intros HI He. rewrite (has_Inv _ _ _ HI).
  rewrite bool_decide_true; [done|]. by apply list_elem_of_fmap_2.
Qed.


(** With no entry, the sentinels are linked to each other. *)
Lemma Inv_empty s :
  Inv s [] →
  get_prop (head (this s)) Fnext s = Ok (tail (this s), s) ∧
  get_prop (tail (this s)) Fprev s = Ok (head (this s), s).
Proof.
  intros HI. destruct (inv_links _ _ HI) as [[Hn Hp] _].
  rewrite (inv_head _ _ HI), (inv_tail _ _ HI).
  split; by apply get_prop_node.
Qed.

End Observations.

(** * Runs of the specification's engine *)

Section SpecRuns.

Implicit Types (c : list (string * val)) (k : string) (v : val).

Lemma keys_abs L : keys L = (abs L).*1.
Proof. unfold keys, abs. rewrite <- list_fmap_compose. reflexivity. Qed.

Lemma Spec_lookup_None k c : k ∉ c.*1 → Spec.lookup k c = None.
Proof.
  induction c as [|[k' v'] c IH]; [done|]. rewrite fmap_cons.
  intros [Hne Hk]%not_elem_of_cons. simpl in *.
  rewrite decide_False by congruence. by apply IH.
Qed.

Lemma Spec_lookup_app_r k c1 c2 :
  k ∉ c1.*1 → Spec.lookup k (c1 ++ c2) = Spec.lookup k c2.
Proof.
  induction c1 as [|[k' v'] c1 IH]; [done|]. rewrite fmap_cons.
  intros [Hne Hk]%not_elem_of_cons. simpl in *.
  rewrite decide_False by congruence. by apply IH.
Qed.

Lemma Spec_remove_notin k c : k ∉ c.*1 → Spec.remove k c = c.
Proof.
  induction c as [|[k' v'] c IH]; [done|]. rewrite fmap_cons.
  intros [Hne Hk]%not_elem_of_cons. unfold Spec.remove.
  rewrite filter_cons_True by (simpl in *; congruence).
  f_equal. by apply IH.
Qed.

Lemma Spec_remove_last k v c : k ∉ c.*1 → Spec.remove k (c ++ [(k, v)]) = c.
Proof.
  intros Hk. unfold Spec.remove. rewrite filter_app.
  rewrite filter_cons_False by (simpl; intros H; by apply H).
  rewrite filter_nil, app_nil_r. by apply Spec_remove_notin.
Qed.

Lemma Spec_run_app cap ops1 ops2 c :
  (Spec.run cap (ops1 ++ ops2) c).2 = (Spec.run cap ops2 (Spec.run cap ops1 c).2).2.
Proof.
  revert c. induction ops1 as [|o ops1 IH]; intros c; [done|].
  rewrite <- app_comm_cons. cbn [Spec.run].
  destruct (Spec.step cap o c) as [r c1]. specialize (IH c1).
  destruct (Spec.run cap (ops1 ++ ops2) c1) as [rs c2].
  destruct (Spec.run cap ops1 c1) as [rs1 c3]. cbn [snd] in *.
  rewrite IH. by destruct (Spec.run cap ops2 c3).
Qed.

(** New keys put into a cache with room for them pile up in front. *)
Lemma Spec_run_puts cap kvs c :
  NoDup kvs.*1 → (∀ k, k ∈ kvs.*1 → k ∉ c.*1) →
  (Z.of_nat (length c + length kvs) ≤ cap)%Z →
  (Spec.run cap (puts kvs) c).2 = reverse kvs ++ c.
Proof.
  revert c. induction kvs as [|[k v] kvs IH]; intros c Hnd Hnew Hlen; [done|].
  rewrite fmap_cons in Hnd, Hnew. apply NoDup_cons in Hnd as [Hk Hnd].
  cbn [puts fmap list_fmap Spec.run Spec.step fst snd].
  specialize (IH ((k, v) :: c) Hnd).
  destruct (Spec.run cap ((λ e, Put e.1 e.2) <$> kvs) (Spec.put cap k v c))
    as [rs c'] eqn:Hrun.
  cbn [snd]. unfold Spec.put in Hrun.
  rewrite Spec_lookup_None in Hrun by (apply Hnew; by left).
  rewrite bool_decide_false in Hrun by (simpl in Hlen; lia).
  unfold puts in IH. rewrite Hrun in IH. cbn [snd] in IH.
  rewrite IH.
  - rewrite reverse_cons, <- app_assoc. reflexivity.
  - intros k' Hk'. rewrite fmap_cons. apply not_elem_of_cons. split.
    + intros ->. by apply Hk.
    + apply Hnew. by right.
  - simpl in *. lia.
Qed.

Lemma op_throws_puts kvs :
  Forall (λ k, inherited k = false) kvs.*1 →
  Forall (λ o, op_throws o = false) (puts kvs).
Proof.
  unfold puts. rewrite !Forall_fmap. intros H.
  eapply Forall_impl; [exact H|]. by intros [k v].
Qed.

Lemma Spec_put_full cap k v c x :
  k ∉ (c ++ [x]).*1 → Z.of_nat (length (c ++ [x])) = cap →
  Spec.put cap k v (c ++ [x]) = (k, v) :: c.
Proof.
  intros Hk Hlen. unfold Spec.put.
  rewrite Spec_lookup_None by assumption.
  rewrite bool_decide_true by assumption. by rewrite removelast_last.
Qed.

Lemma Spec_get_last k v c :
  k ∉ c.*1 → Spec.get k (c ++ [(k, v)]) = (Some v, (k, v) :: c).
Proof.
  intros Hk. unfold Spec.get. rewrite Spec_lookup_app_r by assumption.
  simpl. rewrite decide_True by reflexivity. by rewrite Spec_remove_last.
Qed.

(** What a script without throwing calls leaves, read off the run of the
    specification. *)
Lemma session_spec cap ops :
  (1 ≤ cap)%Z → Forall (λ o, op_throws o = false) ops →
  ∃ outs s, session cap ops = Ok (outs, s) ∧
    getContents s = Ok (js_entries (Spec.run cap ops []).2, s) ∧
    ∀ k, has k s =
         Ok (bool_decide (k ∈ (Spec.run cap ops []).2.*1) || inherited k, s).
Proof.
  intros Hcap Hops. destruct (session_returns cap ops Hops) as (outs & s & Hrun).
  destruct (session_simulates _ _ _ _ Hcap Hrun) as (L & HI & _ & _ & Habs & _).
  exists outs, s. split; [assumption|]. rewrite <- Habs. split.
  - rewrite js_entries_abs. by apply getContents_Inv.
  - intros k. rewrite <- keys_abs. by apply has_Inv.
Qed.

End SpecRuns.

(** * The order of the entries and the order of the calls *)

Section Recency.

Implicit Types (c : list (string * val)) (k : string) (v : val) (o : op).

Lemma age_snoc ops o k :
  age (ops ++ [o]) k = if touches k o then Some 0 else S <$> age ops k.
Proof. unfold age. by rewrite reverse_snoc. Qed.

Lemma StronglySorted_sublist {A} (R : A → A → Prop) (l1 l2 : list A) :
  l1 `sublist_of` l2 → StronglySorted R l2 → StronglySorted R l1.
Proof.
  induction 1 as [|x l1 l2 Hsub IH|x l1 l2 Hsub IH]; intros HS.
  - constructor.
  - apply StronglySorted_cons in HS as [HF HS].
    apply StronglySorted_cons. split; [|by apply IH].
    rewrite Forall_forall in *. intros y Hy. apply HF.
    by apply (sublist_subseteq _ _ Hsub).
  - apply StronglySorted_cons in HS as [_ HS]. by apply IH.
Qed.

Lemma removelast_sublist {A} (l : list A) : removelast l `sublist_of` l.
Proof.
  destruct l as [|x l _] using rev_ind; [done|].
  rewrite removelast_last. by apply sublist_inserts_r.
Qed.

(** Entries that a call does not touch keep their order after it. *)
Lemma by_recency_untouched ops o c c' :
  c' `sublist_of` c → (∀ e, e ∈ c' → touches e.1 o = false) →
  by_recency ops c → by_recency (ops ++ [o]) c'.
Proof.
  intros Hsub Hun [HF HS].
  assert (∀ e, e ∈ c' → ∃ a, age ops e.1 = Some a ∧ age (ops ++ [o]) e.1 = Some (S a))
    as Hage.
  { intros e He. rewrite Forall_forall in HF.
    destruct (HF e (sublist_subseteq _ _ Hsub _ He)) as [a Ha].
    exists a. split; [assumption|]. by rewrite age_snoc, (Hun e He), Ha. }
  split.
  - apply Forall_forall. intros e He. destruct (Hage e He) as (a & _ & ->). eauto.
  - apply (StronglySorted_sublist _ _ _ Hsub) in HS.
    clear Hsub HF Hun. induction HS as [|e c' HS IH HR]; [constructor|].
    constructor.
    + apply IH. intros e' He'. apply Hage. by right.
    + rewrite Forall_forall in *. intros e' He'.
      destruct (HR e' He') as (a & a' & Ha & Ha' & Hlt).
      destruct (Hage e) as (b & Hb & Hb'); [by left|].
      destruct (Hage e') as (b' & Hb0 & Hb0'); [by right|].
      exists (S b), (S b'). split; [assumption|]. split; [assumption|].
      assert (a = b) by congruence. assert (a' = b') by congruence. lia.
Qed.

(** The entry of the key a call touches comes first. *)
Lemma by_recency_touched ops o c c' k v :
  c' `sublist_of` c → (∀ e, e ∈ c' → touches e.1 o = false) →
  touches k o = true →
  by_recency ops c → by_recency (ops ++ [o]) ((k, v) :: c').
Proof.
  intros Hsub Hun Hk Hc.
  destruct (by_recency_untouched ops o c c' Hsub Hun Hc) as [HF HS].
  assert (age (ops ++ [o]) k = Some 0) as Hage by (by rewrite age_snoc, Hk).
  split.
  - constructor; [simpl; rewrite Hage; eauto | assumption].
  - constructor; [assumption|].
    rewrite Forall_forall in *. intros e He.
    assert (∃ a, age (ops ++ [o]) e.1 = Some (S a)) as [a Ha].
    { rewrite age_snoc, (Hun e He).
      destruct Hc as [HFc _]. rewrite Forall_forall in HFc.
      destruct (HFc e (sublist_subseteq _ _ Hsub _ He)) as [a ->]. eauto. }
    exists 0, (S a). simpl. split; [assumption|]. split; [assumption | lia].
Qed.

Lemma Spec_lookup_None_inv k c : Spec.lookup k c = None → k ∉ c.*1.
Proof.
  induction c as [|[k' v'] c IH]; [intros _; apply not_elem_of_nil|].
  simpl. destruct (decide (k' = k)) as [->|Hne]; [discriminate|].
  intros H. apply not_elem_of_cons. split; [congruence | by apply IH].
Qed.

Lemma remove_other k c e : e ∈ Spec.remove k c → e.1 ≠ k.
Proof. unfold Spec.remove. by intros [H _]%list_elem_of_filter. Qed.

Lemma not_key_other k c e : k ∉ c.*1 → e ∈ c → e.1 ≠ k.
Proof. intros Hk He <-. apply Hk. by apply list_elem_of_fmap_2. Qed.

Lemma by_recency_step cap ops o c :
  by_recency ops c → by_recency (ops ++ [o]) (Spec.step cap o c).2.
Proof.
  intros Hc. destruct o as [k|k v|k|k| |]; cbn [Spec.step].
  - unfold Spec.get. destruct (Spec.lookup k c) as [v|] eqn:Hl; cbn [snd].
    + apply by_recency_touched with c; try assumption.
      * apply sublist_filter.
      * intros e He%remove_other. simpl. by rewrite bool_decide_false.
      * simpl. by rewrite bool_decide_true.
    + apply by_recency_untouched with c; [done| |assumption].
      intros e He. simpl. rewrite bool_decide_false; [done|].
      apply Spec_lookup_None_inv in Hl. intros ->.
      by eapply not_key_other.
  - cbn [snd]. unfold Spec.put. destruct (Spec.lookup k c) as [v'|] eqn:Hl.
    + apply by_recency_touched with c; try assumption.
      * apply sublist_filter.
      * intros e He%remove_other. simpl. by rewrite bool_decide_false.
      * simpl. by rewrite bool_decide_true.
    + apply Spec_lookup_None_inv in Hl.
      apply by_recency_touched with c; try assumption.
      * case_bool_decide; [apply removelast_sublist | done].
      * intros e He. simpl. rewrite bool_decide_false; [done|].
        intros ->. eapply not_key_other; [eassumption| |reflexivity].
        case_bool_decide; [|assumption].
        by apply (sublist_subseteq _ _ (removelast_sublist c)).
      * simpl. by rewrite bool_decide_true.
  - unfold Spec.delete.
    destruct (Spec.lookup k c); cbn [snd];
      (apply by_recency_untouched with c; [|done|assumption]);
      [apply sublist_filter | done].
  - cbn [snd]. by apply by_recency_untouched with c.
  - cbn [snd]. by apply by_recency_untouched with c.
  - cbn [snd]. unfold Spec.clear. split; constructor.
Qed.

Lemma Spec_run_snoc cap ops o c :
  (Spec.run cap (ops ++ [o]) c).2 = (Spec.step cap o (Spec.run cap ops c).2).2.
Proof.
  rewrite Spec_run_app. cbn [Spec.run].
  by destruct (Spec.step cap o (Spec.run cap ops c).2).
Qed.

Lemma by_recency_run cap ops : by_recency ops (Spec.run cap ops []).2.
Proof.
  induction ops as [|o ops IH] using rev_ind.
  - split; constructor.
  - rewrite Spec_run_snoc. by apply by_recency_step.
Qed.

End Recency.

(** * The engine against its counter and sequence of entries *)

Section Modelled.

Implicit Types (s : state) (L : list entry) (k : string) (v : val).

Lemma not_throws_miss s L k :
  Inv s L → inherited k = false → k ∉ keys L → has k s = Ok (false, s).
Proof.
  intros HI Hk Hout. rewrite (has_Inv _ _ _ HI), Hk.
  by rewrite bool_decide_false.
Qed.

Lemma model_get s L k :
  Inv s L → inherited k = false →
  ∃ s' L', call (Get k) s
             = Ok ((Model.step (capacity (this s)) (Get k) (model s L)).1, s') ∧
           Inv s' L' ∧ this s' = this s ∧
           model s' L' = (Model.step (capacity (this s)) (Get k) (model s L)).2.
Proof.
  intros HI Hk. unfold model. cbn [Model.step fst snd].
  destruct (decide (k ∈ keys L)) as [Hin|Hout].
  - destruct (keys_split L k (inv_NoDup_keys _ _ HI) Hin)
      as (L1 & e & L2 & -> & <- & H1 & H2).
    destruct (get_hit _ _ _ _ HI) as (s' & Hget & Hthis & Hd & HI').
    exists s', (e :: L1 ++ L2).
    rewrite lookup_abs_mid, remove_abs_mid by done. cbn [fst snd].
    split; [|split; [assumption | split; [assumption | by rewrite Hthis]]].
    unfold call. erewrite bind_Ok by eassumption. reflexivity.
  - exists s, L. rewrite lookup_abs_none by assumption. cbn [fst snd].
    split; [|done].
    unfold call. erewrite bind_Ok by (by eapply get_miss, not_throws_miss).
    reflexivity.
Qed.

Lemma model_delete s L k :
  Inv s L → inherited k = false →
  ∃ s' L', call (Delete k) s
             = Ok ((Model.step (capacity (this s)) (Delete k) (model s L)).1, s') ∧
           Inv s' L' ∧ capacity (this s') = capacity (this s) ∧
           model s' L' = (Model.step (capacity (this s)) (Delete k) (model s L)).2.
Proof.
  intros HI Hk. unfold model. cbn [Model.step fst snd].
  destruct (decide (k ∈ keys L)) as [Hin|Hout].
  - destruct (keys_split L k (inv_NoDup_keys _ _ HI) Hin)
      as (L1 & e & L2 & -> & <- & H1 & H2).
    destruct (delete_hit _ _ _ _ HI) as (h' & Hdel & Hd & HI').
    exists (dropped (e_key e) h' (this s)), (L1 ++ L2).
    rewrite lookup_abs_mid, remove_abs_mid by done. cbn [fst snd].
    split; [|split; [assumption | split; reflexivity]].
    unfold call. erewrite bind_Ok by eassumption. reflexivity.
  - exists s, L. rewrite lookup_abs_none by assumption. cbn [fst snd].
    split; [|done].
    unfold call. erewrite bind_Ok by (by eapply delete_miss, not_throws_miss).
    reflexivity.
Qed.

Lemma model_put s L k v :
  Inv s L → inherited k = false →
  ∃ s' L', call (Put k v) s = Ok (OUnit, s') ∧
           Inv s' L' ∧ capacity (this s') = capacity (this s) ∧
           model s' L' = Model.put (capacity (this s)) k v (model s L).
Proof.
  intros HI Hk. unfold model, Model.put. cbn [fst snd].
  destruct (decide (k ∈ keys L)) as [Hin|Hout].
  - destruct (keys_split L k (inv_NoDup_keys _ _ HI) Hin)
      as (L1 & e & L2 & -> & <- & H1 & H2).
    destruct (put_hit _ _ _ _ v HI) as (s' & Hput & Hthis & HI').
    exists s', (Entry (e_addr e) (e_key e) v :: L1 ++ L2).
    rewrite (lookup_abs_mid (e_key e) L1 e L2), remove_abs_mid by done.
    split; [|split; [assumption | split; by rewrite Hthis]].
    unfold call. erewrite bind_Ok by eassumption. reflexivity.
  - pose proof (not_throws_miss _ _ _ HI Hk Hout) as Hhas.
    assert (∀ s1 L1, Inv s1 L1 → k ∉ keys L1 →
              evict_block s = Ok (tt, s1) →
              ∃ s', call (Put k v) s = Ok (OUnit, s') ∧
                    Inv s' (Entry (length (heap s1)) k v :: L1) ∧
                    capacity (this s') = capacity (this s1) ∧
                    size (this s') = (size (this s1) + 1)%Z) as Hins.
    { intros s1 L1 HI1 Hk1 Hev.
      destruct (insert_Inv s1 L1 k v HI1 Hk1 Hk) as (s' & Hin & HI' & Hc & Hs & _).
      exists s'. split; [|done].
      unfold call. erewrite bind_Ok; [reflexivity|].
      rewrite put_miss by assumption. erewrite bind_Ok by eassumption.
      exact Hin. }
    rewrite lookup_abs_none by assumption.
    destruct (decide (size (this s) = capacity (this s))) as [Heq|Hne].
    + rewrite bool_decide_true by assumption.
      destruct L as [|e0 L0 _] using rev_ind.
      * destruct (evict_empty _ HI Heq) as [Hev HI1].
        destruct (Hins _ _ HI1 Hout Hev) as (s' & Hcall & HI' & Hc & Hs).
        exists s', [Entry (length (heap s)) k v].
        split; [assumption|]. split; [assumption|]. split; [assumption|].
        rewrite Hs. reflexivity.
      * destruct (evict_last _ _ _ HI Heq) as (h' & Hev & Hd & HI1).
        assert (k ∉ keys L0) as Hout0.
        { intros H. apply Hout. unfold keys in *. rewrite fmap_app.
          apply elem_of_app. by left. }
        destruct (Hins _ _ HI1 Hout0 Hev) as (s' & Hcall & HI' & Hc & Hs).
        eexists s', _.
        split; [eassumption|]. split; [eassumption|]. split; [assumption|].
        rewrite Hs, removelast_abs. reflexivity.
    + rewrite bool_decide_false by assumption.
      pose proof (evict_none _ Hne) as Hev.
      destruct (Hins _ _ HI Hout Hev) as (s' & Hcall & HI' & Hc & Hs).
      eexists s', _.
      split; [eassumption|]. split; [eassumption|]. split; [assumption|].
      rewrite Hs. reflexivity.
Qed.

(** A call that does not throw returns what the engine on the sequence
    returns, in a state that holds its next sequence. *)
Lemma call_models s L o :
  Inv s L → op_throws o = false →
  ∃ s' L', call o s = Ok ((Model.step (capacity (this s)) o (model s L)).1, s') ∧
           Inv s' L' ∧ capacity (this s') = capacity (this s) ∧
           model s' L' = (Model.step (capacity (this s)) o (model s L)).2.
Proof.
  intros HI Ho. destruct o as [k|k v|k|k| |]; cbn [op_throws] in Ho.
  - destruct (model_get _ _ _ HI Ho) as (s' & L' & ? & ? & Hthis & ?).
    exists s', L'. by rewrite Hthis.
  - destruct (model_put _ _ _ v HI Ho) as (s' & L' & ? & ? & ? & ?).
    exists s', L'. done.
  - by apply model_delete.
  - exists s, L. cbn [Model.step fst snd]. split; [|done].
    unfold model. cbn [snd].
    rewrite (bool_decide_ext _ _ (lookup_abs_is_Some k L)).
    unfold call. erewrite bind_Ok by (by eapply has_Inv). reflexivity.
  - exists s, L. cbn [Model.step fst snd]. split; [|done].
    unfold model. cbn [snd]. rewrite js_entries_abs.
    unfold call. erewrite bind_Ok by (by eapply getContents_Inv). reflexivity.
  - destruct (clear_Inv _ _ HI) as [Hcl HI'].
    exists (cleared s), []. cbn [Model.step fst snd]. split; [|done].
    unfold call. erewrite bind_Ok by eassumption. reflexivity.
Qed.

(** A call on a key inherited from [Object.prototype] throws. *)
Lemma call_throws s L o :
  Inv s L → op_throws o = true → call o s = Throw TypeError.
Proof.
  intros HI Ho. pose proof (call_simulates s L o HI) as Hsim.
  unfold simulates in Hsim. by rewrite Ho in Hsim.
Qed.

Lemma run_models ops s L :
  Inv s L → Forall (λ o, op_throws o = false) ops →
  ∃ s' L', run ops s = Ok ((Model.run (capacity (this s)) ops (model s L)).1, s') ∧
           Inv s' L' ∧ capacity (this s') = capacity (this s) ∧
           model s' L' = (Model.run (capacity (this s)) ops (model s L)).2.
Proof.
  revert s L. induction ops as [|o ops IH]; intros s L HI Hops.
  - exists s, L. done.
  - apply Forall_cons in Hops as [Ho Hops].
    destruct (call_models _ _ _ HI Ho) as (s1 & L1 & Hcall & HI1 & Hc1 & Hm1).
    destruct (IH _ _ HI1 Hops) as (s' & L' & Hrun & HI' & Hc' & Hm').
    rewrite Hc1 in Hrun, Hm', Hc'. rewrite Hm1 in Hrun, Hm'.
    exists s', L'. cbn [Model.run fst snd].
    split; [|split; [assumption | split; assumption]].
    cbn [run]. erewrite bind_Ok by eassumption.
    erewrite bind_Ok by eassumption. reflexivity.
Qed.

(** A script that ran to its end made no call on an inherited key. *)
Lemma run_Ok_not_throws ops s L outs s' :
  Inv s L → run ops s = Ok (outs, s') → Forall (λ o, op_throws o = false) ops.
Proof.
  revert s L outs. induction ops as [|o ops IH]; intros s L outs HI Hrun.
  - constructor.
  - apply run_cons_Ok in Hrun as (out & s1 & outs' & Hcall & Hrun & ->).
    destruct (op_throws o) eqn:Ho.
    { rewrite (call_throws _ _ _ HI Ho) in Hcall. discriminate. }
    destruct (call_models _ _ _ HI Ho) as (s1' & L1 & Hcall' & HI1 & _).
    rewrite Hcall in Hcall'. injection Hcall' as _ <-.
    constructor; [assumption | by eapply IH].
Qed.

(** A script with a call on an inherited key throws. *)
Lemma run_throws ops s L :
  Inv s L → Exists (λ o, op_throws o = true) ops → run ops s = Throw TypeError.
Proof.
  revert s L. induction ops as [|o ops IH]; intros s L HI Hops.
  - by apply Exists_nil in Hops.
  - cbn [run]. destruct (op_throws o) eqn:Ho.
    { apply bind_Throw. by eapply call_throws. }
    apply Exists_cons in Hops as [Hops|Hops]; [congruence|].
    destruct (call_models _ _ _ HI Ho) as (s1 & L1 & Hcall & HI1 & _).
    erewrite bind_Ok by eassumption. apply bind_Throw. by eapply IH.
Qed.

(** The states a script reaches, and what it printed, from the engine on
    the sequence. *)
Lemma session_models cap ops outs s :
  session cap ops = Ok (outs, s) →
  ∃ L, Inv s L ∧ capacity (this s) = cap ∧
       outs = (Model.run cap ops (0%Z, [])).1 ∧
       model s L = (Model.run cap ops (0%Z, [])).2.
Proof.
  rewrite session_run. intros Hrun.
  pose proof (run_Ok_not_throws _ _ _ _ _ (fresh_Inv cap) Hrun) as Hops.
  destruct (run_models _ _ _ (fresh_Inv cap) Hops) as (s' & L & Hrun' & HI & Hc & Hm).
  rewrite Hrun in Hrun'. injection Hrun' as -> <-.
  exists L. done.
Qed.

End Modelled.

(** * The methods, for every capacity *)

Section Methods.

Implicit Types (s : state) (L : list entry) (k : string) (v : val).

Lemma get_models s L k :
  Inv s L → inherited k = false →
  ∃ x s' L', get k s = Ok (x, s') ∧ Inv s' L' ∧ this s' = this s ∧
             (OValue x, model s' L')
             = Model.step (capacity (this s)) (Get k) (model s L).
Proof.
  intros HI Hk. destruct (model_get _ _ _ HI Hk) as (s' & L' & Hcall & HI' & Ht & Hm).
  unfold call in Hcall. apply bind_inv in Hcall as (x & s1 & Hget & Hret).
  injection Hret as Hx ->. exists x, s', L'.
  split; [assumption|]. split; [assumption|]. split; [assumption|].
  rewrite Hx, Hm. symmetry. apply surjective_pairing.
Qed.

Lemma put_models s L k v :
  Inv s L → inherited k = false →
  ∃ s' L', put k v s = Ok (tt, s') ∧ Inv s' L' ∧
           capacity (this s') = capacity (this s) ∧
           model s' L' = Model.put (capacity (this s)) k v (model s L).
Proof.
  intros HI Hk. destruct (model_put _ _ _ v HI Hk) as (s' & L' & Hcall & HI' & Hc & Hm).
  unfold call in Hcall. apply bind_inv in Hcall as ([] & s1 & Hput & Hret).
  injection Hret as ->. exists s', L'. done.
Qed.

Lemma delete_models s L k :
  Inv s L → inherited k = false →
  ∃ b s' L', delete k s = Ok (b, s') ∧ Inv s' L' ∧
             capacity (this s') = capacity (this s) ∧
             (OBool b, model s' L')
             = Model.step (capacity (this s)) (Delete k) (model s L).
Proof.
  intros HI Hk.
  destruct (model_delete _ _ _ HI Hk) as (s' & L' & Hcall & HI' & Hc & Hm).
  unfold call in Hcall. apply bind_inv in Hcall as (b & s1 & Hdel & Hret).
  injection Hret as Hb ->. exists b, s', L'.
  split; [assumption|]. split; [assumption|]. split; [assumption|].
  rewrite Hb, Hm. symmetry. apply surjective_pairing.
Qed.

Lemma Spec_lookup_elem k v (c : list (string * val)) :
  Spec.lookup k c = Some v → (k, v) ∈ c.
Proof.
  induction c as [|[k' v'] c IH]; [done|]. simpl.
  destruct (decide (k' = k)) as [->|Hne].
  - intros [= ->]. by left.
  - intros H. right. by apply IH.
Qed.

Lemma length_remove_hit k v (c : list (string * val)) :
  NoDup c.*1 → Spec.lookup k c = Some v →
  S (length (Spec.remove k c)) = length c.
Proof.
  induction c as [|[k' v'] c IH]; [done|]. rewrite fmap_cons.
  intros [Hn Hnd]%NoDup_cons. cbn [Spec.lookup].
  destruct (decide (k' = k)) as [->|Hne].
  - intros _. unfold Spec.remove.
    rewrite filter_cons_False by (simpl; intros H; by apply H).
    fold (Spec.remove k c). by rewrite Spec_remove_notin.
  - intros Hl. unfold Spec.remove.
    rewrite filter_cons_True by (simpl; congruence).
    simpl. f_equal. by apply IH.
Qed.

(** A property of the counter and the sequence that every step keeps holds
    in every state a script reaches from a state where it holds. *)
Lemma run_preserves cap (P : Z * list (string * val) → Prop) (Q : op → Prop) :
  (∀ m o, Q o → NoDup m.2.*1 → P m → P (Model.step cap o m).2) →
  ∀ ops s L outs s',
    Inv s L → capacity (this s) = cap → P (model s L) → Forall Q ops →
    run ops s = Ok (outs, s') →
    ∃ L', Inv s' L' ∧ capacity (this s') = cap ∧ P (model s' L').
Proof.
  intros Hstep. induction ops as [|o ops IH]; intros s L outs s' HI Hc HP Hops Hrun.
  - injection Hrun as <- <-. eauto.
  - apply Forall_cons in Hops as [Ho Hops].
    apply run_cons_Ok in Hrun as (out & s1 & outs' & Hcall & Hrun & ->).
    destruct (op_throws o) eqn:Hthrow.
    { rewrite (call_throws _ _ _ HI Hthrow) in Hcall. discriminate. }
    destruct (call_models _ _ _ HI Hthrow) as (s1' & L1 & Hcall' & HI1 & Hc1 & Hm1).
    rewrite Hcall in Hcall'. injection Hcall' as _ <-.
    apply (IH s1 L1 outs' s' HI1); [congruence | | assumption | assumption].
    rewrite Hm1, Hc. apply Hstep; [assumption | | assumption].
    unfold model. cbn [snd]. rewrite <- keys_abs. by eapply inv_NoDup_keys.
Qed.

Lemma session_preserves cap (P : Z * list (string * val) → Prop) (Q : op → Prop) :
  P (0%Z, []) →
  (∀ m o, Q o → NoDup m.2.*1 → P m → P (Model.step cap o m).2) →
  ∀ ops outs s, Forall Q ops → session cap ops = Ok (outs, s) →
    ∃ L, Inv s L ∧ capacity (this s) = cap ∧ P (model s L).
Proof.
  intros H0 Hstep ops outs s Hops. rewrite session_run. intros Hrun.
  eapply (run_preserves cap P Q Hstep _ (fresh cap) []); try eassumption.
  - apply fresh_Inv.
  - reflexivity.
Qed.

Lemma contents_model s L c :
  model s L = c → contents L = js_entries c.2.
Proof. intros <-. symmetry. apply js_entries_abs. Qed.

(** After put, the entry is the first one. *)
Lemma put_front s L k v :
  Inv s L → inherited k = false →
  ∃ s' a L', put k v s = Ok (tt, s') ∧ Inv s' (Entry a k v :: L') ∧
             capacity (this s') = capacity (this s).
Proof.
  intros HI Hk.
  destruct (put_models _ _ k v HI Hk) as (s' & L1 & Hput & HI' & Hc & Hm).
  apply (f_equal snd) in Hm. unfold model, Model.put in Hm. cbn [fst snd] in Hm.
  destruct L1 as [|[a k' v'] L'].
  - repeat case_match; discriminate.
  - exists s', a, L'. split; [assumption|]. split; [|assumption].
    change (abs (Entry a k' v' :: L')) with ((k', v') :: abs L') in Hm.
    assert (k' = k ∧ v' = v) as [-> ->]; [|assumption].
    repeat case_match; by injection Hm.
Qed.

(** A key that is not in the index is the key of no entry. *)
Lemma index_miss_keys s L k :
  Inv s L → cache (this s) !! k = None → k ∉ keys L.
Proof.
  intros HI Hn (e & -> & He)%list_elem_of_fmap.
  rewrite (inv_lookup _ _ _ HI He) in Hn. discriminate.
Qed.

(** has on a key that is not in the index: the test [key in this.cache]
    answers for the properties the index inherits. *)
Lemma has_index_miss s k :
  cache (this s) !! k = None → has k s = Ok (inherited k, s).
Proof.
  intros Hn. unfold has, cache_in. rewrite Hn.
  rewrite bool_decide_false by (by intros [? ?]). reflexivity.
Qed.

End Methods.

(** * The store under the internal methods *)

Section Relinking.

Implicit Types (s : state) (L : list entry) (k : string) (v : val).

(** Two stores with the same fields at every address are the same. *)
Lemma heap_ext (h h' : list Node) :
  (∀ b f, fld h' b f = fld h b f) → h' = h.
Proof.
  intros H. apply list_eq. intros i.
  pose proof (H i Fkey) as Hk. pose proof (H i Fvalue) as Hv.
  pose proof (H i Fprev) as Hp. pose proof (H i Fnext) as Hn.
  unfold fld in *.
  destruct (h' !! i) as [[k' v' p' n']|], (h !! i) as [[k0 v0 p0 n0]|];
    simpl in *; congruence.
Qed.

(** [moveToFront] on the node that follows the head puts every pointer
    back where it was. *)
Lemma relink_front h a y :
  0 ≠ a → a ≠ y → 0 ≠ y →
  link h 0 a → link h a y →
  linked (unlinked h 0 y) 0 a y = h.
Proof.
  intros H0a Hay H0y [H1 H2] [H3 H4].
  pose proof (fld_alloc _ _ _ _ H1) as A0.
  pose proof (fld_alloc _ _ _ _ H3) as Aa.
  pose proof (fld_alloc _ _ _ _ H4) as Ay.
  apply heap_ext. intros b f. unfold linked, unlinked.
  rewrite !fld_upd by (rewrite ?alloc_upd; assumption).
  repeat case_decide; destruct_and?; subst; congruence.
Qed.

Lemma moveToFront_front s e L :
  Inv s (e :: L) → moveToFront (VNode (e_addr e)) s = Ok (tt, s).
Proof.
  intros HI. pose proof (inv_links _ _ HI) as Hl.
  pose proof (inv_nodup _ _ HI) as Hnd.
  change (path (addrs (e :: L))) with (0 :: e_addr e :: addrs L ++ [1]) in Hl, Hnd.
  set (y := hd 1 (addrs L ++ [1])).
  assert (addrs L ++ [1] = y :: tl (addrs L ++ [1])) as Hy.
  { subst y. by destruct (addrs L). }
  rewrite Hy in Hl, Hnd.
  destruct Hl as [H0a [Hay _]].
  apply NoDup_cons in Hnd as [N0 Hnd]. apply NoDup_cons in Hnd as [Na _].
  assert (0 ≠ e_addr e) as D0a by (intros E; apply N0; rewrite E; elems).
  assert (0 ≠ y) as D0y by (intros E; apply N0; rewrite E; elems).
  assert (e_addr e ≠ y) as Day by (intros E; apply Na; rewrite E; elems).
  unfold moveToFront.
  erewrite bind_Ok by (by eapply removeNode_ok).
  rewrite (addToFront_ok _ 0 (e_addr e) y); cbn [heap this].
  - rewrite relink_front by assumption. by destruct s.
  - apply (inv_head _ _ HI).
  - unfold unlinked. rewrite fld_upd_other by upd_side.
    apply fld_upd_same. destruct H0a as [H _]. by eapply fld_alloc.
  - unfold unlinked. rewrite !alloc_upd. destruct Hay as [H _]. by eapply fld_alloc.
  - unfold unlinked. rewrite !alloc_upd. destruct Hay as [_ H]. by eapply fld_alloc.
  - congruence.
Qed.

(** get on the key of the first entry changes nothing. *)
Lemma get_front s e L : Inv s (e :: L) → get (e_key e) s = Ok (e_value e, s).
Proof.
  intros HI. assert (e ∈ e :: L) as He by elems.
  destruct (inv_nodes _ _ HI e He) as [_ Hv]. unfold get.
  erewrite bind_Ok by (eapply cache_in_hit; eassumption). simpl.
  erewrite bind_Ok by (eapply cache_get_hit; eassumption).
  erewrite bind_Ok by (by eapply moveToFront_front).
  by apply get_prop_node.
Qed.

(** getContents reads the list only: it needs the sentinels and the links,
    not the index. *)
Lemma getContents_walk s L :
  head (this s) = VNode 0 → tail (this s) = VNode 1 →
  NoDup (path (addrs L)) → links (heap s) (path (addrs L)) →
  (∀ e, e ∈ L →
     fld (heap s) (e_addr e) Fkey = Some (VStr (e_key e)) ∧
     fld (heap s) (e_addr e) Fvalue = Some (e_value e)) →
  getContents s = Ok (contents L, s).
Proof.
  intros Hh Ht Hnd Hl Hn. unfold getContents.
  erewrite bind_Ok by reflexivity. rewrite Hh.
  pose proof Hl as Hl'. unfold path in Hl'.
  erewrite bind_Ok.
  2:{ apply get_prop_node. apply (links_hd _ _ _ 1 Hl'). by destruct (addrs L). }
  apply (getContents_loop_spec s L []).
  - assumption.
  - by apply links_tl in Hl'.
  - apply (NoDup_path_addrs _ Hnd).
  - assumption.
  - transitivity (length (heap s)); [|lia].
    rewrite <- (length_fmap e_addr). apply NoDup_bounded_length.
    + apply (NoDup_path_addrs _ Hnd).
    + intros x Hx. apply lookup_lt_is_Some.
      eapply links_alloc; [exact Hl| |].
      * unfold path. simpl. rewrite length_app. simpl. lia.
      * unfold path. right. apply elem_of_app. by left.
Qed.

Lemma removeLRU_empty s : Inv s [] → removeLRU s = Ok (VNull, s).
Proof.
  intros HI. destruct (inv_links _ _ HI) as [[_ Hprev] _].
  unfold removeLRU. erewrite bind_Ok by reflexivity. cbv beta.
  rewrite (inv_tail _ _ HI), (inv_head _ _ HI).
  erewrite bind_Ok by (apply get_prop_node; eassumption).
  reflexivity.
Qed.

Lemma removeLRU_last s L e :
  Inv s (L ++ [e]) →
  ∃ h', removeLRU s = Ok (VStr (e_key e), mkState h' (this s)) ∧
        same_data (heap s) h' ∧
        links h' (path (addrs L)).
Proof.
  intros HI. assert (e ∈ L ++ [e]) as He by elems.
  pose proof (inv_nodup _ _ HI) as Hnd. pose proof (inv_links _ _ HI) as Hl.
  rewrite addrs_app in Hnd, Hl. cbn [addrs fmap list_fmap] in Hnd, Hl.
  destruct (removeNode_path s _ _ _ Hnd Hl) as (h' & Hrm & Hl' & Hd).
  rewrite app_nil_r in Hl'.
  exists h'. split; [|split; assumption].
  unfold removeLRU. erewrite bind_Ok by reflexivity. cbv beta.
  rewrite (inv_tail _ _ HI), (inv_head _ _ HI).
  destruct (links_last _ _ _ Hl) as [_ Hprev].
  erewrite bind_Ok by (apply get_prop_node; eassumption).
  assert (strict_eq (VNode (e_addr e)) (VNode 0) = false) as ->.
  { apply bool_decide_false. intros [= H0].
    apply NoDup_path_addrs in Hnd as (_ & Hnd & _). apply Hnd.
    rewrite H0. elems. }
  erewrite bind_Ok by eassumption.
  apply get_prop_node. cbn [heap].
  destruct Hd as [_ Hd]. rewrite Hd by discriminate.
  by apply (inv_nodes _ _ HI).
Qed.

End Relinking.

(** * The callers of the cache *)

Section Callers.

Implicit Types (s : state) (L : list entry) (k : string) (v : val).

(** No property name of [Object.prototype] starts with [list_]. *)
Lemma pagination_own k : pagination (VStr k) = true → inherited k = false.
Proof.
  intros Hp. destruct (inherited k) eqn:Hk; [|reflexivity].
  unfold inherited in Hk. apply bool_decide_eq_true in Hk.
  unfold Object_prototype_keys in Hk.
  cbn [pagination] in Hp.
  repeat (apply elem_of_cons in Hk as [->|Hk]; [vm_compute in Hp; discriminate|]).
  by apply elem_of_nil in Hk.
Qed.

Lemma cacheKey_pagination page limit filter :
  pagination (VStr (wordRoute.cacheKey page limit filter)) = true.
Proof.
  unfold wordRoute.cacheKey. cbn [pagination]. simpl.
  by destruct (_ +:+ _).
Qed.

Lemma kept_contents L :
  kept (contents L)
  = contents (filter (λ e, pagination (VStr (e_key e)) = false) L).
Proof.
  unfold kept. induction L as [|e L IH]; [reflexivity|].
  change (contents (e :: L)) with ((VStr (e_key e), e_value e) :: contents L).
  destruct (pagination (VStr (e_key e))) eqn:Hp.
  - rewrite !filter_cons_False by (cbn [fst]; rewrite Hp; discriminate). exact IH.
  - rewrite !filter_cons_True by (cbn [fst]; by rewrite Hp).
    change (contents (e :: ?l)) with ((VStr (e_key e), e_value e) :: contents l).
    by rewrite IH.
Qed.

Lemma clear_item_page k v (b : bool) s s' :
  String.prefix "list_" k = true → delete k s = Ok (b, s') →
  wordRoute.clear_item (VStr k, v) s = Ok (tt, s').
Proof.
  intros Hp Hdel. unfold wordRoute.clear_item.
  cbn [fst wordRoute.startsWith ToPropertyKey].
  erewrite bind_Ok by reflexivity. rewrite Hp.
  erewrite bind_Ok by eassumption. reflexivity.
Qed.

Lemma clear_item_other k v s :
  String.prefix "list_" k = false →
  wordRoute.clear_item (VStr k, v) s = Ok (tt, s).
Proof.
  intros Hp. unfold wordRoute.clear_item.
  cbn [fst wordRoute.startsWith ToPropertyKey].
  erewrite bind_Ok by reflexivity. by rewrite Hp.
Qed.

(** The loop of [clearPaginationCache], on the entries that are left to
    visit: the pages of the listing are deleted, the other entries stay in
    their order. *)
Lemma clear_items s A B :
  Inv s (A ++ B) →
  ∃ s', forEach wordRoute.clear_item (contents B) s = Ok (tt, s') ∧
        Inv s' (A ++ filter (λ e, pagination (VStr (e_key e)) = false) B) ∧
        capacity (this s') = capacity (this s) ∧
        size (this s')
        = (size (this s)
           - (Z.of_nat (length B)
              - Z.of_nat (length (filter (λ e, pagination (VStr (e_key e)) = false) B))))%Z.
Proof.
  revert s A. induction B as [|e B IH]; intros s A HI.
  - exists s. split; [reflexivity|]. split; [assumption|]. split; [reflexivity|].
    simpl. lia.
  - change (contents (e :: B)) with ((VStr (e_key e), e_value e) :: contents B).
    cbn [forEach].
    destruct (String.prefix "list_" (e_key e)) eqn:Hp.
    + destruct (delete_hit _ _ _ _ HI) as (h' & Hdel & _ & HI1).
      erewrite bind_Ok by (eapply clear_item_page; eassumption).
      destruct (IH _ _ HI1) as (s' & Hrun & HI' & Hc & Hsz).
      exists s'. rewrite filter_cons_False by (cbn [pagination]; rewrite Hp; discriminate).
      split; [assumption|]. split; [assumption|]. split; [assumption|].
      rewrite Hsz. cbn [dropped this size length]. lia.
    + erewrite bind_Ok by (by apply clear_item_other).
      rewrite (cons_middle e A B), app_assoc in HI.
      destruct (IH _ _ HI) as (s' & Hrun & HI' & Hc & Hsz).
      exists s'. rewrite filter_cons_True by (cbn [pagination]; by rewrite Hp).
      rewrite <- app_assoc in HI'. split; [assumption|].
      split; [assumption|]. split; [assumption|].
      rewrite Hsz. cbn [length]. lia.
Qed.

Lemma clearPaginationCache_Inv s L :
  Inv s L →
  ∃ s', wordRoute.clearPaginationCache s = Ok (tt, s') ∧
        Inv s' (filter (λ e, pagination (VStr (e_key e)) = false) L) ∧
        capacity (this s') = capacity (this s) ∧
        size (this s')
        = (size (this s)
           - (Z.of_nat (length L)
              - Z.of_nat (length (filter (λ e, pagination (VStr (e_key e)) = false) L))))%Z.
Proof.
  intros HI. destruct (clear_items s [] L HI) as (s' & Hrun & HI' & Hc & Hsz).
  exists s'. split; [|done].
  unfold wordRoute.clearPaginationCache.
  erewrite bind_Ok by (by eapply getContents_Inv). assumption.
Qed.

(** Without a page of the listing in the cache, [clearPaginationCache]
    makes no call to delete. *)
Lemma clear_items_none s (c : list (val * val)) :
  Forall (λ item, ∃ k, item.1 = VStr k ∧ pagination (VStr k) = false) c →
  forEach wordRoute.clear_item c s = Ok (tt, s).
Proof.
  induction c as [|[x y] c IH]; [reflexivity|].
  intros [(k & Hk & Hp) Hc]%Forall_cons. cbn [forEach]. simpl in Hk. subst x.
  erewrite bind_Ok by (by apply clear_item_other). by apply IH.
Qed.

Lemma clearPaginationCache_none s L :
  Inv s L → Forall (λ e, pagination (VStr (e_key e)) = false) L →
  wordRoute.clearPaginationCache s = Ok (tt, s).
Proof.
  intros HI HL. unfold wordRoute.clearPaginationCache.
  erewrite bind_Ok by (by eapply getContents_Inv).
  apply clear_items_none. unfold contents. apply Forall_fmap.
  eapply Forall_impl; [exact HL|]. intros e He. simpl. eauto.
Qed.

(** After [clearPaginationCache], has is false on the keys of the pages. *)
Lemma has_pagination_filtered s L k :
  Inv s (filter (λ e, pagination (VStr (e_key e)) = false) L) →
  pagination (VStr k) = true → has k s = Ok (false, s).
Proof.
  intros HI Hp. rewrite (has_Inv _ _ _ HI), (pagination_own _ Hp).
  rewrite bool_decide_false; [reflexivity|].
  intros (e & -> & He)%list_elem_of_fmap.
  apply list_elem_of_filter in He as [He _]. congruence.
Qed.

(** The entries but the one of key [k], in a snapshot. *)
Lemma contents_without_none k L :
  k ∉ keys L → filter (λ item, item.1 ≠ VStr k) (contents L) = contents L.
Proof.
  induction L as [|e L IH]; [reflexivity|]. unfold keys. rewrite fmap_cons.
  intros [Hne Hk]%not_elem_of_cons.
  change (contents (e :: L)) with ((VStr (e_key e), e_value e) :: contents L).
  rewrite filter_cons_True by (cbn [fst]; congruence).
  f_equal. by apply IH.
Qed.

Lemma contents_without_mid L1 e L2 :
  e_key e ∉ keys L1 → e_key e ∉ keys L2 →
  filter (λ item, item.1 ≠ VStr (e_key e)) (contents (L1 ++ e :: L2))
  = contents (L1 ++ L2).
Proof.
  intros H1 H2. unfold contents at 1. rewrite fmap_app, fmap_cons.
  fold (contents L1). fold (contents L2).
  rewrite filter_app, filter_cons_False by (cbn [fst]; intros H; by apply H).
  rewrite !contents_without_none by assumption.
  unfold contents. by rewrite fmap_app.
Qed.

Lemma put_term_hit s L1 e L2 (w : val) :
  Inv s (L1 ++ e :: L2) → truthy w = true →
  ∃ s', wordRoute.put_term (e_key e) w s = Ok (200, s') ∧
        Inv s' (filter (λ e, pagination (VStr (e_key e)) = false)
                  (Entry (e_addr e) (e_key e) w :: L1 ++ L2)) ∧
        (size (this s') ≤ size (this s))%Z.
Proof.
  intros HI Hw. assert (e ∈ L1 ++ e :: L2) as He by elems.
  destruct (put_hit _ _ _ _ w HI) as (s1 & Hput & Hthis & HI1).
  destruct (clearPaginationCache_Inv _ _ HI1) as (s' & Hcl & HI' & _ & Hsz).
  exists s'. split; [|split; [assumption|]].
  - unfold wordRoute.put_term. rewrite Hw. cbn [negb].
    erewrite bind_Ok by (by eapply has_own).
    erewrite bind_Ok by eassumption.
    erewrite bind_Ok by eassumption. reflexivity.
  - rewrite Hsz, Hthis.
    pose proof (length_filter (λ e, pagination (VStr (e_key e)) = false)
                  (Entry (e_addr e) (e_key e) w :: L1 ++ L2)). lia.
Qed.

Lemma put_term_miss s L k (w : val) :
  Inv s L → has k s = Ok (false, s) → truthy w = true →
  ∃ s', wordRoute.put_term k w s = Ok (200, s') ∧
        Inv s' (filter (λ e, pagination (VStr (e_key e)) = false) L) ∧
        (size (this s') ≤ size (this s))%Z.
Proof.
  intros HI Hhas Hw.
  destruct (clearPaginationCache_Inv _ _ HI) as (s' & Hcl & HI' & _ & Hsz).
  exists s'. split; [|split; [assumption|]].
  - unfold wordRoute.put_term. rewrite Hw. cbn [negb].
    erewrite bind_Ok by eassumption.
    erewrite bind_Ok by reflexivity.
    erewrite bind_Ok by eassumption. reflexivity.
  - rewrite Hsz.
    pose proof (length_filter (λ e, pagination (VStr (e_key e)) = false) L). lia.
Qed.

End Callers.

(** * The server as a script of calls *)

Section Server.

Implicit Types (s : state) (L : list entry) (k : string) (v : val).

Lemma run_app ops1 ops2 s outs1 s1 outs2 s2 :
  run ops1 s = Ok (outs1, s1) → run ops2 s1 = Ok (outs2, s2) →
  run (ops1 ++ ops2) s = Ok (outs1 ++ outs2, s2).
Proof.
  revert s outs1. induction ops1 as [|o ops1 IH]; intros s outs1 H1 H2.
  - injection H1 as <- <-. exact H2.
  - apply run_cons_Ok in H1 as (out & s' & outs' & Hcall & Hrun & ->).
    rewrite <- !app_comm_cons. cbn [run].
    erewrite bind_Ok by eassumption.
    erewrite bind_Ok by (by eapply IH). reflexivity.
Qed.

Lemma scripted_ret {A} (u : A) : scripted (ret u).
Proof. intros s u' s' [= <- <-]. exists [], []. by split. Qed.

Lemma scripted_bind {A B} (c : M A) (f : A → M B) :
  scripted c → (∀ u, scripted (f u)) → scripted (bind c f).
Proof.
  intros Hc Hf s b s' (u & s1 & H1 & H2)%bind_inv.
  destruct (Hc _ _ _ H1) as (ops1 & outs1 & Hr1 & Ht1).
  destruct (Hf u _ _ _ H2) as (ops2 & outs2 & Hr2 & Ht2).
  exists (ops1 ++ ops2), (outs1 ++ outs2).
  split; [by eapply run_app | by apply Forall_app].
Qed.

Lemma scripted_call {A} (c : M A) (o : op) (f : A → output) :
  call o = bind c (λ u, ret (f u)) → stores_truthy o → scripted c.
Proof.
  intros Hcall Ho s u s' Hc. exists [o], [f u]. split; [|by repeat constructor].
  cbn [run]. rewrite Hcall. erewrite bind_Ok; cycle 1.
  { erewrite bind_Ok by eassumption. reflexivity. }
  reflexivity.
Qed.

Lemma scripted_get k : scripted (get k).
Proof. by apply (scripted_call _ (Get k) OValue). Qed.

Lemma scripted_put k v : truthy v = true → scripted (put k v).
Proof. intros Hv. by apply (scripted_call _ (Put k v) (λ _, OUnit)). Qed.

Lemma scripted_delete k : scripted (delete k).
Proof. by apply (scripted_call _ (Delete k) OBool). Qed.

Lemma scripted_has k : scripted (has k).
Proof. by apply (scripted_call _ (Has k) OBool). Qed.

Lemma scripted_getContents : scripted getContents.
Proof. by apply (scripted_call _ GetContents OContents). Qed.

Lemma scripted_clear : scripted clear.
Proof. by apply (scripted_call _ Clear (λ _, OUnit)). Qed.

Lemma scripted_forEach {A} (f : A → M unit) (l : list A) :
  (∀ x, scripted (f x)) → scripted (forEach f l).
Proof.
  intros Hf. induction l as [|x l IH]; cbn [forEach].
  - apply scripted_ret.
  - apply scripted_bind; [apply Hf | intros _; exact IH].
Qed.

Lemma scripted_startsWith (x : val) (p : string) :
  scripted (wordRoute.startsWith x p).
Proof. destruct x; try (by intros ? ? ? [=]). apply scripted_ret. Qed.

Lemma scripted_clearPaginationCache : scripted wordRoute.clearPaginationCache.
Proof.
  apply scripted_bind; [apply scripted_getContents|]. intros c.
  apply scripted_forEach. intros item. apply scripted_bind.
  - apply scripted_startsWith.
  - intros [|]; [|apply scripted_ret].
    apply scripted_bind; [apply scripted_delete | intros _; apply scripted_ret].
Qed.

Lemma scripted_cached k : scripted (wordRoute.cached k).
Proof.
  apply scripted_bind; [apply scripted_get | intros x; apply scripted_ret].
Qed.

(** Every piece of a handler does what some calls do, and the payloads it
    stores are truthy: a document is stored after the test that it is
    there, and the page of a listing is an object. *)
Lemma scripted_serve (r : request) : scripted (serve r).
Proof.
  destruct r; cbn [serve];
    (apply scripted_bind; [|intros _; apply scripted_ret]).
  - apply scripted_cached.
  - unfold wordRoute.get_term_fetched. destruct (truthy word) eqn:Hw; cbn [negb].
    + apply scripted_bind; [by apply scripted_put | intros _; apply scripted_ret].
    + apply scripted_ret.
  - apply scripted_cached.
  - apply scripted_bind; [by apply scripted_put | intros _; apply scripted_ret].
  - apply scripted_bind;
      [apply scripted_clearPaginationCache | intros _; apply scripted_ret].
  - unfold wordRoute.put_term.
    destruct (truthy updatedWord) eqn:Hw; cbn [negb]; [|apply scripted_ret].
    apply scripted_bind; [apply scripted_has|]. intros b.
    apply scripted_bind.
    { destruct b; [by apply scripted_put | apply scripted_ret]. }
    intros _. apply scripted_bind;
      [apply scripted_clearPaginationCache | intros _; apply scripted_ret].
  - unfold wordRoute.delete_term.
    destruct (truthy deletedWord) eqn:Hw; cbn [negb]; [|apply scripted_ret].
    apply scripted_bind; [apply scripted_delete|]. intros _.
    apply scripted_bind;
      [apply scripted_clearPaginationCache | intros _; apply scripted_ret].
  - apply scripted_bind; [apply scripted_getContents | intros c; apply scripted_ret].
  - apply scripted_bind; [apply scripted_get|]. intros x.
    destruct (negb (truthy x)); apply scripted_ret.
  - apply scripted_bind; [apply scripted_clear | intros _; apply scripted_ret].
Qed.

(** The states of the server are states of scripts of calls on a cache of
    capacity 100, with truthy payloads only. *)
Lemma server_script requests s :
  server requests = Ok (tt, s) →
  ∃ ops outs, session 100 ops = Ok (outs, s) ∧ Forall stores_truthy ops.
Proof.
  unfold server, wordRoute.wordCache. rewrite constructor_fresh.
  intros H. apply (scripted_forEach serve requests scripted_serve) in H.
  destruct H as (ops & outs & Hrun & Ht). exists ops, outs.
  by rewrite session_run.
Qed.

Lemma Forall_removelast {A} (P : A → Prop) (l : list A) :
  Forall P l → Forall P (removelast l).
Proof.
  induction 1 as [|x l Hx Hl IH]; [constructor|].
  destruct l; [constructor|]. simpl. constructor; assumption.
Qed.

(** A script that stores truthy payloads only holds truthy payloads
    only. *)
Lemma truthy_session cap ops outs s :
  Forall stores_truthy ops → session cap ops = Ok (outs, s) →
  ∃ L, Inv s L ∧ capacity (this s) = cap ∧
       Forall (λ e, truthy (e_value e) = true) L.
Proof.
  intros Hops Hs.
  destruct (session_preserves cap (λ m, Forall (λ e, truthy e.2 = true) m.2)
              stores_truthy) with (ops := ops) (outs := outs) (s := s)
    as (L & HI & Hcap & HP); [constructor | | assumption | assumption |].
  { clear. intros [sz c] o Ho _ HP. cbn [fst snd] in *.
    assert (∀ k, Forall (λ e : string * val, truthy e.2 = true) (Spec.remove k c))
      as Hrem.
    { intros k. apply Forall_forall. intros e [_ He]%list_elem_of_filter.
      by apply (proj1 (Forall_forall _ _) HP). }
    destruct o as [k|k v|k|k| |]; cbn [Model.step fst snd];
      unfold Model.put; cbn [fst snd].
    - destruct (Spec.lookup k c) as [x|] eqn:Hl; cbn [fst snd]; [|assumption].
      constructor; [|apply Hrem].
      apply Spec_lookup_elem in Hl. by apply (proj1 (Forall_forall _ _) HP (k, x)).
    - destruct (Spec.lookup k c) as [x|] eqn:Hl; cbn [fst snd].
      + constructor; [exact Ho | apply Hrem].
      + destruct (bool_decide _); cbn [fst snd]; constructor;
          first [exact Ho | by apply Forall_removelast | assumption].
    - destruct (Spec.lookup k c) as [x|] eqn:Hl; cbn [fst snd];
        [apply Hrem | assumption].
    - assumption.
    - assumption.
    - constructor. }
  exists L. split; [assumption|]. split; [assumption|].
  unfold model, abs in HP. cbn [snd] in HP. by apply Forall_fmap in HP.
Qed.

(** With truthy payloads only, the test [if (cachedWord)] of the handlers
    is the test that the key is in the cache. *)
Lemma cached_exact s L k :
  Inv s L → Forall (λ e, truthy (e_value e) = true) L → inherited k = false →
  ∃ r s', wordRoute.cached k s = Ok (r, s') ∧
          (is_Some r ↔ has k s = Ok (true, s)) ∧
          (r = None → s' = s).
Proof.
  intros HI Ht Hk. destruct (decide (k ∈ keys L)) as [Hin|Hout].
  - destruct (keys_split L k (inv_NoDup_keys _ _ HI) Hin)
      as (L1 & e & L2 & -> & <- & H1 & H2).
    assert (e ∈ L1 ++ e :: L2) as He by elems.
    destruct (get_hit _ _ _ _ HI) as (s' & Hget & _).
    exists (Some (e_value e)), s'. split; [|split; [|discriminate]].
    + unfold wordRoute.cached. erewrite bind_Ok by eassumption.
      by rewrite (proj1 (Forall_forall _ _) Ht e He).
    + split; [intros _; by eapply has_own | eauto].
  - pose proof (not_throws_miss _ _ _ HI Hk Hout) as Hhas.
    exists None, s. split; [|split; [|reflexivity]].
    + unfold wordRoute.cached. erewrite bind_Ok by (by apply get_miss).
      reflexivity.
    + rewrite Hhas. split; [by intros [? ?] | discriminate].
Qed.

End Server.

Section Served.

Implicit Types (s : state) (L : list entry) (k : string) (v : val).

(** A piece on a term of its own returns, in a state that holds some
    entries. *)
Lemma serve_Inv (r : request) s L :
  Inv s L → request_own r = true →
  ∃ s' L', serve r s = Ok (tt, s') ∧ Inv s' L'.
Proof.
  intros HI Hr.
  assert (∀ k, inherited k = false →
            ∃ r s' L', wordRoute.cached k s = Ok (r, s') ∧ Inv s' L') as Hcached.
  { intros k Hk. destruct (get_models _ _ _ HI Hk) as (x & s' & L' & Hget & HI' & _).
    eexists _, s', L'. split; [|exact HI'].
    unfold wordRoute.cached. erewrite bind_Ok by eassumption. reflexivity. }
  destruct r as [term|term word|page limit filter|page limit filter result|
                 |term w|term d| |term|]; cbn [serve request_own] in *;
    try apply negb_true_iff in Hr.
  - destruct (Hcached _ Hr) as (r & s' & L' & Hc & HI').
    exists s', L'. split; [|assumption]. erewrite bind_Ok by eassumption. reflexivity.
  - unfold wordRoute.get_term_fetched. destruct (truthy word); cbn [negb].
    + destruct (put_models _ _ term word HI Hr) as (s' & L' & Hput & HI' & _).
      exists s', L'. split; [|assumption].
      erewrite bind_Ok; cycle 1.
      { erewrite bind_Ok by eassumption. reflexivity. }
      reflexivity.
    + exists s, L. done.
  - destruct (Hcached _ (pagination_own _ (cacheKey_pagination page limit filter)))
      as (r & s' & L' & Hc & HI').
    exists s', L'. split; [|assumption]. erewrite bind_Ok by eassumption. reflexivity.
  - destruct (put_models _ _ (wordRoute.cacheKey page limit filter) (VObject result) HI
                (pagination_own _ (cacheKey_pagination page limit filter)))
      as (s' & L' & Hput & HI' & _).
    exists s', L'. split; [|assumption]. unfold wordRoute.get_list_fetched.
    erewrite bind_Ok; cycle 1.
    { erewrite bind_Ok by eassumption. reflexivity. }
    reflexivity.
  - destruct (clearPaginationCache_Inv _ _ HI) as (s' & Hcl & HI' & _).
    eexists s', _. split; [|exact HI']. unfold wordRoute.post_saved.
    erewrite bind_Ok; cycle 1.
    { erewrite bind_Ok by eassumption. reflexivity. }
    reflexivity.
  - destruct (truthy w) eqn:Hw.
    + destruct (decide (term ∈ keys L)) as [Hin|Hout].
      * destruct (keys_split L term (inv_NoDup_keys _ _ HI) Hin)
          as (L1 & e & L2 & -> & <- & H1 & H2).
        destruct (put_term_hit _ _ _ _ w HI Hw) as (s' & Hput & HI' & _).
        eexists s', _. split; [|exact HI'].
        erewrite bind_Ok by eassumption. reflexivity.
      * pose proof (not_throws_miss _ _ _ HI Hr Hout) as Hhas.
        destruct (put_term_miss _ _ _ w HI Hhas Hw) as (s' & Hput & HI' & _).
        eexists s', _. split; [|exact HI'].
        erewrite bind_Ok by eassumption. reflexivity.
    + exists s, L. split; [|assumption]. unfold wordRoute.put_term. by rewrite Hw.
  - unfold wordRoute.delete_term. destruct (truthy d); cbn [negb].
    + destruct (delete_models _ _ _ HI Hr) as (b & s1 & L1 & Hdel & HI1 & _).
      destruct (clearPaginationCache_Inv _ _ HI1) as (s' & Hcl & HI' & _).
      eexists s', _. split; [|exact HI'].
      erewrite bind_Ok; cycle 1.
      { erewrite bind_Ok by eassumption. erewrite bind_Ok by eassumption.
        reflexivity. }
      reflexivity.
    + exists s, L. done.
  - exists s, L. split; [|assumption]. unfold cacheRoute.get_all.
    erewrite bind_Ok; cycle 1.
    { erewrite bind_Ok by (by eapply getContents_Inv). reflexivity. }
    reflexivity.
  - destruct (get_models _ _ _ HI Hr) as (x & s' & L' & Hget & HI' & _).
    exists s', L'. split; [|assumption]. unfold cacheRoute.get_term.
    destruct (truthy x) eqn:Hx.
    all: erewrite bind_Ok; [reflexivity|].
    all: erewrite bind_Ok by eassumption; rewrite Hx; reflexivity.
  - destruct (clear_Inv _ _ HI) as [Hcl HI'].
    exists (cleared s), []. split; [|assumption]. unfold cacheRoute.delete_all.
    erewrite bind_Ok; cycle 1.
    { erewrite bind_Ok by eassumption. reflexivity. }
    reflexivity.
Qed.

Lemma serve_all_Inv (requests : list request) s L :
  Inv s L → Forall (λ r, request_own r = true) requests →
  ∃ s' L', forEach serve requests s = Ok (tt, s') ∧ Inv s' L'.
Proof.
  revert s L. induction requests as [|r requests IH]; intros s L HI Hr.
  - exists s, L. done.
  - apply Forall_cons in Hr as [Hr Hrs].
    destruct (serve_Inv _ _ _ HI Hr) as (s1 & L1 & H1 & HI1).
    destruct (IH _ _ HI1 Hrs) as (s' & L' & H' & HI').
    exists s', L'. split; [|assumption]. cbn [forEach].
    erewrite bind_Ok by eassumption. assumption.
Qed.

End Served.

(** * The properties of the specification *)

(** C1 (capacity invariant), on the code.  After [new LRUCache(cap)] with
    [cap ≥ 1] and any sequence of calls of get, put, delete, has,
    getContents and clear: the sequence returns when no call is get, put or
    delete on a property name of [Object.prototype], and throws when one
    is; in every state it reaches, [size] is the number of keys of the
    index and the number of nodes getContents walks through between the
    sentinels, and is at most the capacity.  Moreover, when [size] equals
    the capacity, a put of a key that is not in the index does one of two
    things.  When the key is no property name of [Object.prototype], it
    first evicts one entry, the least recently used one (the last that
    getContents lists), and then inserts the new entry in front: the size
    is [cap - 1] in between and [cap] afterwards.  When the key is such a
    name, has answers true on it although the index does not hold it, and
    put throws: nothing is evicted and nothing inserted. *)
Theorem capacity_invariant (cap : Z) (ops : list op) :
  (1 ≤ cap)%Z →
  (Forall (λ o, op_throws o = false) ops →
   ∃ outs s, session cap ops = Ok (outs, s)) ∧
  (Exists (λ o, op_throws o = true) ops →
   session cap ops = Throw TypeError) ∧
  ∀ outs s, session cap ops = Ok (outs, s) →
    capacity (this s) = cap ∧
    (size (this s) ≤ cap)%Z ∧
    size (this s) = Z.of_nat (base.size (cache (this s))) ∧
    (∃ c, getContents s = Ok (c, s) ∧ size (this s) = Z.of_nat (length c)) ∧
    (size (this s) = cap →
     ∀ k v, cache (this s) !! k = None →
       (inherited k = false →
        ∃ c lru s1 s',
          getContents s = Ok (c ++ [lru], s) ∧
          evict_block s = Ok (tt, s1) ∧
          getContents s1 = Ok (c, s1) ∧
          size (this s1) = (cap - 1)%Z ∧
          insert_block k v s1 = Ok (tt, s') ∧
          put k v s = Ok (tt, s') ∧
          getContents s' = Ok ((VStr k, v) :: c, s') ∧
          size (this s') = cap) ∧
       (inherited k = true →
        has k s = Ok (true, s) ∧ put k v s = Throw TypeError)).
Proof.
  intros Hcap. split; [apply session_returns|]. split.
  { intros Hex. rewrite session_run. exact (run_throws _ _ _ (fresh_Inv cap) Hex). }
  intros outs s Hrun.
  destruct (session_simulates _ _ _ _ Hcap Hrun) as (L & HI & (_ & Hsz & Hle) & Hc & _).
  split; [assumption|]. split; [lia|]. split; [|split].
  - by rewrite (index_size _ _ HI).
  - exists (contents L). split; [by apply getContents_Inv|].
    unfold contents. by rewrite length_fmap.
  - intros Hfull k v Hmiss. split.
    + intros Hown.
      pose proof (index_miss_keys _ _ _ HI Hmiss) as Hk.
      assert (has k s = Ok (false, s)) as Hhas
        by (by rewrite (has_index_miss _ _ Hmiss), Hown).
      destruct L as [|e L _] using rev_ind; [simpl in Hsz; lia|].
      assert (size (this s) = capacity (this s)) as Heq by congruence.
      destruct (evict_last _ _ _ HI Heq) as (h' & Hev & Hd & HI1).
      assert (k ∉ keys L) as Hk0.
      { intros H. apply Hk. unfold keys in *. rewrite fmap_app.
        apply elem_of_app. by left. }
      destruct (insert_Inv _ _ k v HI1 Hk0 Hown) as (s' & Hins & HI' & Hc' & Hs' & _).
      exists (contents L), (VStr (e_key e), e_value e),
        (dropped (e_key e) h' (this s)), s'.
      split; [|split; [|split; [|split; [|split; [|split; [|split]]]]]].
      * rewrite (getContents_Inv _ _ HI). unfold contents. by rewrite fmap_app.
      * assumption.
      * by apply getContents_Inv.
      * simpl. lia.
      * assumption.
      * rewrite put_miss by assumption. by erewrite bind_Ok by eassumption.
      * by rewrite (getContents_Inv _ _ HI').
      * rewrite Hs'. simpl. lia.
    + intros Hinh. split.
      * by rewrite (has_index_miss _ _ Hmiss), Hinh.
      * by apply put_inherited.
Qed.

(** On a cache of capacity 2 holding two entries, a put of a third key
    evicts the older one, and a put of the key [toString], which the cache
    does not hold either, throws. *)
Lemma capacity_invariant_witness :
  (1 ≤ 2)%Z ∧
  ∃ outs s, session 2 [Put "a" (VNum 1); Put "b" (VNum 2)] = Ok (outs, s) ∧
            size (this s) = 2%Z ∧
            (∃ s', put "c" (VNum 3) s = Ok (tt, s') ∧
                   getContents s' = Ok ([(VStr "c", VNum 3); (VStr "b", VNum 2)], s') ∧
                   size (this s') = 2%Z) ∧
            cache (this s) !! "toString" = None ∧
            has "toString" s = Ok (true, s) ∧
            put "toString" (VNum 3) s = Throw TypeError.
Proof.
  split; [lia|].
  destruct (capacity_invariant 2 [Put "a" (VNum 1); Put "b" (VNum 2)]) as (_ & _ & H);
    [lia|].
  eexists _, _. split; [vm_compute; reflexivity|].
  split; [reflexivity|].
  edestruct H as (_ & _ & _ & _ & Hev); [vm_compute; reflexivity|].
  clear H. specialize (Hev eq_refl).
  pose proof (Hev "c" (VNum 3)) as Hnew. by_computation Hnew.
  destruct Hnew as [Hnew _]. by_computation Hnew.
  pose proof (Hev "toString" (VNum 3)) as Hinh. by_computation Hinh.
  destruct Hinh as [_ Hinh]. by_computation Hinh.
  clear Hev. split; [|split; [vm_compute; reflexivity | exact Hinh]].
  destruct Hnew as (c & lru & s1 & s' & Hc & _ & _ & _ & _ & Hput & Hc' & Hsz).
  exists s'. split; [exact Hput|]. split; [|exact Hsz].
  rewrite Hc'. clear -Hc. vm_compute in Hc. injection Hc as Hc.
  change ([(VStr "b", VNum 2)] ++ [(VStr "a", VNum 1)] = c ++ [lru]) in Hc.
  apply app_inj_tail in Hc as [<- _]. reflexivity.
Defined.

(** C2 (eviction order), as the code has it.  On a new cache of capacity
    [N ≥ 1], [N + 1] puts of distinct keys, none of them a property name of
    [Object.prototype], evict the first key and no other: getContents
    lists the [N] others, the last put first.  When [N ≥ 2] and a get of
    the first key comes before the last put, the first key stays and the
    second one is evicted.  With capacity 2, put(a,1), put(b,2), get(a),
    put(c,3) leaves getContents() = [{c,3},{a,1}]. *)
Theorem eviction_order (kvs : list (string * val)) (k0 : string) (v0 : val)
    (kN : string) (vN : val) :
  NoDup (k0 :: kvs.*1 ++ [kN]) →
  Forall (λ k, inherited k = false) (k0 :: kvs.*1 ++ [kN]) →
  (∃ outs s,
     session (Z.of_nat (S (length kvs)))
       (Put k0 v0 :: puts kvs ++ [Put kN vN]) = Ok (outs, s) ∧
     getContents s = Ok (js_entries ((kN, vN) :: reverse kvs), s) ∧
     has k0 s = Ok (false, s)) ∧
  (∀ k1 v1 kvs', kvs = (k1, v1) :: kvs' →
   ∃ outs s,
     session (Z.of_nat (S (length kvs)))
       (Put k0 v0 :: puts kvs ++ [Get k0; Put kN vN]) = Ok (outs, s) ∧
     getContents s = Ok (js_entries ((kN, vN) :: (k0, v0) :: reverse kvs'), s) ∧
     has k0 s = Ok (true, s) ∧
     has k1 s = Ok (false, s)) ∧
  (∃ outs s,
     session 2 [Put "a" (VNum 1); Put "b" (VNum 2); Get "a"; Put "c" (VNum 3)]
       = Ok (outs, s) ∧
     getContents s = Ok ([(VStr "c", VNum 3); (VStr "a", VNum 1)], s)).
Proof.
  intros Hnd Hown.
  assert (NoDup ((k0, v0) :: kvs).*1 ∧ (kN ∉ ((k0, v0) :: kvs).*1)) as [Hnd0 HkN].
  { rewrite fmap_cons. cbn [fst]. rewrite app_comm_cons in Hnd.
    apply NoDup_app in Hnd as (H1 & H2 & _). split; [assumption|].
    intros H. apply (H2 _ H). by left. }
  assert (Forall (λ o, op_throws o = false) (puts ((k0, v0) :: kvs))) as Hputs.
  { apply op_throws_puts. rewrite fmap_cons. cbn [fst].
    rewrite app_comm_cons, Forall_app in Hown. apply Hown. }
  assert (inherited k0 = false) as Hown0.
  { rewrite Forall_cons in Hown. apply Hown. }
  assert (inherited kN = false) as HownN.
  { rewrite app_comm_cons, Forall_app, Forall_singleton in Hown. apply Hown. }
  assert ((Spec.run (Z.of_nat (S (length kvs))) (puts ((k0, v0) :: kvs)) []).2
          = reverse kvs ++ [(k0, v0)]) as Hfill.
  { rewrite Spec_run_puts; [by rewrite app_nil_r, reverse_cons|assumption| |].
    - intros k _. apply not_elem_of_nil.
    - simpl. lia. }
  split; [|split].
  - destruct (session_spec (Z.of_nat (S (length kvs)))
                (puts ((k0, v0) :: kvs) ++ [Put kN vN])) as (outs & s & Hrun & Hc & Hhas).
    { lia. }
    { rewrite Forall_app, Forall_singleton. by split. }
    rewrite Spec_run_app, Hfill in Hc, Hhas.
    cbn [Spec.run Spec.step snd] in Hc, Hhas.
    assert (Spec.put (Z.of_nat (S (length kvs))) kN vN (reverse kvs ++ [(k0, v0)])
            = (kN, vN) :: reverse kvs) as Hput.
    { apply Spec_put_full.
      - rewrite <- reverse_cons, fmap_reverse, elem_of_reverse. exact HkN.
      - rewrite length_app, length_reverse. simpl. lia. }
    rewrite Hput in Hc, Hhas.
    exists outs, s. split; [exact Hrun|]. split; [exact Hc|].
    rewrite Hhas, Hown0. rewrite bool_decide_false; [done|].
    rewrite fmap_cons, fmap_reverse, elem_of_cons, elem_of_reverse. cbn [fst].
    apply NoDup_cons in Hnd as [Hk0 _]. revert Hk0. elems.
  - intros k1 v1 kvs' ->.
    destruct (session_spec (Z.of_nat (S (length ((k1, v1) :: kvs'))))
                (puts ((k0, v0) :: (k1, v1) :: kvs') ++ [Get k0; Put kN vN]))
      as (outs & s & Hrun & Hc & Hhas).
    { lia. }
    { rewrite Forall_app. split; [assumption|].
      rewrite Forall_cons in Hown. repeat constructor; [apply Hown | assumption]. }
    assert (k0 ∉ ((k1, v1) :: kvs').*1) as Hk0.
    { rewrite fmap_cons, NoDup_cons in Hnd0. apply Hnd0. }
    assert (k1 ≠ k0 ∧ k1 ≠ kN ∧ k1 ∉ kvs'.*1) as (H10 & H1N & H1).
    { rewrite fmap_cons, <- app_comm_cons, !NoDup_cons in Hnd. cbn [fst] in Hnd.
      destruct Hnd as (Ha & Hb & _). revert Ha Hb. elems. }
    rewrite Spec_run_app, Hfill in Hc, Hhas.
    cbn [Spec.run Spec.step] in Hc, Hhas.
    rewrite Spec_get_last in Hc, Hhas by (by rewrite fmap_reverse, elem_of_reverse).
    cbn [snd] in Hc, Hhas.
    rewrite reverse_cons in Hc, Hhas.
    rewrite (app_comm_cons (reverse kvs') [(k1, v1)] (k0, v0)) in Hc, Hhas.
    assert (Spec.put (Z.of_nat (S (length ((k1, v1) :: kvs')))) kN vN
              (((k0, v0) :: reverse kvs') ++ [(k1, v1)])
            = (kN, vN) :: (k0, v0) :: reverse kvs') as Hput.
    { apply Spec_put_full.
      - rewrite !fmap_cons in HkN. cbn [fst] in HkN.
        rewrite fmap_app, !fmap_cons, fmap_reverse. cbn [fst].
        rewrite elem_of_app, elem_of_cons, elem_of_reverse.
        revert HkN. elems.
      - rewrite length_app. simpl. rewrite length_reverse. lia. }
    rewrite Hput in Hc, Hhas.
    exists outs, s. split; [exact Hrun|]. split; [exact Hc|]. split.
    + rewrite Hhas. rewrite bool_decide_true; [done|]. cbn. elems.
    + rewrite Hhas.
      assert (inherited k1 = false) as ->.
      { rewrite fmap_cons, <- app_comm_cons, !Forall_cons in Hown. apply Hown. }
      rewrite bool_decide_false; [done|].
      rewrite !fmap_cons, fmap_reverse, !elem_of_cons, elem_of_reverse. cbn [fst].
      tauto.
  - eexists _, _. split; vm_compute; reflexivity.
Qed.

(** The example of the specification lists the entries in the other order,
    and on a cache of capacity 1 a get does not spare the only key.  With
    a property name of [Object.prototype] among the keys, the puts do not
    even return. *)
Lemma eviction_order_counterexample :
  outputs (session 2 [Put "a" (VNum 1); Put "b" (VNum 2); Get "a";
                      Put "c" (VNum 3); GetContents])
  = Some [OUnit; OUnit; OValue (VNum 1); OUnit;
          OContents [(VStr "c", VNum 3); (VStr "a", VNum 1)]] ∧
  [(VStr "c", VNum 3); (VStr "a", VNum 1)]
  ≠ [(VStr "a", VNum 1); (VStr "c", VNum 3)] ∧
  outputs (session 1 [Put "a" (VNum 1); Get "a"; Put "b" (VNum 2);
                      Has "a"; GetContents])
  = Some [OUnit; OValue (VNum 1); OUnit; OBool false;
          OContents [(VStr "b", VNum 2)]] ∧
  session 1 [Put "toString" (VNum 1); Put "b" (VNum 2)] = Throw TypeError.
Proof.
  split; [|split; [|split]];
    [vm_compute; reflexivity | discriminate | vm_compute; reflexivity
    | vm_compute; reflexivity].
Qed.

Lemma eviction_order_witness :
  NoDup ("a" :: [("b", VNum 2)].*1 ++ ["c"]) ∧
  Forall (λ k, inherited k = false) ("a" :: [("b", VNum 2)].*1 ++ ["c"]) ∧
  ∃ outs s,
    session 2 [Put "a" (VNum 1); Put "b" (VNum 2); Put "c" (VNum 3)] = Ok (outs, s) ∧
    getContents s = Ok ([(VStr "c", VNum 3); (VStr "b", VNum 2)], s) ∧
    has "a" s = Ok (false, s).
Proof.
  assert (NoDup ("a" :: [("b", VNum 2)].*1 ++ ["c"])) as Hnd.
  { apply (bool_decide_unpack _). vm_compute. exact I. }
  assert (Forall (λ k, inherited k = false) ("a" :: [("b", VNum 2)].*1 ++ ["c"])) as Hown.
  { repeat constructor. }
  split; [exact Hnd|]. split; [exact Hown|].
  exact (proj1 (eviction_order [("b", VNum 2)] "a" (VNum 1) "c" (VNum 3) Hnd Hown)).
Defined.

(** C3 (recency ordering).  In every state reached on a cache of capacity
    at least 1, getContents returns, and returns the entries of the
    specification's engine after the same calls, as objects with the fields
    [key] and [value]: [size] of them, with distinct keys, each key touched
    by some get or put and each entry touched later than the ones listed
    after it.  The state after the walk is the state before it.  When the
    calls are on keys of their own, each of them has returned what the
    specification's engine returns. *)
Theorem getContents_recency (cap : Z) (ops : list op) (outs : list output)
    (s : state) :
  (1 ≤ cap)%Z → session cap ops = Ok (outs, s) →
  ∃ c : list (string * val),
    getContents s = Ok (js_entries c, s) ∧
    Z.of_nat (length (js_entries c)) = size (this s) ∧
    c = (Spec.run cap ops []).2 ∧
    NoDup c.*1 ∧
    by_recency ops c ∧
    (Forall (λ o, op_own o = true) ops →
     outs = js_output <$> (Spec.run cap ops []).1).
Proof.
  intros Hcap Hrun.
  destruct (session_simulates _ _ _ _ Hcap Hrun)
    as (L & HI & (_ & Hsz & _) & _ & Habs & Houts).
  exists (abs L). split; [|split; [|split; [|split; [|split]]]].
  - rewrite js_entries_abs. by apply getContents_Inv.
  - unfold js_entries. by rewrite length_fmap, length_abs.
  - assumption.
  - rewrite <- keys_abs. by eapply inv_NoDup_keys.
  - rewrite Habs. apply by_recency_run.
  - assumption.
Qed.

Lemma getContents_recency_witness :
  (1 ≤ 2)%Z ∧
  ∃ outs s,
    session 2 [Put "a" (VNum 1); Put "b" (VNum 2); Get "a"] = Ok (outs, s) ∧
    getContents s = Ok ([(VStr "a", VNum 1); (VStr "b", VNum 2)], s) ∧
    size (this s) = 2%Z ∧
    more_recent [Put "a" (VNum 1); Put "b" (VNum 2); Get "a"] "a" "b".
Proof.
  split; [lia|]. eexists _, _. split; [vm_compute; reflexivity|].
  edestruct (getContents_recency 2 [Put "a" (VNum 1); Put "b" (VNum 2); Get "a"])
    as (c & Hc & Hsz & -> & _ & [_ Hsorted] & _); [lia | vm_compute; reflexivity |].
  split; [exact Hc|]. split; [reflexivity|].
  apply StronglySorted_cons in Hsorted as [Hfirst _].
  apply Forall_cons in Hfirst as [Hab _]. exact Hab.
Defined.

(** C4 (result of get), as the code has it.  In every state a script
    reaches: get on a key for which has is false returns [undefined] and
    changes nothing; get on a key that getContents lists returns the
    payload listed with it; so the two results differ whenever the stored
    payload is not [undefined] itself, as for the payloads null, false, 0
    and the empty string. *)
Theorem get_result (cap : Z) (ops : list op) (outs : list output) (s : state) :
  session cap ops = Ok (outs, s) →
  (∀ k, has k s = Ok (false, s) → get k s = Ok (VUndefined, s)) ∧
  (∀ k v c, getContents s = Ok (c, s) → (VStr k, v) ∈ c →
     ∃ s', get k s = Ok (v, s')) ∧
  (∀ k v c k', getContents s = Ok (c, s) → (VStr k, v) ∈ c →
     has k' s = Ok (false, s) → v ≠ VUndefined →
     returned (get k s) ≠ returned (get k' s)) ∧
  Forall (λ v, v ≠ VUndefined) [VNull; VBool false; VNum 0; VStr ""].
Proof.
  intros Hrun. destruct (session_Inv _ _ _ _ Hrun) as (L & HI & _).
  assert (∀ k v c, getContents s = Ok (c, s) → (VStr k, v) ∈ c →
            ∃ s', get k s = Ok (v, s')) as Hhit.
  { intros k v c Hc Hin. apply (getContents_inv _ _ _ _ HI) in Hc as [-> _].
    apply list_elem_of_split in Hin as (c1 & c2 & Hc).
    apply contents_split in Hc as (L1 & e & L2 & -> & _ & _ & <- & <-).
    destruct (get_hit _ _ _ _ HI) as (s' & Hget & _). eauto. }
  split; [|split; [|split]].
  - intros k. apply get_miss.
  - exact Hhit.
  - intros k v c k' Hc Hin Hmiss Hv.
    destruct (Hhit k v c Hc Hin) as (s' & ->).
    rewrite (get_miss _ _ Hmiss). simpl. congruence.
  - repeat constructor; discriminate.
Qed.

Lemma get_result_witness :
  ∃ outs s,
    session 2 [Put "a" (VNum 0)] = Ok (outs, s) ∧
    get "b" s = Ok (VUndefined, s) ∧
    returned (get "a" s) ≠ returned (get "b" s).
Proof.
  eexists _, _. split; [vm_compute; reflexivity|].
  edestruct (get_result 2 [Put "a" (VNum 0)]) as (Hmiss & _ & Hdiff & _);
    [vm_compute; reflexivity|].
  split.
  - apply Hmiss. vm_compute. reflexivity.
  - eapply (Hdiff "a" (VNum 0) _ "b").
    + vm_compute. reflexivity.
    + by left.
    + vm_compute. reflexivity.
    + discriminate.
Defined.

(** A stored payload [undefined] is returned like "not found". *)
Lemma get_result_counterexample :
  outputs (session 2 [Put "k" VUndefined; Has "k"; Get "k"; Has "z"; Get "z"])
  = Some [OUnit; OBool true; OValue VUndefined; OBool false; OValue VUndefined].
Proof. vm_compute. reflexivity. Qed.

(** C5 (arbitrary string keys): the code at the property names of
    [Object.prototype].  On a new cache, which has never stored them, has
    answers true for "toString", "hasOwnProperty", "__proto__" and
    "constructor", and get, put and delete on them throw a TypeError; so
    does the get of the term "constructor" on the cache of 100 terms that
    the lookup handler shares. *)
Theorem prototype_keys_fail :
  outputs (session 2 [Has "toString"; Has "hasOwnProperty"; Has "__proto__";
                      Has "constructor"])
  = Some [OBool true; OBool true; OBool true; OBool true] ∧
  session 2 [Get "toString"] = Throw TypeError ∧
  session 2 [Put "toString" (VNum 1)] = Throw TypeError ∧
  session 2 [Delete "toString"] = Throw TypeError ∧
  session 2 [Get "hasOwnProperty"] = Throw TypeError ∧
  session 2 [Put "__proto__" (VNum 1)] = Throw TypeError ∧
  session 100 [Get "constructor"] = Throw TypeError.
Proof. repeat split; vm_compute; reflexivity. Qed.

(** C6 (construction), as the code has it.  The constructor makes no check
    of the capacity: whatever it is, positive or not, construction yields
    a cache with that capacity, no key in the index, size 0, and the two
    sentinels linked to each other, so that getContents returns the empty
    sequence. *)
Theorem constructor_unchecked (cap : Z) :
  ∃ s, constructor cap = Ok s ∧
       capacity (this s) = cap ∧
       cache (this s) = ∅ ∧
       size (this s) = 0%Z ∧
       get_prop (head (this s)) Fnext s = Ok (tail (this s), s) ∧
       get_prop (tail (this s)) Fprev s = Ok (head (this s), s) ∧
       getContents s = Ok ([], s).
Proof. exists (fresh cap). repeat split. Qed.

(** With capacity 0 construction succeeds, each put of a new key evicts
    the entry before it, and the size stays 0 with one entry in the cache;
    with capacity -1 nothing is ever evicted. *)
Lemma constructor_unchecked_counterexample :
  (∃ s, constructor 0 = Ok s) ∧
  (∃ outs s,
     session 0 [Put "a" (VNum 1); Put "b" (VNum 2); GetContents] = Ok (outs, s) ∧
     outs = [OUnit; OUnit; OContents [(VStr "b", VNum 2)]] ∧
     size (this s) = 0%Z) ∧
  outputs (session (-1) [Put "a" (VNum 1); Put "b" (VNum 2); Put "c" (VNum 3);
                         GetContents])
  = Some [OUnit; OUnit; OUnit;
          OContents [(VStr "c", VNum 3); (VStr "b", VNum 2); (VStr "a", VNum 1)]].
Proof.
  split; [|split].
  - by eexists.
  - eexists _, _. split; [vm_compute; reflexivity|]. split; reflexivity.
  - vm_compute. reflexivity.
Qed.



(** C8 (delete), on the code.  In every state a script reaches: delete on
    a key that is not in the index returns false and leaves the state as
    it is when the key is no property name of [Object.prototype]; when it
    is such a name, has answers true on it and delete throws.  delete on a
    key that getContents lists returns true, takes the key out of the
    index and its node out of the sequence, the other entries keeping
    their order, and decrements size by 1, after which has on that key is
    false. *)
Theorem delete_correct (cap : Z) (ops : list op) (outs : list output) (s : state) :
  session cap ops = Ok (outs, s) →
  (∀ k, cache (this s) !! k = None →
     (inherited k = false →
      has k s = Ok (false, s) ∧ delete k s = Ok (false, s)) ∧
     (inherited k = true →
      has k s = Ok (true, s) ∧ delete k s = Throw TypeError)) ∧
  (∀ k v c1 c2, getContents s = Ok (c1 ++ (VStr k, v) :: c2, s) →
     ∃ s',
       delete k s = Ok (true, s') ∧
       has k s' = Ok (false, s') ∧
       size (this s') = (size (this s) - 1)%Z ∧
       capacity (this s') = capacity (this s) ∧
       cache (this s') = base.delete k (cache (this s)) ∧
       getContents s' = Ok (c1 ++ c2, s')).
Proof.
  intros Hrun. destruct (session_Inv _ _ _ _ Hrun) as (L & HI & _).
  split.
  - intros k Hmiss. pose proof (has_index_miss _ _ Hmiss) as Hhas.
    split; intros Hk; rewrite Hk in Hhas; (split; [assumption|]).
    + by apply delete_miss.
    + by apply delete_inherited.
  - intros k v c1 c2 Hc.
    apply (getContents_inv _ _ _ _ HI) in Hc as [Hc _]. symmetry in Hc.
    apply contents_split in Hc as (L1 & e & L2 & -> & <- & <- & <- & <-).
    destruct (delete_hit _ _ _ _ HI) as (h' & Hdel & _ & HI').
    exists (dropped (e_key e) h' (this s)).
    split; [assumption|]. split; [|split; [|split; [|split]]]; try reflexivity.
    + rewrite (has_Inv _ _ _ HI').
      assert (e ∈ L1 ++ e :: L2) as He by elems.
      rewrite (inv_own _ _ HI e He), orb_false_r.
      rewrite bool_decide_false; [done|].
      pose proof (inv_NoDup_keys _ _ HI) as Hnd. unfold keys in *.
      rewrite fmap_app, fmap_cons in Hnd. rewrite fmap_app.
      by apply NoDup_mid in Hnd as [_ Hnd].
    + rewrite (getContents_Inv _ _ HI'). unfold contents. by rewrite fmap_app.
Qed.

Lemma delete_correct_witness :
  ∃ outs s s',
    session 2 [Put "a" (VNum 1); Put "b" (VNum 2)] = Ok (outs, s) ∧
    delete "z" s = Ok (false, s) ∧
    cache (this s) !! "toString" = None ∧
    delete "toString" s = Throw TypeError ∧
    delete "a" s = Ok (true, s') ∧
    has "a" s' = Ok (false, s') ∧
    size (this s') = 1%Z ∧
    getContents s' = Ok ([(VStr "b", VNum 2)], s').
Proof.
  eexists _, _.
  edestruct (delete_correct 2 [Put "a" (VNum 1); Put "b" (VNum 2)]) as (Hmiss & Hhit);
    [vm_compute; reflexivity|].
  edestruct (Hhit "a" (VNum 1) [(VStr "b", VNum 2)] [])
    as (s' & Hdel & Hhas & Hsz & _ & _ & Hc); [vm_compute; reflexivity|].
  clear Hhit.
  pose proof (Hmiss "z") as Hz. by_computation Hz.
  destruct Hz as [Hz _]. by_computation Hz. destruct Hz as [_ Hz].
  pose proof (Hmiss "toString") as Hinh. by_computation Hinh.
  destruct Hinh as [_ Hinh]. by_computation Hinh. destruct Hinh as [_ Hinh].
  clear Hmiss.
  exists s'. split; [vm_compute; reflexivity|].
  split; [exact Hz|]. split; [vm_compute; reflexivity|]. split; [exact Hinh|].
  split; [exact Hdel|]. split; [exact Hhas|]. split; [exact Hsz | exact Hc].
Defined.

(** C9 (put on a key of the cache).  In every state a script reaches, put
    on a key that getContents lists replaces its payload and moves the
    entry to the front, the other entries keeping their order: nothing is
    evicted, whatever the size, and the fields of the cache object (index,
    size, capacity) are as before; a get of the key then returns the new
    payload.  With capacity 2, put(a,1) then put(a,2) leaves size 1 and
    get(a) returns 2. *)
Theorem put_existing (cap : Z) (ops : list op) (outs : list output) (s : state) :
  session cap ops = Ok (outs, s) →
  (∀ k v0 v c1 c2, getContents s = Ok (c1 ++ (VStr k, v0) :: c2, s) →
     ∃ s' s'',
       put k v s = Ok (tt, s') ∧
       getContents s' = Ok ((VStr k, v) :: c1 ++ c2, s') ∧
       this s' = this s ∧
       get k s' = Ok (v, s'')) ∧
  (∃ outs1 s1 s2,
     session 2 [Put "a" (VNum 1); Put "a" (VNum 2)] = Ok (outs1, s1) ∧
     size (this s1) = 1%Z ∧
     get "a" s1 = Ok (VNum 2, s2)).
Proof.
  intros Hrun. destruct (session_Inv _ _ _ _ Hrun) as (L & HI & _).
  split.
  - intros k v0 v c1 c2 Hc.
    apply (getContents_inv _ _ _ _ HI) in Hc as [Hc _]. symmetry in Hc.
    apply contents_split in Hc as (L1 & e & L2 & -> & <- & <- & <- & <-).
    destruct (put_hit _ _ _ _ v HI) as (s' & Hput & Hthis & HI').
    destruct (get_hit s' [] _ _ HI') as (s'' & Hget & _).
    exists s', s''. split; [assumption|]. split; [|done].
    rewrite (getContents_Inv _ _ HI'). unfold contents.
    by rewrite fmap_cons, fmap_app.
  - eexists _, _, _. split; [vm_compute; reflexivity|].
    split; vm_compute; reflexivity.
Qed.

Lemma put_existing_witness :
  ∃ outs s s',
    session 1 [Put "a" (VNum 1)] = Ok (outs, s) ∧
    size (this s) = capacity (this s) ∧
    put "a" (VNum 2) s = Ok (tt, s') ∧
    getContents s' = Ok ([(VStr "a", VNum 2)], s') ∧
    size (this s') = 1%Z.
Proof.
  eexists _, _.
  edestruct (put_existing 1 [Put "a" (VNum 1)]) as (Hhit & _);
    [vm_compute; reflexivity|].
  edestruct (Hhit "a" (VNum 1) (VNum 2) [] []) as (s' & s'' & Hput & Hc & Hthis & _);
    [vm_compute; reflexivity|].
  exists s'. split; [vm_compute; reflexivity|]. split; [reflexivity|].
  split; [exact Hput|]. split; [exact Hc|]. by rewrite Hthis.
Defined.

(** C10 (clear).  In every state a script reaches, clear returns and leaves
    an empty index, size 0, the head's [next] on the tail and the tail's
    [prev] on the head; getContents then returns the empty sequence and
    has is false for every key that getContents listed before. *)
Theorem clear_resets (cap : Z) (ops : list op) (outs : list output) (s : state) :
  session cap ops = Ok (outs, s) →
  ∃ s',
    clear s = Ok (tt, s') ∧
    cache (this s') = ∅ ∧
    size (this s') = 0%Z ∧
    capacity (this s') = capacity (this s) ∧
    get_prop (head (this s')) Fnext s' = Ok (tail (this s'), s') ∧
    get_prop (tail (this s')) Fprev s' = Ok (head (this s'), s') ∧
    getContents s' = Ok ([], s') ∧
    (∀ k v c, getContents s = Ok (c, s) → (VStr k, v) ∈ c →
       has k s' = Ok (false, s')).
Proof.
  intros Hrun. destruct (session_Inv _ _ _ _ Hrun) as (L & HI & _).
  destruct (clear_Inv _ _ HI) as [Hcl HI'].
  destruct (Inv_empty _ HI') as [Hn Hp].
  exists (cleared s). split; [assumption|]. do 3 (split; [reflexivity|]).
  split; [assumption|]. split; [assumption|]. split.
  - exact (getContents_Inv _ _ HI').
  - intros k v c Hc Hin.
    apply (getContents_inv _ _ _ _ HI) in Hc as [-> _].
    apply list_elem_of_split in Hin as (c1 & c2 & Hc).
    apply contents_split in Hc as (L1 & e & L2 & -> & _ & _ & <- & _).
    rewrite (has_Inv _ _ _ HI'). rewrite (inv_own _ _ HI e) by elems.
    rewrite bool_decide_false; [done|]. apply not_elem_of_nil.
Qed.

Lemma clear_resets_witness :
  ∃ outs s s',
    session 2 [Put "a" (VNum 1); Put "b" (VNum 2)] = Ok (outs, s) ∧
    clear s = Ok (tt, s') ∧
    getContents s' = Ok ([], s') ∧
    has "a" s' = Ok (false, s') ∧
    has "b" s' = Ok (false, s').
Proof.
  eexists _, _.
  edestruct (clear_resets 2 [Put "a" (VNum 1); Put "b" (VNum 2)])
    as (s' & Hcl & _ & _ & _ & _ & _ & Hc & Hhas); [vm_compute; reflexivity|].
  exists s'. split; [vm_compute; reflexivity|]. split; [exact Hcl|].
  split; [exact Hc|].
  split; eapply Hhas; first [vm_compute; reflexivity | elems].
Defined.

(** * Further properties of the engine *)

(** X1 (put, then get).  In every state a script reaches, whatever the
    capacity, put on a key that is no property name of [Object.prototype]
    returns; the entry is then listed first with the payload given, has
    answers true, and get returns the payload without changing the
    listing. *)
Theorem put_then_get (cap : Z) (ops : list op) (k : string) (v : val)
    (outs : list output) (s : state) :
  session cap ops = Ok (outs, s) → inherited k = false →
  ∃ s1 c s2,
    put k v s = Ok (tt, s1) ∧
    getContents s1 = Ok ((VStr k, v) :: c, s1) ∧
    has k s1 = Ok (true, s1) ∧
    get k s1 = Ok (v, s2) ∧
    getContents s2 = Ok ((VStr k, v) :: c, s2).
Proof.
  intros Hs Hk. destruct (session_Inv _ _ _ _ Hs) as (L & HI & _).
  destruct (put_front _ _ k v HI Hk) as (s1 & a & L' & Hput & HI1 & _).
  destruct (get_hit s1 [] _ L' HI1) as (s2 & Hget & _ & _ & HI2).
  exists s1, (contents L'), s2. split; [assumption|].
  split; [exact (getContents_Inv _ _ HI1)|].
  split; [apply (has_own _ _ (Entry a k v) HI1); by left|].
  split; [exact Hget | exact (getContents_Inv _ _ HI2)].
Qed.

Lemma put_then_get_witness :
  ∃ outs s s1 c s2,
    session 1 [Put "a" (VNum 1)] = Ok (outs, s) ∧
    put "b" (VNum 0) s = Ok (tt, s1) ∧
    getContents s1 = Ok ((VStr "b", VNum 0) :: c, s1) ∧
    get "b" s1 = Ok (VNum 0, s2).
Proof.
  eexists _, _.
  edestruct (put_then_get 1 [Put "a" (VNum 1)] "b" (VNum 0))
    as (s1 & c & s2 & Hput & Hc & _ & Hget & _);
    [vm_compute; reflexivity | vm_compute; reflexivity |].
  exists s1, c, s2. split; [vm_compute; reflexivity|].
  split; [exact Hput|]. split; [exact Hc | exact Hget].
Defined.

(** X2 (the index and the list agree).  In every state a script reaches,
    whatever the capacity, the keys getContents lists are distinct strings,
    none of them a property name of [Object.prototype], and they are
    exactly the own keys of the index; has answers true on them and on the
    inherited names only. *)
Theorem index_agrees (cap : Z) (ops : list op) (outs : list output) (s : state) :
  session cap ops = Ok (outs, s) →
  ∃ ks : list string,
    (∃ c, getContents s = Ok (c, s) ∧ c.*1 = VStr <$> ks) ∧
    NoDup ks ∧
    Forall (λ k, inherited k = false) ks ∧
    (∀ k, is_Some (cache (this s) !! k) ↔ k ∈ ks) ∧
    (∀ k, has k s = Ok (bool_decide (k ∈ ks) || inherited k, s)).
Proof.
  intros Hs. destruct (session_Inv _ _ _ _ Hs) as (L & HI & _).
  exists (keys L). split; [|split; [|split; [|split]]].
  - exists (contents L). split; [exact (getContents_Inv _ _ HI)|].
    unfold contents, keys. rewrite <- !list_fmap_compose. reflexivity.
  - by eapply inv_NoDup_keys.
  - apply Forall_forall. intros k (e & -> & He)%list_elem_of_fmap.
    by apply (inv_own _ _ HI).
  - intros k. split.
    + intros [x Hx]. apply (inv_index _ _ HI) in Hx as (e & He & <- & _).
      by apply list_elem_of_fmap_2.
    + intros (e & -> & He)%list_elem_of_fmap.
      rewrite (inv_lookup _ _ _ HI He). eauto.
  - intros k. by apply has_Inv.
Qed.

Lemma index_agrees_witness :
  ∃ outs s ks,
    session 2 [Put "a" (VNum 1); Put "b" (VNum 2); Delete "a"] = Ok (outs, s) ∧
    NoDup ks ∧ "b" ∈ ks ∧
    has "b" s = Ok (bool_decide ("b" ∈ ks) || inherited "b", s).
Proof.
  eexists _, _.
  edestruct (index_agrees 2 [Put "a" (VNum 1); Put "b" (VNum 2); Delete "a"])
    as (ks & _ & Hnd & _ & Hidx & Hhas); [vm_compute; reflexivity|].
  exists ks. split; [vm_compute; reflexivity|]. split; [exact Hnd|].
  split; [|apply Hhas]. apply Hidx. vm_compute. eauto.
Defined.

(** X3 (clear makes the cache new).  In every state a script reaches,
    whatever the capacity, clear returns, and any calls made afterwards
    return what they return on a cache just built with the same capacity
    (or throw as they do there). *)
Theorem clear_like_new (cap : Z) (ops0 : list op) (ops : list op)
    (outs0 : list output) (s : state) :
  session cap ops0 = Ok (outs0, s) →
  ∃ s0, clear s = Ok (tt, s0) ∧
        outputs (run ops s0) = outputs (session cap ops).
Proof.
  intros Hs. destruct (session_Inv _ _ _ _ Hs) as (L & HI & Hcap).
  destruct (clear_Inv _ _ HI) as [Hcl HI0].
  exists (cleared s). split; [assumption|]. rewrite session_run.
  destruct (decide (Forall (λ o, op_throws o = false) ops)) as [Hops|Hops].
  - destruct (run_models _ _ _ HI0 Hops) as (s1 & L1 & -> & _).
    destruct (run_models _ _ _ (fresh_Inv cap) Hops) as (s2 & L2 & -> & _).
    cbn [outputs]. unfold model, cleared. cbn [this capacity size abs fmap list_fmap].
    by rewrite Hcap.
  - apply not_Forall_Exists in Hops; [|apply _].
    assert (Exists (λ o, op_throws o = true) ops) as Hex.
    { eapply Exists_impl; [exact Hops|]. intros o Ho. simpl in Ho.
      by destruct (op_throws o). }
    rewrite (run_throws _ _ _ HI0 Hex), (run_throws _ _ _ (fresh_Inv cap) Hex).
    reflexivity.
Qed.

Lemma clear_like_new_witness :
  ∃ outs0 s s0,
    session 2 [Put "a" (VNum 1); Put "b" (VNum 2)] = Ok (outs0, s) ∧
    clear s = Ok (tt, s0) ∧
    outputs (run [Put "c" (VNum 3); Has "a"; GetContents] s0)
    = Some [OUnit; OBool false; OContents [(VStr "c", VNum 3)]].
Proof.
  eexists _, _.
  edestruct (clear_like_new 2 [Put "a" (VNum 1); Put "b" (VNum 2)]
               [Put "c" (VNum 3); Has "a"; GetContents])
    as (s0 & Hcl & Hout); [vm_compute; reflexivity|].
  exists s0. split; [vm_compute; reflexivity|]. split; [exact Hcl|].
  rewrite Hout. vm_compute. reflexivity.
Defined.

(** X4 (put, then delete).  In every state a script reaches where the
    counter differs from the capacity, put on a key that is not in the
    index and is no property name of [Object.prototype], followed by delete
    on that key, gives back the fields of the cache as they were
    (capacity, index, size, sentinels) and the same listing. *)
Theorem put_delete_restores (cap : Z) (ops : list op) (k : string) (v : val)
    (outs : list output) (s : state) :
  session cap ops = Ok (outs, s) →
  cache (this s) !! k = None →
  inherited k = false →
  size (this s) ≠ capacity (this s) →
  ∃ s1 s2 c,
    put k v s = Ok (tt, s1) ∧
    delete k s1 = Ok (true, s2) ∧
    this s2 = this s ∧
    getContents s = Ok (c, s) ∧
    getContents s2 = Ok (c, s2).
Proof.
  intros Hs Hidx0 Hk Hne. destruct (session_Inv _ _ _ _ Hs) as (L & HI & _).
  pose proof (index_miss_keys _ _ _ HI Hidx0) as Hout.
  assert (has k s = Ok (false, s)) as Hhas
    by (by rewrite (has_index_miss _ _ Hidx0), Hk).
  destruct (insert_Inv s L k v HI Hout Hk) as (s1 & Hin & HI1 & Hc & Hsz & Hidx).
  destruct (delete_hit s1 [] _ L HI1) as (h' & Hdel & _ & HI2).
  cbn [e_key app] in Hdel, HI2.
  exists s1, (dropped k h' (this s1)), (contents L).
  split; [|split; [assumption|split; [|split]]].
  - rewrite put_miss by assumption.
    erewrite bind_Ok by (by apply evict_none). exact Hin.
  - pose proof (inv_head _ _ HI) as Hh. pose proof (inv_tail _ _ HI) as Ht.
    pose proof (inv_head _ _ HI1) as Hh1. pose proof (inv_tail _ _ HI1) as Ht1.
    pose proof (inv_miss _ _ _ HI Hout) as Hmiss.
    unfold dropped. cbn [this]. rewrite Hc, Hsz, Hidx, Hh1, Ht1, <- Hh, <- Ht.
    rewrite delete_insert, decide_True by reflexivity.
    rewrite (delete_id _ _ Hmiss).
    replace (size (this s) + 1 - 1)%Z with (size (this s)) by lia.
    by destruct (this s).
  - exact (getContents_Inv _ _ HI).
  - exact (getContents_Inv _ _ HI2).
Qed.

Lemma put_delete_restores_witness :
  ∃ outs s s1 s2,
    session 2 [Put "a" (VNum 1)] = Ok (outs, s) ∧
    put "b" (VNum 2) s = Ok (tt, s1) ∧
    delete "b" s1 = Ok (true, s2) ∧
    this s2 = this s ∧
    getContents s2 = Ok ([(VStr "a", VNum 1)], s2).
Proof.
  eexists _, _.
  edestruct (put_delete_restores 2 [Put "a" (VNum 1)] "b" (VNum 2))
    as (s1 & s2 & c & Hput & Hdel & Hthis & Hc & Hc2);
    [vm_compute; reflexivity | vm_compute; reflexivity | vm_compute; reflexivity
    | vm_compute; lia |].
  exists s1, s2. split; [vm_compute; reflexivity|].
  split; [exact Hput|]. split; [exact Hdel|]. split; [exact Hthis|].
  vm_compute in Hc. injection Hc as <-. exact Hc2.
Defined.

(** X5 (capacity 0).  On a cache built with capacity 0, in every state a
    script reaches, getContents lists at most one entry and the counter is
    never positive; put on a key that is not in the index returns and
    leaves that entry alone in the cache when the key is no property name
    of [Object.prototype], and throws when it is one. *)
Theorem capacity_zero (ops : list op) (outs : list output) (s : state) :
  session 0 ops = Ok (outs, s) →
  ∃ c, getContents s = Ok (c, s) ∧ length c ≤ 1 ∧ (size (this s) ≤ 0)%Z ∧
       ∀ k v, cache (this s) !! k = None →
         (inherited k = false →
          ∃ s', put k v s = Ok (tt, s') ∧
                getContents s' = Ok ([(VStr k, v)], s')) ∧
         (inherited k = true → put k v s = Throw TypeError).
Proof.
  intros Hs.
  destruct (session_preserves 0
              (λ m, (m.1 = 0%Z ∧ length m.2 ≤ 1) ∨ (m.1 = (-1)%Z ∧ m.2 = []))
              (λ _, True)) with (ops := ops) (outs := outs) (s := s)
    as (L & HI & Hcap & HP);
    [left; simpl; split; [reflexivity | lia] | | by apply Forall_true | assumption |].
  { clear. intros [sz c] o _ Hnd HP. cbn [fst snd] in *.
    assert (∀ k x, Spec.lookup k c = Some x → length c ≤ 1 →
                   Spec.remove k c = []) as Hrem.
    { intros k x Hl Hlen. apply nil_length_inv.
      pose proof (length_remove_hit _ _ _ Hnd Hl). lia. }
    assert (length c ≤ 1 → removelast c = []) as Hlast.
    { destruct c as [|? [|? ?]]; simpl; [done | done | lia]. }
    destruct o as [k|k v|k|k| |]; cbn [Model.step fst snd];
      unfold Model.put; cbn [fst snd].
    - destruct (Spec.lookup k c) as [x|] eqn:Hl; cbn [fst snd]; [|assumption].
      destruct HP as [[-> Hlen]|[-> ->]]; [|discriminate].
      left. rewrite (Hrem _ _ Hl Hlen). simpl. split; [reflexivity | lia].
    - destruct (Spec.lookup k c) as [x|] eqn:Hl; cbn [fst snd].
      + destruct HP as [[-> Hlen]|[-> ->]]; [|discriminate].
        left. rewrite (Hrem _ _ Hl Hlen). simpl. split; [reflexivity | lia].
      + destruct HP as [[-> Hlen]|[-> ->]].
        * rewrite bool_decide_true by reflexivity. cbn [fst snd].
          left. rewrite (Hlast Hlen). simpl. split; [reflexivity | lia].
        * rewrite bool_decide_false by lia. cbn [fst snd]. left. simpl. split; [reflexivity | lia].
    - destruct (Spec.lookup k c) as [x|] eqn:Hl; cbn [fst snd]; [|assumption].
      destruct HP as [[-> Hlen]|[-> ->]]; [|discriminate].
      right. rewrite (Hrem _ _ Hl Hlen). done.
    - assumption.
    - assumption.
    - left. simpl. split; [reflexivity | lia]. }
  unfold model in HP. cbn [fst snd] in HP. rewrite length_abs in HP.
  exists (contents L). split; [exact (getContents_Inv _ _ HI)|].
  unfold contents. rewrite length_fmap.
  split; [destruct HP as [[_ ?]|[_ HL]]; [assumption|]|].
  { apply (f_equal length) in HL. rewrite length_abs in HL. simpl in HL. lia. }
  split; [destruct HP as [[? _]|[? _]]; lia|].
  intros k v Hmiss. split; [|by apply put_inherited].
  intros Hk. pose proof (index_miss_keys _ _ _ HI Hmiss) as Hout.
  destruct (put_models _ _ k v HI Hk) as (s' & L' & Hput & HI' & _ & Hm).
  exists s'. split; [assumption|].
  rewrite (getContents_Inv _ _ HI'), (contents_model _ _ _ Hm).
  unfold model, Model.put. cbn [fst snd].
  rewrite lookup_abs_none by assumption. rewrite Hcap.
  destruct HP as [[-> Hlen]|[-> HL]].
  - rewrite bool_decide_true by reflexivity. cbn [snd].
    destruct (abs L) as [|? [|? ?]] eqn:HL; [done | done |].
    apply (f_equal length) in HL. rewrite length_abs in HL. simpl in HL. lia.
  - rewrite bool_decide_false by lia. cbn [snd]. by rewrite HL.
Qed.

Lemma capacity_zero_witness :
  ∃ outs s s',
    session 0 [Put "a" (VNum 1); Put "b" (VNum 2)] = Ok (outs, s) ∧
    put "c" (VNum 3) s = Ok (tt, s') ∧
    getContents s' = Ok ([(VStr "c", VNum 3)], s') ∧
    put "constructor" (VNum 3) s = Throw TypeError.
Proof.
  eexists _, _.
  edestruct (capacity_zero [Put "a" (VNum 1); Put "b" (VNum 2)])
    as (c & _ & _ & _ & Hput); [vm_compute; reflexivity|].
  pose proof (Hput "c" (VNum 3)) as Hnew. by_computation Hnew.
  destruct Hnew as [Hnew _]. by_computation Hnew.
  pose proof (Hput "constructor" (VNum 3)) as Hinh. by_computation Hinh.
  destruct Hinh as [_ Hinh]. by_computation Hinh.
  clear Hput. destruct Hnew as (s' & Hp & Hc).
  exists s'. split; [vm_compute; reflexivity|]. split; [exact Hp|].
  split; [exact Hc | exact Hinh].
Defined.

(** X6 (negative capacity).  On a cache built with a negative capacity,
    nothing is ever evicted: in every state a script reaches the counter is
    the number of entries listed, and put on a key that is not in the index
    adds its entry in front of all the entries listed before when the key
    is no property name of [Object.prototype], and throws when it is
    one. *)
Theorem capacity_negative (cap : Z) (ops : list op) (outs : list output)
    (s : state) :
  (cap < 0)%Z → session cap ops = Ok (outs, s) →
  ∃ c, getContents s = Ok (c, s) ∧ size (this s) = Z.of_nat (length c) ∧
       ∀ k v, cache (this s) !! k = None →
         (inherited k = false →
          ∃ s', put k v s = Ok (tt, s') ∧
                getContents s' = Ok ((VStr k, v) :: c, s')) ∧
         (inherited k = true → put k v s = Throw TypeError).
Proof.
  intros Hneg Hs.
  destruct (session_preserves cap (λ m, m.1 = Z.of_nat (length m.2)) (λ _, True))
    with (ops := ops) (outs := outs) (s := s)
    as (L & HI & Hcap & HP); [done | | by apply Forall_true | assumption |].
  { clear -Hneg. intros [sz c] o _ Hnd HP. cbn [fst snd] in *. subst sz.
    destruct o as [k|k v|k|k| |]; cbn [Model.step fst snd];
      unfold Model.put; cbn [fst snd].
    - destruct (Spec.lookup k c) as [x|] eqn:Hl; cbn [fst snd]; [|reflexivity].
      pose proof (length_remove_hit _ _ _ Hnd Hl). simpl. lia.
    - destruct (Spec.lookup k c) as [x|] eqn:Hl; cbn [fst snd].
      + pose proof (length_remove_hit _ _ _ Hnd Hl). simpl. lia.
      + rewrite bool_decide_false by lia. cbn [fst snd]. simpl. lia.
    - destruct (Spec.lookup k c) as [x|] eqn:Hl; cbn [fst snd]; [|reflexivity].
      pose proof (length_remove_hit _ _ _ Hnd Hl). lia.
    - reflexivity.
    - reflexivity.
    - reflexivity. }
  unfold model in HP. cbn [fst snd] in HP. rewrite length_abs in HP.
  exists (contents L). split; [exact (getContents_Inv _ _ HI)|].
  unfold contents at 1. rewrite length_fmap. split; [assumption|].
  intros k v Hmiss. split; [|by apply put_inherited].
  intros Hk. pose proof (index_miss_keys _ _ _ HI Hmiss) as Hout.
  destruct (put_models _ _ k v HI Hk) as (s' & L' & Hput & HI' & _ & Hm).
  exists s'. split; [assumption|].
  rewrite (getContents_Inv _ _ HI'), (contents_model _ _ _ Hm).
  unfold model, Model.put. cbn [fst snd].
  rewrite lookup_abs_none by assumption.
  rewrite bool_decide_false by lia. cbn [snd].
  change (js_entries ((k, v) :: abs L)) with ((VStr k, v) :: js_entries (abs L)).
  by rewrite js_entries_abs.
Qed.

Lemma capacity_negative_witness :
  (-1 < 0)%Z ∧
  ∃ outs s s',
    session (-1) [Put "a" (VNum 1); Put "b" (VNum 2)] = Ok (outs, s) ∧
    put "c" (VNum 3) s = Ok (tt, s') ∧
    getContents s'
    = Ok ([(VStr "c", VNum 3); (VStr "b", VNum 2); (VStr "a", VNum 1)], s') ∧
    put "constructor" (VNum 3) s = Throw TypeError.
Proof.
  split; [lia|]. eexists _, _.
  edestruct (capacity_negative (-1) [Put "a" (VNum 1); Put "b" (VNum 2)])
    as (c & Hc & _ & Hput); [lia | vm_compute; reflexivity |].
  pose proof (Hput "c" (VNum 3)) as Hnew. by_computation Hnew.
  destruct Hnew as [Hnew _]. by_computation Hnew.
  pose proof (Hput "constructor" (VNum 3)) as Hinh. by_computation Hinh.
  destruct Hinh as [_ Hinh]. by_computation Hinh.
  clear Hput. destruct Hnew as (s' & Hp & Hc').
  exists s'. split; [vm_compute; reflexivity|]. split; [exact Hp|].
  vm_compute in Hc. injection Hc as <-.
  split; [exact Hc' | exact Hinh].
Defined.

(** X7 (the only failure).  In every state a script reaches, whatever the
    capacity, a call throws exactly when it is get, put or delete on a
    property name of [Object.prototype]; every other call returns, and no
    call runs forever. *)
Theorem fails_on_inherited_only (cap : Z) (ops : list op) (o : op)
    (outs : list output) (s : state) :
  session cap ops = Ok (outs, s) →
  (op_throws o = true → call o s = Throw TypeError) ∧
  (op_throws o = false → ∃ out s', call o s = Ok (out, s')).
Proof.
  intros Hs. destruct (session_Inv _ _ _ _ Hs) as (L & HI & _). split.
  - by apply call_throws with L.
  - intros Ho. destruct (call_models _ _ _ HI Ho) as (s' & L' & Hcall & _).
    eauto.
Qed.

Lemma fails_on_inherited_only_witness :
  ∃ outs s,
    session 2 [Put "a" (VNum 1); Put "b" (VNum 2)] = Ok (outs, s) ∧
    call (Delete "valueOf") s = Throw TypeError ∧
    ∃ out s', call (Delete "value") s = Ok (out, s').
Proof.
  eexists _, _. split; [vm_compute; reflexivity|]. split.
  - eapply (fails_on_inherited_only 2 [Put "a" (VNum 1); Put "b" (VNum 2)]
              (Delete "valueOf")); vm_compute; reflexivity.
  - eapply (fails_on_inherited_only 2 [Put "a" (VNum 1); Put "b" (VNum 2)]
              (Delete "value")); vm_compute; reflexivity.
Defined.

(** X8 (the most recently used key).  In every state a script reaches, get
    on the key listed first returns its payload and leaves the whole state
    as it was, store included: [moveToFront] puts every pointer back.  So
    does put on that key with the payload it already has. *)
Theorem get_front_unchanged (cap : Z) (ops : list op) (outs : list output)
    (s : state) :
  session cap ops = Ok (outs, s) →
  ∀ k v c, getContents s = Ok ((VStr k, v) :: c, s) →
    get k s = Ok (v, s) ∧ put k v s = Ok (tt, s).
Proof.
  intros Hs k v c Hc. destruct (session_Inv _ _ _ _ Hs) as (L & HI & _).
  destruct (getContents_inv _ _ _ _ HI Hc) as [HL _].
  destruct L as [|e L]; [discriminate|].
  injection HL as -> -> _.
  assert (e ∈ e :: L) as He by elems.
  destruct (inv_nodes _ _ HI e He) as [_ Hv].
  split; [by eapply get_front|].
  - unfold put.
    erewrite bind_Ok by (eapply cache_in_hit; eassumption). simpl.
    erewrite bind_Ok by (eapply cache_get_hit; eassumption).
    erewrite bind_Ok by (apply set_prop_node; by eapply fld_alloc).
    assert (upd (heap s) (e_addr e) Fvalue (e_value e) = heap s) as ->.
    { apply heap_ext. intros b f. rewrite fld_upd by (by eapply fld_alloc).
      case_decide; [|reflexivity]. destruct_and?; subst. by rewrite Hv. }
    replace (mkState (heap s) (this s)) with s by (by destruct s).
    by eapply moveToFront_front.
Qed.

Lemma get_front_unchanged_witness :
  ∃ outs s,
    session 2 [Put "a" (VNum 1); Put "b" (VNum 2)] = Ok (outs, s) ∧
    get "b" s = Ok (VNum 2, s) ∧ put "b" (VNum 2) s = Ok (tt, s).
Proof.
  eexists _, _. split; [vm_compute; reflexivity|].
  eapply (get_front_unchanged 2 [Put "a" (VNum 1); Put "b" (VNum 2)]);
    vm_compute; reflexivity.
Defined.

(** X9 (removeLRU on its own).  In every state a script reaches: when
    nothing is listed, removeLRU returns null and changes nothing;
    otherwise it returns the key listed last and unlinks its node, so that
    getContents lists the other entries, but it leaves the index and the
    counter as they were, and has still answers true on the key: the
    eviction is completed by its caller, put. *)
Theorem removeLRU_unlinks_only (cap : Z) (ops : list op) (outs : list output)
    (s : state) :
  session cap ops = Ok (outs, s) →
  (getContents s = Ok ([], s) → removeLRU s = Ok (VNull, s)) ∧
  (∀ c k v, getContents s = Ok (c ++ [(VStr k, v)], s) →
     ∃ s', removeLRU s = Ok (VStr k, s') ∧
           getContents s' = Ok (c, s') ∧
           this s' = this s ∧
           has k s' = Ok (true, s')).
Proof.
  intros Hs. destruct (session_Inv _ _ _ _ Hs) as (L & HI & _). split.
  - intros Hc. destruct (getContents_inv _ _ _ _ HI Hc) as [HL _].
    destruct L; [|discriminate]. by apply removeLRU_empty.
  - intros c k v Hc. destruct (getContents_inv _ _ _ _ HI Hc) as [HL _].
    symmetry in HL. change [(VStr k, v)] with ([] ++ [(VStr k, v)]) in HL.
    rewrite app_assoc in HL.
    apply contents_split in HL as (L1 & e & L2 & -> & H1 & H2 & <- & <-).
    destruct L2; [|discriminate]. rewrite app_nil_r in H1. subst c.
    destruct (removeLRU_last _ _ _ HI) as (h' & Hrm & Hd & Hl).
    assert (e ∈ L1 ++ [e]) as He by elems.
    exists (mkState h' (this s)). split; [assumption|].
    split; [|split; [reflexivity|]].
    + apply getContents_walk; cbn [heap this].
      * apply (inv_head _ _ HI).
      * apply (inv_tail _ _ HI).
      * pose proof (inv_nodup _ _ HI) as Hnd. rewrite addrs_app in Hnd.
        cbn [addrs fmap list_fmap] in Hnd.
        apply NoDup_path_mid in Hnd as [Hnd _]. by rewrite app_nil_r in Hnd.
      * assumption.
      * intros e' He'. destruct Hd as [_ Hd]. rewrite !Hd by discriminate.
        apply (inv_nodes _ _ HI). elems.
    + unfold has, cache_in. cbn [this].
      rewrite (inv_lookup _ _ _ HI He).
      rewrite bool_decide_true by eauto. reflexivity.
Qed.

Lemma removeLRU_unlinks_only_witness :
  ∃ outs s s',
    session 2 [Put "a" (VNum 1); Put "b" (VNum 2)] = Ok (outs, s) ∧
    removeLRU s = Ok (VStr "a", s') ∧
    getContents s' = Ok ([(VStr "b", VNum 2)], s') ∧
    has "a" s' = Ok (true, s').
Proof.
  eexists _, _.
  edestruct (removeLRU_unlinks_only 2 [Put "a" (VNum 1); Put "b" (VNum 2)])
    as (_ & Hlast); [vm_compute; reflexivity|].
  edestruct (Hlast [(VStr "b", VNum 2)] "a" (VNum 1))
    as (s' & Hrm & Hc & _ & Hhas); [vm_compute; reflexivity|].
  exists s'. split; [vm_compute; reflexivity|]. done.
Defined.

(** * Further properties of the callers *)

(** X10 (clearPaginationCache).  In every state a script reaches,
    [clearPaginationCache] returns; getContents then lists the entries
    listed before whose key does not start with [list_], in the same
    order, whatever stored them, and the counter has dropped by the number
    of entries removed; has answers false on every key that starts with
    [list_]; and a second [clearPaginationCache] changes nothing at all. *)
Theorem clearPaginationCache_filters (cap : Z) (ops : list op)
    (outs : list output) (s : state) :
  session cap ops = Ok (outs, s) →
  ∃ c s',
    getContents s = Ok (c, s) ∧
    wordRoute.clearPaginationCache s = Ok (tt, s') ∧
    getContents s' = Ok (kept c, s') ∧
    size (this s')
    = (size (this s) - (Z.of_nat (length c) - Z.of_nat (length (kept c))))%Z ∧
    capacity (this s') = capacity (this s) ∧
    (∀ k, pagination (VStr k) = true → has k s' = Ok (false, s')) ∧
    wordRoute.clearPaginationCache s' = Ok (tt, s').
Proof.
  intros Hs. destruct (session_Inv _ _ _ _ Hs) as (L & HI & _).
  destruct (clearPaginationCache_Inv _ _ HI) as (s' & Hcl & HI' & Hc & Hsz).
  exists (contents L), s'. split; [exact (getContents_Inv _ _ HI)|].
  split; [assumption|]. rewrite kept_contents.
  split; [exact (getContents_Inv _ _ HI')|].
  split; [|split; [assumption|split]].
  - rewrite Hsz. unfold contents. by rewrite !length_fmap.
  - intros k Hp. by eapply has_pagination_filtered.
  - apply (clearPaginationCache_none _ _ HI').
    apply Forall_forall. intros e He. by apply list_elem_of_filter in He as [He _].
Qed.

Lemma clearPaginationCache_filters_witness :
  ∃ outs s s',
    session 3 [Put "list_1_10_{}" (VObject 0); Put "heap" (VObject 1);
               Put "list_of_terms" (VObject 2)] = Ok (outs, s) ∧
    wordRoute.clearPaginationCache s = Ok (tt, s') ∧
    getContents s' = Ok ([(VStr "heap", VObject 1)], s') ∧
    size (this s') = 1%Z.
Proof.
  eexists _, _.
  edestruct (clearPaginationCache_filters 3
               [Put "list_1_10_{}" (VObject 0); Put "heap" (VObject 1);
                Put "list_of_terms" (VObject 2)])
    as (c & s' & Hc & Hcl & Hc' & Hsz & _); [vm_compute; reflexivity|].
  exists s'. split; [vm_compute; reflexivity|]. split; [exact Hcl|].
  vm_compute in Hc. injection Hc as <-. split; [exact Hc' | exact Hsz].
Defined.

(** X11 (the cache in the update of a term).  In every state a script
    reaches, for a term that is no property name of [Object.prototype] and
    a truthy updated document, the handler of PUT /api/words/:term, once
    the database has answered, returns with status 200 and never adds an
    entry: when the term is in the cache its entry gets the new document
    and moves to the front, otherwise nothing is stored; then the entries
    whose key starts with [list_] are removed (the updated one too, if its
    term starts so).  The counter does not grow. *)
Theorem put_term_updates (cap : Z) (ops : list op) (term : string) (w : val)
    (outs : list output) (s : state) :
  session cap ops = Ok (outs, s) → inherited term = false → truthy w = true →
  ∃ c (b : bool) s',
    getContents s = Ok (c, s) ∧ has term s = Ok (b, s) ∧
    wordRoute.put_term term w s = Ok (200, s') ∧
    getContents s'
    = Ok (kept (if b then (VStr term, w) :: filter (λ item, item.1 ≠ VStr term) c
                else c), s') ∧
    (size (this s') ≤ size (this s))%Z.
Proof.
  intros Hs Hk Hw. destruct (session_Inv _ _ _ _ Hs) as (L & HI & _).
  exists (contents L). destruct (decide (term ∈ keys L)) as [Hin|Hout].
  - destruct (keys_split L term (inv_NoDup_keys _ _ HI) Hin)
      as (L1 & e & L2 & -> & <- & H1 & H2).
    destruct (put_term_hit _ _ _ _ w HI Hw) as (s' & Hput & HI' & Hsz).
    exists true, s'. split; [exact (getContents_Inv _ _ HI)|].
    split; [apply (has_own _ _ _ HI); elems|]. split; [assumption|].
    split; [|assumption].
    rewrite contents_without_mid by assumption.
    change ((VStr (e_key e), w) :: contents (L1 ++ L2))
      with (contents (Entry (e_addr e) (e_key e) w :: L1 ++ L2)).
    rewrite kept_contents. exact (getContents_Inv _ _ HI').
  - pose proof (not_throws_miss _ _ _ HI Hk Hout) as Hhas.
    destruct (put_term_miss _ _ _ w HI Hhas Hw) as (s' & Hput & HI' & Hsz).
    exists false, s'. split; [exact (getContents_Inv _ _ HI)|].
    split; [assumption|]. split; [assumption|]. split; [|assumption].
    rewrite kept_contents. exact (getContents_Inv _ _ HI').
Qed.

Lemma put_term_updates_witness :
  ∃ outs s s',
    session 3 [Put "heap" (VObject 0); Put "list_1_10_{}" (VObject 1);
               Put "stack" (VObject 2)] = Ok (outs, s) ∧
    wordRoute.put_term "heap" (VObject 3) s = Ok (200, s') ∧
    getContents s'
    = Ok ([(VStr "heap", VObject 3); (VStr "stack", VObject 2)], s').
Proof.
  eexists _, _.
  edestruct (put_term_updates 3
               [Put "heap" (VObject 0); Put "list_1_10_{}" (VObject 1);
                Put "stack" (VObject 2)] "heap" (VObject 3))
    as (c & b & s' & Hc & Hb & Hput & Hc' & _);
    [vm_compute; reflexivity | vm_compute; reflexivity | reflexivity |].
  exists s'. split; [vm_compute; reflexivity|]. split; [exact Hput|].
  vm_compute in Hc. injection Hc as <-.
  vm_compute in Hb. injection Hb as <-. exact Hc'.
Defined.

(** X12 (the cache in the deletion of a term).  In every state a script
    reaches, for a term that is no property name of [Object.prototype] and
    a truthy deleted document, the handler of DELETE /api/words/:term, once
    the database has answered, returns with status 200; getContents then
    lists the entries listed before but the one of the term and those
    whose key starts with [list_], in the same order, and has answers
    false on the term. *)
Theorem delete_term_removes (cap : Z) (ops : list op) (term : string) (d : val)
    (outs : list output) (s : state) :
  session cap ops = Ok (outs, s) → inherited term = false → truthy d = true →
  ∃ c s',
    getContents s = Ok (c, s) ∧
    wordRoute.delete_term term d s = Ok (200, s') ∧
    getContents s' = Ok (kept (filter (λ item, item.1 ≠ VStr term) c), s') ∧
    has term s' = Ok (false, s') ∧
    (∀ k, pagination (VStr k) = true → has k s' = Ok (false, s')).
Proof.
  intros Hs Hk Hd. destruct (session_Inv _ _ _ _ Hs) as (L & HI & _).
  exists (contents L).
  assert (∃ b s1 L1, delete term s = Ok (b, s1) ∧ Inv s1 L1 ∧ (term ∉ keys L1) ∧
            filter (λ item, item.1 ≠ VStr term) (contents L) = contents L1)
    as (b & s1 & L1 & Hdel & HI1 & Hout1 & HL1).
  { destruct (decide (term ∈ keys L)) as [Hin|Hout].
    - destruct (keys_split L term (inv_NoDup_keys _ _ HI) Hin)
        as (La & e & Lb & -> & <- & Ha & Hb).
      destruct (delete_hit _ _ _ _ HI) as (h' & Hdel & _ & HI1).
      exists true, (dropped (e_key e) h' (this s)), (La ++ Lb).
      split; [assumption|]. split; [assumption|].
      split; [|by apply contents_without_mid].
      unfold keys in *. rewrite fmap_app. elems.
    - exists false, s, L. split; [by eapply delete_miss, not_throws_miss|].
      split; [assumption|]. split; [assumption|].
      by apply contents_without_none. }
  destruct (clearPaginationCache_Inv _ _ HI1) as (s' & Hcl & HI' & _ & _).
  exists s'. split; [exact (getContents_Inv _ _ HI)|].
  split; [|split; [|split]].
  - unfold wordRoute.delete_term. rewrite Hd. cbn [negb].
    erewrite bind_Ok by eassumption.
    erewrite bind_Ok by eassumption. reflexivity.
  - rewrite HL1, kept_contents. exact (getContents_Inv _ _ HI').
  - rewrite (has_Inv _ _ _ HI'), Hk. rewrite bool_decide_false; [reflexivity|].
    intros (e & -> & He)%list_elem_of_fmap.
    apply list_elem_of_filter in He as [_ He]. apply Hout1.
    by apply list_elem_of_fmap_2.
  - intros k Hp. by eapply has_pagination_filtered.
Qed.

Lemma delete_term_removes_witness :
  ∃ outs s s',
    session 3 [Put "heap" (VObject 0); Put "list_1_10_{}" (VObject 1);
               Put "stack" (VObject 2)] = Ok (outs, s) ∧
    wordRoute.delete_term "heap" (VObject 0) s = Ok (200, s') ∧
    getContents s' = Ok ([(VStr "stack", VObject 2)], s') ∧
    has "heap" s' = Ok (false, s').
Proof.
  eexists _, _.
  edestruct (delete_term_removes 3
               [Put "heap" (VObject 0); Put "list_1_10_{}" (VObject 1);
                Put "stack" (VObject 2)] "heap" (VObject 0))
    as (c & s' & Hc & Hdel & Hc' & Hhas & _);
    [vm_compute; reflexivity | vm_compute; reflexivity | reflexivity |].
  exists s'. split; [vm_compute; reflexivity|]. split; [exact Hdel|].
  vm_compute in Hc. injection Hc as <-. split; [exact Hc' | exact Hhas].
Defined.

(** X13 (the pages of the listing).  In every state a script reaches, the
    lookup of a page of the listing never throws, whatever the page, the
    limit and the filter: its key is no property name of
    [Object.prototype].  Once a term has been added, every such lookup
    misses, without changing the state, so that no page stored before the
    change is served after it. *)
Theorem listing_invalidated (cap : Z) (ops : list op) (page limit filter : string)
    (outs : list output) (s : state) :
  session cap ops = Ok (outs, s) →
  (∃ r s1, wordRoute.cached (wordRoute.cacheKey page limit filter) s = Ok (r, s1)) ∧
  ∃ s2, wordRoute.post_saved s = Ok (201, s2) ∧
        wordRoute.cached (wordRoute.cacheKey page limit filter) s2 = Ok (None, s2).
Proof.
  intros Hs. destruct (session_Inv _ _ _ _ Hs) as (L & HI & _).
  pose proof (cacheKey_pagination page limit filter) as Hp.
  pose proof (pagination_own _ Hp) as Hk. split.
  - destruct (get_models _ _ _ HI Hk) as (x & s1 & L1 & Hget & _).
    eexists _, s1. unfold wordRoute.cached.
    erewrite bind_Ok by eassumption. reflexivity.
  - destruct (clearPaginationCache_Inv _ _ HI) as (s2 & Hcl & HI2 & _).
    exists s2. split.
    + unfold wordRoute.post_saved. erewrite bind_Ok by eassumption. reflexivity.
    + unfold wordRoute.cached.
      erewrite bind_Ok by (by eapply get_miss, has_pagination_filtered).
      reflexivity.
Qed.

Lemma listing_invalidated_witness :
  ∃ outs s s2,
    session 3 [Put (wordRoute.cacheKey "1" "10" "{}") (VObject 0)] = Ok (outs, s) ∧
    wordRoute.cached (wordRoute.cacheKey "1" "10" "{}") s = Ok (Some (VObject 0), s) ∧
    wordRoute.post_saved s = Ok (201, s2) ∧
    wordRoute.cached (wordRoute.cacheKey "1" "10" "{}") s2 = Ok (None, s2).
Proof.
  eexists _, _.
  edestruct (listing_invalidated 3
               [Put (wordRoute.cacheKey "1" "10" "{}") (VObject 0)] "1" "10" "{}")
    as (_ & s2 & Hpost & Hmiss); [vm_compute; reflexivity|].
  exists s2. split; [vm_compute; reflexivity|].
  split; [vm_compute; reflexivity|]. split; [exact Hpost | exact Hmiss].
Defined.

(** X14 (the cache of the server).  The pieces of handlers of
    routes/wordRoute.js and routes/cacheRoute.js that touch the cache, run
    one after the other in any order from the cache of utils/cacheManager.js,
    all return as long as no term is a property name of
    [Object.prototype].  Whenever they return, the cache is in a state that
    a script of calls reaches on a cache of capacity 100: its capacity is
    100, its counter is the number of entries getContents lists, at most
    100, and their keys are distinct. *)
Theorem server_bounded (requests : list request) :
  (Forall (λ r, request_own r = true) requests →
   ∃ s, server requests = Ok (tt, s)) ∧
  ∀ s, server requests = Ok (tt, s) →
    (∃ ops outs, session 100 ops = Ok (outs, s)) ∧
    capacity (this s) = 100%Z ∧
    (size (this s) ≤ 100)%Z ∧
    ∃ c, getContents s = Ok (c, s) ∧
         size (this s) = Z.of_nat (length c) ∧
         NoDup c.*1.
Proof.
  split.
  - intros Hr. unfold server, wordRoute.wordCache. rewrite constructor_fresh.
    destruct (serve_all_Inv _ _ _ (fresh_Inv 100) Hr) as (s & L & Hs & _).
    by exists s.
  - intros s Hs. destruct (server_script _ _ Hs) as (ops & outs & Hsess & _).
    split; [eauto|].
    destruct (session_simulates 100 ops outs s) as (L & HI & HS & Hcap & _);
      [lia | assumption |].
    destruct HS as (_ & Hsz & Hle). rewrite Hcap in Hle.
    split; [assumption|]. split; [lia|].
    exists (contents L). split; [exact (getContents_Inv _ _ HI)|].
    split; [unfold contents; by rewrite length_fmap|].
    unfold contents. rewrite <- list_fmap_compose.
    change (fst ∘ (λ e, (VStr (e_key e), e_value e))) with (VStr ∘ e_key).
    rewrite list_fmap_compose. apply NoDup_fmap_2.
    + intros x y [= ->]. reflexivity.
    + exact (inv_NoDup_keys _ _ HI).
Qed.

Lemma server_bounded_witness :
  ∃ s,
    server [GetTerm "heap"; GetTermFetched "heap" (VObject 0);
            GetList "1" "10" "{}"; GetListFetched "1" "10" "{}" 1;
            PutTerm "heap" (VObject 2)] = Ok (tt, s) ∧
    capacity (this s) = 100%Z ∧
    getContents s = Ok ([(VStr "heap", VObject 2)], s).
Proof.
  eexists. split; [vm_compute; reflexivity|].
  edestruct (server_bounded
               [GetTerm "heap"; GetTermFetched "heap" (VObject 0);
                GetList "1" "10" "{}"; GetListFetched "1" "10" "{}" 1;
                PutTerm "heap" (VObject 2)]) as [_ H].
  edestruct H as (_ & Hcap & _); [vm_compute; reflexivity|].
  split; [exact Hcap | vm_compute; reflexivity].
Defined.

(** X15 (the test of a cached payload).  The handlers store a document
    only after the test that there is one, and the page of a listing as an
    object they have built.  So, in every state the server reaches, every
    payload of the cache is truthy, and the test [if (cachedWord)] on the
    result of get is exact: a handler answers from the cache exactly when
    has is true on the key, for every key that is no property name of
    [Object.prototype]; when it does not, the state is left as it was. *)
Theorem server_lookup_exact (requests : list request) (s : state) :
  server requests = Ok (tt, s) →
  (∃ c, getContents s = Ok (c, s) ∧ Forall (λ item, truthy item.2 = true) c) ∧
  ∀ key, inherited key = false →
    ∃ r s', wordRoute.cached key s = Ok (r, s') ∧
            (is_Some r ↔ has key s = Ok (true, s)) ∧
            (r = None → s' = s).
Proof.
  intros Hs. destruct (server_script _ _ Hs) as (ops & outs & Hsess & Ht).
  destruct (truthy_session _ _ _ _ Ht Hsess) as (L & HI & _ & HL). split.
  - exists (contents L). split; [exact (getContents_Inv _ _ HI)|].
    unfold contents. by apply Forall_fmap.
  - intros key Hk. by eapply cached_exact.
Qed.

Lemma server_lookup_exact_witness :
  ∃ s r s',
    server [GetTermFetched "heap" (VObject 0); GetTermFetched "stack" VNull]
    = Ok (tt, s) ∧
    wordRoute.cached "stack" s = Ok (r, s') ∧
    (is_Some r ↔ has "stack" s = Ok (true, s)).
Proof.
  eexists.
  edestruct (server_lookup_exact
               [GetTermFetched "heap" (VObject 0); GetTermFetched "stack" VNull])
    as [_ H]; [vm_compute; reflexivity|].
  edestruct (H "stack") as (r & s' & Hc & Hiff & _); [vm_compute; reflexivity|].
  exists r, s'. split; [vm_compute; reflexivity|]. split; [exact Hc | exact Hiff].
Defined.

(** X16 (a fetched term is cached, a missing one is not).  In every state a
    script reaches, for a term that is no property name of
    [Object.prototype]: when the database has answered with a document,
    the handler of GET /api/words/:term stores it and answers 200, and the
    next lookup of the term answers from the cache with that document,
    without changing the state; when the database has answered with
    nothing, the handler answers 404 and leaves the cache as it was. *)
Theorem fetched_then_cached (cap : Z) (ops : list op) (term : string) (word : val)
    (outs : list output) (s : state) :
  session cap ops = Ok (outs, s) → inherited term = false →
  (truthy word = true →
   ∃ s1, wordRoute.get_term_fetched term word s = Ok (200, s1) ∧
         wordRoute.cached term s1 = Ok (Some word, s1)) ∧
  (truthy word = false →
   wordRoute.get_term_fetched term word s = Ok (404, s)).
Proof.
  intros Hs Hk. destruct (session_Inv _ _ _ _ Hs) as (L & HI & _). split.
  - intros Hw.
    destruct (put_front _ _ term word HI Hk) as (s1 & a & L' & Hput & HI1 & _).
    exists s1. split.
    + unfold wordRoute.get_term_fetched. rewrite Hw. cbn [negb].
      erewrite bind_Ok by eassumption. reflexivity.
    + unfold wordRoute.cached.
      erewrite bind_Ok by (exact (get_front _ _ _ HI1)).
      cbn [e_value]. by rewrite Hw.
  - intros Hw. unfold wordRoute.get_term_fetched. by rewrite Hw.
Qed.

Lemma fetched_then_cached_witness :
  ∃ outs s s1,
    session 2 [Put "a" (VObject 0)] = Ok (outs, s) ∧
    wordRoute.get_term_fetched "heap" (VObject 1) s = Ok (200, s1) ∧
    wordRoute.cached "heap" s1 = Ok (Some (VObject 1), s1).
Proof.
  eexists _, _.
  edestruct (fetched_then_cached 2 [Put "a" (VObject 0)] "heap" (VObject 1))
    as [Hhit _]; [vm_compute; reflexivity | vm_compute; reflexivity |].
  destruct (Hhit eq_refl) as (s1 & Hf & Hc).
  exists s1. split; [vm_compute; reflexivity|]. split; [exact Hf | exact Hc].
Defined.

(** X17 (looking a term up in the cache moves it).  In every state a script
    reaches, the handler of GET /api/cache/:term on a key getContents lists
    moves its entry to the front of the listing, as get does, and leaves
    the fields of the cache as they were; it answers 200 when the payload
    is truthy and 404 when it is not, although the key is in the cache. *)
Theorem cache_lookup_promotes (cap : Z) (ops : list op) (outs : list output)
    (s : state) :
  session cap ops = Ok (outs, s) →
  ∀ k v c1 c2, getContents s = Ok (c1 ++ (VStr k, v) :: c2, s) →
    ∃ s', cacheRoute.get_term k s = Ok (if truthy v then 200 else 404, s') ∧
          getContents s' = Ok ((VStr k, v) :: c1 ++ c2, s') ∧
          this s' = this s.
Proof.
  intros Hs k v c1 c2 Hc. destruct (session_Inv _ _ _ _ Hs) as (L & HI & _).
  destruct (getContents_inv _ _ _ _ HI Hc) as [HL _]. symmetry in HL.
  apply contents_split in HL as (L1 & e & L2 & -> & <- & <- & <- & <-).
  destruct (get_hit _ _ _ _ HI) as (s' & Hget & Hthis & _ & HI').
  exists s'. split; [|split; [|assumption]].
  - unfold cacheRoute.get_term. erewrite bind_Ok by eassumption.
    by destruct (truthy (e_value e)).
  - rewrite (getContents_Inv _ _ HI'). unfold contents.
    by rewrite fmap_cons, !fmap_app.
Qed.

Lemma cache_lookup_promotes_witness :
  ∃ outs s s',
    session 2 [Put "a" (VNum 0); Put "b" (VNum 2)] = Ok (outs, s) ∧
    cacheRoute.get_term "a" s = Ok (404, s') ∧
    getContents s' = Ok ([(VStr "a", VNum 0); (VStr "b", VNum 2)], s').
Proof.
  eexists _, _.
  edestruct (cache_lookup_promotes 2 [Put "a" (VNum 0); Put "b" (VNum 2)])
    with (k := "a") (v := VNum 0) (c1 := [(VStr "b", VNum 2)])
         (c2 := @nil (val * val))
    as (s' & Hget & Hc & _); [vm_compute; reflexivity | vm_compute; reflexivity |].
  exists s'. split; [vm_compute; reflexivity|]. split; [exact Hget | exact Hc].
Defined.
